(** * versionedkv: the in-memory storage and its per-key value cell

    A shallow embedding of [memorystorage/internal/value.go] (the per-key
    cell: value, version, watchers, removed flag) and of
    [memorystorage/memorystorage.go] (the storage built on it), followed by
    the properties of the storage contract that the embedding settles. *)

From Stdlib Require Import ZArith Lia Sorted.
From stdpp Require Import base option list gmap strings.

Local Open Scope string_scope.
Local Open Scope Z_scope.

(** ** Go runtime: results that may panic, and an explicit heap *)

(** A Go function either returns or panics; an unrecovered panic ends the
    program, so nothing is kept of the state at a panic. *)
Inductive result (A : Type) : Type :=
| Ok (a : A)
| Panic (msg : string).
Arguments Ok {A} a.
Arguments Panic {A} msg.

(** [uint64] arithmetic: [atomic.AddUint64] wraps around. *)
Definition uint64_modulus : Z := 2 ^ 64.
Definition uint64_add (a b : Z) : Z := (a + b) mod uint64_modulus.
Arguments uint64_add : simpl never.

(** The two error values of the repository and the errors of a context. *)
Inductive error : Type :=
| nil
| ErrValueRemoved
| ErrStorageClosed
| Canceled
| DeadlineExceeded.

Global Instance error_eq_dec : EqDecision error.
Proof. solve_decision. Defined.

Module internal.

Definition Version : Type := Z.

Record EventArgs : Type := mkEventArgs {
  Value_ : string;
  Version_ : Version
}.

(** [type watcher struct { event chan struct{}; eventArgs EventArgs }]:
    of the channel only whether it has been closed matters. *)
Record watcher : Type := mkWatcher {
  event_closed : bool;
  eventArgs : EventArgs
}.

(** [type Watcher struct{ w *watcher }]; [None] is the zero [Watcher{}]. *)
Definition Watcher : Type := option nat.

(** [type Value struct]; the mutex is not a field here: every method
    below holds it from entry to exit, so a method is one atomic step.
    [Value_watchers = None] is the nil map. *)
Record Value : Type := mkValue {
  Value_v : string;
  Value_version : Version;
  Value_watchers : option (gset nat);
  Value_isRemoved : bool
}.

(** [var v Value]: the zero value. *)
Definition zeroValue : Value := mkValue "" 0 None false.

Definition with_v_version (V : Value) (vv : string) (ver : Version) : Value :=
  mkValue vv ver (Value_watchers V) (Value_isRemoved V).
Definition with_watchers (V : Value) (ws : option (gset nat)) : Value :=
  mkValue (Value_v V) (Value_version V) ws (Value_isRemoved V).
Definition with_isRemoved (V : Value) (b : bool) : Value :=
  mkValue (Value_v V) (Value_version V) (Value_watchers V) b.

(** The heap: [*Value] and [*watcher] are indices into two append-only
    arrays of cells; [env] is whatever the closures handed to the
    methods (the callback of [CheckAndSet], the [ValueRemover]) act on. *)
Record state (E : Type) : Type := mkState {
  cells : list Value;
  wcells : list watcher;
  env : E
}.
Arguments mkState {E} cells wcells env.
Arguments cells {E} s.
Arguments wcells {E} s.
Arguments env {E} s.

Definition M (E A : Type) : Type := state E → result (A * state E).

Definition panic {E A} (msg : string) : M E A := λ _, Panic msg.

#[global] Instance M_ret {E} : MRet (M E) := λ A a σ, Ok (a, σ).
#[global] Instance M_bind {E} : MBind (M E) := λ A B f m σ,
  match m σ with
  | Ok (a, σ') => f a σ'
  | Panic msg => Panic msg
  end.

Definition ret {E A} (a : A) : M E A := mret a.

Section Methods.
Context {E : Type}.

(** [*p]: a pointer handed out by [alloc] always has a cell. *)
Definition deref (p : nat) : M E Value :=
  λ σ, match cells σ !! p with
       | Some V => Ok (V, σ)
       | None => Panic "nil pointer dereference"
       end.

Definition assign (p : nat) (V : Value) : M E unit :=
  λ σ, Ok (tt, mkState (<[p := V]> (cells σ)) (wcells σ) (env σ)).

Definition alloc (V : Value) : M E nat :=
  λ σ, Ok (length (cells σ), mkState (cells σ ++ [V]) (wcells σ) (env σ)).

(** [new(watcher).Init()] *)
Definition Init : M E nat :=
  λ σ, Ok (length (wcells σ),
           mkState (cells σ) (wcells σ ++ [mkWatcher false (mkEventArgs "" 0)]) (env σ)).

(** [func (w *watcher) FireEvent(eventArgs EventArgs)]: closing a
    channel that is already closed panics. *)
Definition FireEvent (w : nat) (args : EventArgs) : M E unit :=
  λ σ, match wcells σ !! w with
       | None => Panic "nil pointer dereference"
       | Some c =>
           if event_closed c then Panic "close of closed channel"
           else Ok (tt, mkState (cells σ) (<[w := mkWatcher true args]> (wcells σ)) (env σ))
       end.

(** [for watcher := range watchers { watcher.FireEvent(eventArgs) }] *)
Fixpoint FireEvents (ws : list nat) (args : EventArgs) : M E unit :=
  match ws with
  | [] => ret tt
  | w :: ws' => FireEvent w args ;; FireEvents ws' args
  end.

(** [func (v *Value) set(vv string, version Version)] *)
Definition set (p : nat) (vv : string) (version : Version) : M E unit :=
  if version =? 0 then panic "set value to zero version"
  else V ← deref p; assign p (with_v_version V vv version).

(** [func NewValue(vv string, version Version) *Value] *)
Definition NewValue (vv : string) (version : Version) : M E nat :=
  p ← alloc zeroValue;
  set p vv version ;;
  ret p.

(** [func (v *Value) Get() (string, Version, error)] *)
Definition Get (p : nat) : M E (string * Version * error) :=
  V ← deref p;
  if Value_isRemoved V then ret ("", 0, ErrValueRemoved)
  else ret (Value_v V, Value_version V, nil).

(** [func (v *Value) AddWatcher() (Watcher, error)] *)
Definition AddWatcher (p : nat) : M E (Watcher * error) :=
  V ← deref p;
  if Value_isRemoved V then ret (None, ErrValueRemoved)
  else
    watcher1 ← Init;
    let ws := match Value_watchers V with
              | None => ∅
              | Some ws => ws
              end in
    assign p (with_watchers V (Some ({[watcher1]} ∪ ws))) ;;
    ret (Some watcher1, nil).

(** [func (v *Value) remove(remover ValueRemover)] *)
Definition remove (p : nat) (remover : M E unit) : M E unit :=
  remover ;;
  V ← deref p;
  assign p (with_isRemoved V true).

(** [func (v *Value) RemoveWatcher(wrappedWatcher Watcher, remover ValueRemover) error] *)
Definition RemoveWatcher (p : nat) (wrappedWatcher : Watcher)
    (remover : M E unit) : M E error :=
  V ← deref p;
  if Value_isRemoved V then ret ErrValueRemoved
  else
    match wrappedWatcher, Value_watchers V with
    | Some w, Some ws =>
        if bool_decide (w ∈ ws) then
          let ws' := ws ∖ {[w]} in
          if bool_decide (1 ≤ size ws')%nat then
            assign p (with_watchers V (Some ws')) ;;
            ret nil
          else
            assign p (with_watchers V None) ;;
            (if Value_version V =? 0 then remove p remover else ret tt) ;;
            ret nil
        else ret nil
    | _, _ => ret nil
    end.

(** [func (v *Value) CheckAndSet(callback func(Version) (string, Version, bool)) (bool, error)].
    The variables a callback captures and assigns are passed to it
    and returned by it ([L]); the watchers are fired after the mutex
    is released, which only a goroutine waiting on them can tell. *)
Definition CheckAndSet {L : Type} (p : nat)
    (callback : Version → L → M E (string * Version * bool * L))
    (captured : L) : M E (bool * error * L) :=
  V ← deref p;
  if Value_isRemoved V then ret (false, ErrValueRemoved, captured)
  else
    '(vv, version, ok, captured') ← callback (Value_version V) captured;
    if negb ok then ret (false, nil, captured')
    else
      set p vv version ;;
      V' ← deref p;
      let watchers := Value_watchers V' in
      assign p (with_watchers V' None) ;;
      FireEvents (match watchers with
                  | None => []
                  | Some ws => elements ws
                  end) (mkEventArgs vv version) ;;
      ret (true, nil, captured').

(** [func (v *Value) Clear(version Version, remover ValueRemover) (bool, error)] *)
Definition Clear (p : nat) (version : Version) (remover : M E unit)
    : M E (bool * error) :=
  V ← deref p;
  if Value_isRemoved V then ret (false, ErrValueRemoved)
  else if Value_version V =? 0 then ret (false, nil)
  else if negb (version =? 0) && negb (Value_version V =? version) then ret (false, nil)
  else
    assign p (with_v_version V "" 0) ;;
    (if Value_watchers V is None then remove p remover else ret tt) ;;
    ret (true, nil).

(** [func (w Watcher) EventArgs() EventArgs]; [Event()] is the channel,
    of which [Fired] tells whether a receive on it is ready. *)
Definition EventArgs_of (w : Watcher) : M E EventArgs :=
  λ σ, match w with
       | None => Panic "nil pointer dereference"
       | Some i => match wcells σ !! i with
                   | Some c => Ok (eventArgs c, σ)
                   | None => Panic "nil pointer dereference"
                   end
       end.

Definition Fired (w : Watcher) (σ : state E) : bool :=
  match w with
  | None => false
  | Some i => match wcells σ !! i with
              | Some c => event_closed c
              | None => false
              end
  end.

(** *** [memorystorage/internal/export_test.go]

    What the tests of the package reach into a cell with. *)

(** [type ValueDetails struct] *)
Record ValueDetails : Type := mkValueDetails {
  Details_V : string;
  Details_Version : Version;
  Details_NumberOfWatchers : nat;
  Details_IsRemoved : bool
}.

(** [func (v *Value) Remove()]: the remover is [func() {}]. *)
Definition Value_Remove (p : nat) : M E unit :=
  remove p (ret tt).

(** [func (v *Value) Set(vv string, version Version)] *)
Definition Value_Set (p : nat) (vv : string) (version : Version) : M E unit :=
  set p vv version.

(** [func (v *Value) Inspect() ValueDetails]; [len] of the nil map is 0. *)
Definition Value_Inspect (p : nat) : M E ValueDetails :=
  V ← deref p;
  ret (mkValueDetails (Value_v V) (Value_version V)
         (match Value_watchers V with
          | None => 0%nat
          | Some ws => size ws
          end)
         (Value_isRemoved V)).

End Methods.

End internal.

(** ** The storage: [memorystorage/memorystorage.go] *)

(** [versionedkv.Version] is [interface{}]: nil, a boxed
    [internal.Version], or a value of some other dynamic type. *)
Inductive OpaqueVersion : Type :=
| nilVersion
| boxVersion (version : internal.Version)
| boxOther.

(** [context.Context], as far as [WaitForValue] uses it: [Background] is
    never done; a [Cancelable] context may become done at any moment and
    carries what [ctx.Err()] returns from then on. *)
Inductive Context : Type :=
| Background
| Cancelable (err : error).

Definition ctx_Err (ctx : Context) : error :=
  match ctx with
  | Background => nil
  | Cancelable err => err
  end.

(** The three cases of the [select] in [tryWaitForValue]. *)
Inductive selectCase : Type :=
| caseEvent
| caseClosure
| caseDone.

(** [type ValueDetails struct] and [type StorageDetails struct] of
    [storage.go]; [Values = None] is the nil map. *)
Module versionedkv.

Record ValueDetails : Type := mkValueDetails {
  V : string;
  Version : OpaqueVersion
}.

Record StorageDetails : Type := mkStorageDetails {
  Values : option (gmap string ValueDetails);
  IsClosed : bool
}.

End versionedkv.

Module memorystorage.
Import internal.

(** [type memoryStorage struct]: [values] is the [sync.Map] from key to
    [*internal.Value]; of the channel [closure] only whether it has
    been closed matters. *)
Record memoryStorage : Type := mkMemoryStorage {
  values : gmap string nat;
  version : Version;
  isClosed1 : Z;
  closure : bool
}.

Abbreviation St := (state memoryStorage).
Abbreviation Act := (M memoryStorage).

Definition with_env (σ : St) (ms : memoryStorage) : St :=
  mkState (cells σ) (wcells σ) ms.

(** [func New() versionedkv.Storage], on an empty heap. *)
Definition New : St := mkState [] [] (mkMemoryStorage ∅ 0 0 false).

(** *** Atomic steps: [sync/atomic], [sync.Map] and the channel *)

(** [func (ms *memoryStorage) isClosed() bool] *)
Definition isClosed : Act bool :=
  λ σ, Ok (negb (isClosed1 (env σ) =? 0), σ).

(** [func (ms *memoryStorage) nextVersion() internal.Version] *)
Definition nextVersion : Act Version :=
  λ σ, let ms := env σ in
       let n := uint64_add (version ms) 1 in
       Ok (n, with_env σ (mkMemoryStorage (values ms) n (isClosed1 ms) (closure ms))).

(** [ms.values.Load(key)] *)
Definition values_Load (key : string) : Act (option nat) :=
  λ σ, Ok (values (env σ) !! key, σ).

(** [ms.values.LoadOrStore(key, value)]; the boolean is [loaded]. *)
Definition values_LoadOrStore (key : string) (value : nat) : Act (nat * bool) :=
  λ σ, let ms := env σ in
       match values ms !! key with
       | Some actual => Ok ((actual, true), σ)
       | None =>
           Ok ((value, false),
               with_env σ (mkMemoryStorage (<[key := value]> (values ms))
                             (version ms) (isClosed1 ms) (closure ms)))
       end.

(** [ms.values.Delete(key)] *)
Definition values_Delete (key : string) : Act unit :=
  λ σ, let ms := env σ in
       Ok (tt, with_env σ (mkMemoryStorage (delete key (values ms))
                             (version ms) (isClosed1 ms) (closure ms))).

(** [atomic.SwapInt32(&ms.isClosed1, new)] *)
Definition SwapInt32_isClosed1 (new : Z) : Act Z :=
  λ σ, let ms := env σ in
       Ok (isClosed1 ms,
           with_env σ (mkMemoryStorage (values ms) (version ms) new (closure ms))).

(** [close(ms.closure)] *)
Definition close_closure : Act unit :=
  λ σ, let ms := env σ in
       if closure ms then Panic "close of closed channel"
       else Ok (tt, with_env σ (mkMemoryStorage (values ms) (version ms)
                                  (isClosed1 ms) true)).

(** [func version2OpaqueVersion(version internal.Version) versionedkv.Version] *)
Definition version2OpaqueVersion (version : Version) : OpaqueVersion :=
  if version =? 0 then nilVersion else boxVersion version.

(** [func opaqueVersion2Version(opaqueVersion versionedkv.Version) internal.Version];
    the type assertion panics on another dynamic type. *)
Definition opaqueVersion2Version (opaqueVersion : OpaqueVersion) : result Version :=
  match opaqueVersion with
  | nilVersion => Ok 0
  | boxVersion version => Ok version
  | boxOther => Panic "interface conversion"
  end.

(** *** Calls as sequences of atomic steps

    No lock is held between two steps of a call, so another goroutine
    may run between them; [Select] is the one place where a call
    waits. *)
Inductive prog (A : Type) : Type :=
| Ret (a : A)
| Atomic {X : Type} (m : Act X) (k : X → prog A)
| Select (watcher : Watcher) (ctx : Context) (k : selectCase → prog A).
Arguments Ret {A} a.
Arguments Atomic {A X} m k.
Arguments Select {A} watcher ctx k.

Fixpoint prog_bind {A B} (f : A → prog B) (p : prog A) : prog B :=
  match p with
  | Ret a => f a
  | Atomic m k => Atomic m (λ x, prog_bind f (k x))
  | Select watcher ctx k => Select watcher ctx (λ c, prog_bind f (k c))
  end.

#[global] Instance prog_ret : MRet prog := λ A a, Ret a.
#[global] Instance prog_mbind : MBind prog := λ A B f p, prog_bind f p.

Definition atomic {X} (m : Act X) : prog X := Atomic m Ret.
Definition throw {A} (msg : string) : prog A := Atomic (panic msg) Ret.

(** [func (ms *memoryStorage) tryGetValue(key string) (string, internal.Version, error, bool)] *)
Definition tryGetValue (key : string) : prog (string * Version * error * bool) :=
  closed ← atomic isClosed;
  if closed : bool then Ret ("", 0, ErrStorageClosed, true)
  else
    opaqueValue ← atomic (values_Load key);
    match opaqueValue with
    | None => Ret ("", 0, nil, true)
    | Some value =>
        '(val, version, err) ← atomic (Get value);
        if bool_decide (err ≠ nil) then
          if bool_decide (err ≠ ErrValueRemoved) then throw "unreachable"
          else Ret ("", 0, nil, false)
        else Ret (val, version, nil, true)
    end.

(** [func (ms *memoryStorage) GetValue(_ context.Context, key string)];
    [fuel] bounds the iterations of the [for] loop, [None] says that
    the loop has not returned within them. *)
Fixpoint GetValue (fuel : nat) (key : string)
    : prog (option (string * OpaqueVersion * error)) :=
  match fuel with
  | O => Ret None
  | S fuel' =>
      '(val, version, err, done) ← tryGetValue key;
      if negb done then GetValue fuel' key
      else Ret (Some (val, version2OpaqueVersion version, err))
  end.

(** The deferred function of [tryWaitForValue]. *)
Definition deferredRemoveWatcher (key : string) (value : nat) (watcher : Watcher)
    : prog unit :=
  if bool_decide (watcher ≠ None) then
    atomic (RemoveWatcher value watcher (values_Delete key)) ;; Ret tt
  else Ret tt.

(** The [select] of [tryWaitForValue], from the case that fired on. *)
Definition afterSelect (ctx : Context) (key : string) (value : nat)
    (watcher : Watcher) (c : selectCase) : prog (string * Version * error * bool) :=
  match c with
  | caseEvent =>
      eventArgs ← atomic (EventArgs_of watcher);
      deferredRemoveWatcher key value None ;;
      Ret (Value_ eventArgs, Version_ eventArgs, nil, true)
  | caseClosure =>
      deferredRemoveWatcher key value None ;;
      Ret ("", 0, ErrStorageClosed, true)
  | caseDone =>
      deferredRemoveWatcher key value watcher ;;
      Ret ("", 0, ctx_Err ctx, true)
  end.

(** [func (ms *memoryStorage) tryWaitForValue(ctx context.Context, key string,
    oldVersion internal.Version) (string, internal.Version, error, bool)] *)
Definition tryWaitForValue (ctx : Context) (key : string) (oldVersion : Version)
    : prog (string * Version * error * bool) :=
  closed ← atomic isClosed;
  if closed : bool then Ret ("", 0, ErrStorageClosed, true)
  else
    opaqueValue ← atomic (values_Load key);
    value ← match opaqueValue with
            | Some value => Ret value
            | None =>
                fresh ← atomic (alloc zeroValue);
                '(actual, _) ← atomic (values_LoadOrStore key fresh);
                Ret actual
            end;
    '(watcher, err) ← atomic (AddWatcher value);
    if bool_decide (err ≠ nil) then
      if bool_decide (err ≠ ErrValueRemoved) then throw "unreachable"
      else Ret ("", 0, nil, false)
    else
      '(val, version, err) ← atomic (Get value);
      if bool_decide (err ≠ nil) then
        if bool_decide (err ≠ ErrValueRemoved) then throw "unreachable"
        else Ret ("", 0, nil, false)
      else if negb (version =? 0)
              && ((oldVersion =? 0) || negb (version =? oldVersion)) then
        deferredRemoveWatcher key value watcher ;;
        Ret (val, version, nil, true)
      else Select watcher ctx (afterSelect ctx key value watcher).

(** [func (ms *memoryStorage) WaitForValue(ctx context.Context, key string,
    opaqueOldVersion versionedkv.Version)], from [oldVersion] on. *)
Fixpoint WaitForValue_loop (fuel : nat) (ctx : Context) (key : string)
    (oldVersion : Version) : prog (option (string * OpaqueVersion * error)) :=
  match fuel with
  | O => Ret None
  | S fuel' =>
      '(val, newVersion, err, done) ← tryWaitForValue ctx key oldVersion;
      if negb done then WaitForValue_loop fuel' ctx key oldVersion
      else Ret (Some (val, version2OpaqueVersion newVersion, err))
  end.

Definition convert (opaqueVersion : OpaqueVersion) : prog Version :=
  match opaqueVersion2Version opaqueVersion with
  | Ok version => Ret version
  | Panic msg => throw msg
  end.

Definition WaitForValue (fuel : nat) (ctx : Context) (key : string)
    (opaqueOldVersion : OpaqueVersion) : prog (option (string * OpaqueVersion * error)) :=
  oldVersion ← convert opaqueOldVersion;
  WaitForValue_loop fuel ctx key oldVersion.

(** The closure that [tryCreateValue] hands to [CheckAndSet]; it
    captures [val] and [version] and assigns nothing. *)
Definition tryCreateValue_callback (val : string) (version : Version)
    (currentVersion : Version) (_ : unit) : Act (string * Version * bool * unit) :=
  if negb (currentVersion =? 0) then ret ("", 0, false, tt)
  else ret (val, version, true, tt).

(** [func (ms *memoryStorage) tryCreateValue(key, val string) (internal.Version, error, bool)] *)
Definition tryCreateValue (key val : string) : prog (Version * error * bool) :=
  closed ← atomic isClosed;
  if closed : bool then Ret (0, ErrStorageClosed, true)
  else
    version ← atomic nextVersion;
    value ← atomic (NewValue val version);
    '(opaqueValue, valueExists) ← atomic (values_LoadOrStore key value);
    if negb valueExists then Ret (version, nil, true)
    else
      let value := opaqueValue in
      '(ok, err, _) ← atomic (CheckAndSet value (tryCreateValue_callback val version) tt);
      if bool_decide (err ≠ nil) then
        if bool_decide (err ≠ ErrValueRemoved) then throw "unreachable"
        else Ret (0, nil, false)
      else
        if negb ok then Ret (0, nil, true)
        else Ret (version, nil, true).

(** [func (ms *memoryStorage) CreateValue(_ context.Context, key, val string)] *)
Fixpoint CreateValue (fuel : nat) (key val : string)
    : prog (option (OpaqueVersion * error)) :=
  match fuel with
  | O => Ret None
  | S fuel' =>
      '(version, err, ok) ← tryCreateValue key val;
      if negb ok then CreateValue fuel' key val
      else Ret (Some (version2OpaqueVersion version, err))
  end.

(** The closure that [tryUpdateValue] hands to [CheckAndSet]; it
    captures [val] and [oldVersion] and assigns the variable
    [newVersion] of [tryUpdateValue]. *)
Definition tryUpdateValue_callback (val : string) (oldVersion : Version)
    (currentVersion : Version) (newVersion : Version)
    : Act (string * Version * bool * Version) :=
  if currentVersion =? 0 then ret ("", 0, false, newVersion)
  else if negb (oldVersion =? 0) && negb (currentVersion =? oldVersion)
  then ret ("", 0, false, newVersion)
  else
    newVersion ← nextVersion;
    ret (val, newVersion, true, newVersion).

(** [func (ms *memoryStorage) tryUpdateValue(key, val string, oldVersion internal.Version)
    (internal.Version, error, bool)]; [newVersion] starts as zero. *)
Definition tryUpdateValue (key val : string) (oldVersion : Version)
    : prog (Version * error * bool) :=
  closed ← atomic isClosed;
  if closed : bool then Ret (0, ErrStorageClosed, true)
  else
    opaqueValue ← atomic (values_Load key);
    match opaqueValue with
    | None => Ret (0, nil, true)
    | Some value =>
        '(ok, err, newVersion) ← atomic (CheckAndSet value
          (tryUpdateValue_callback val oldVersion) 0);
        if bool_decide (err ≠ nil) then
          if bool_decide (err ≠ ErrValueRemoved) then throw "unreachable"
          else Ret (0, nil, false)
        else
          if negb ok then Ret (0, nil, true)
          else Ret (newVersion, nil, true)
    end.

(** [func (ms *memoryStorage) UpdateValue(_ context.Context, key, val string,
    opaqueOldVersion versionedkv.Version)] *)
Fixpoint UpdateValue_loop (fuel : nat) (key val : string) (oldVersion : Version)
    : prog (option (OpaqueVersion * error)) :=
  match fuel with
  | O => Ret None
  | S fuel' =>
      '(newVersion, err, done) ← tryUpdateValue key val oldVersion;
      if negb done then UpdateValue_loop fuel' key val oldVersion
      else Ret (Some (version2OpaqueVersion newVersion, err))
  end.

Definition UpdateValue (fuel : nat) (key val : string)
    (opaqueOldVersion : OpaqueVersion) : prog (option (OpaqueVersion * error)) :=
  oldVersion ← convert opaqueOldVersion;
  UpdateValue_loop fuel key val oldVersion.

(** The closure that [tryCreateOrUpdateValue] hands to [CheckAndSet];
    it captures [val], [version] and [oldVersion] and assigns the
    variable [newVersion] of [tryCreateOrUpdateValue]. *)
Definition tryCreateOrUpdateValue_callback (val : string) (version oldVersion : Version)
    (currentVersion : Version) (newVersion : Version)
    : Act (string * Version * bool * Version) :=
  if currentVersion =? 0 then ret (val, version, true, newVersion)
  else if negb (oldVersion =? 0) && negb (currentVersion =? oldVersion)
  then ret ("", 0, false, newVersion)
  else
    newVersion ← nextVersion;
    ret (val, newVersion, true, newVersion).

(** [func (ms *memoryStorage) tryCreateOrUpdateValue(key, val string,
    oldVersion internal.Version) (internal.Version, error, bool)];
    [newVersion] starts as zero. *)
Definition tryCreateOrUpdateValue (key val : string) (oldVersion : Version)
    : prog (Version * error * bool) :=
  closed ← atomic isClosed;
  if closed : bool then Ret (0, ErrStorageClosed, true)
  else
    version ← atomic nextVersion;
    value ← atomic (NewValue val version);
    '(opaqueValue, valueExists) ← atomic (values_LoadOrStore key value);
    if negb valueExists then Ret (version, nil, true)
    else
      let value := opaqueValue in
      '(ok, err, newVersion) ← atomic (CheckAndSet value
        (tryCreateOrUpdateValue_callback val version oldVersion) 0);
      if bool_decide (err ≠ nil) then
        if bool_decide (err ≠ ErrValueRemoved) then throw "unreachable"
        else Ret (0, nil, false)
      else
        if negb ok then Ret (0, nil, true)
        else if newVersion =? 0 then Ret (version, nil, true)
        else Ret (newVersion, nil, true).

(** [func (ms *memoryStorage) CreateOrUpdateValue(_ context.Context, key, val string,
    opaqueOldVersion versionedkv.Version)] *)
Fixpoint CreateOrUpdateValue_loop (fuel : nat) (key val : string)
    (oldVersion : Version) : prog (option (OpaqueVersion * error)) :=
  match fuel with
  | O => Ret None
  | S fuel' =>
      '(newVersion, err, done) ← tryCreateOrUpdateValue key val oldVersion;
      if negb done then CreateOrUpdateValue_loop fuel' key val oldVersion
      else Ret (Some (version2OpaqueVersion newVersion, err))
  end.

Definition CreateOrUpdateValue (fuel : nat) (key val : string)
    (opaqueOldVersion : OpaqueVersion) : prog (option (OpaqueVersion * error)) :=
  oldVersion ← convert opaqueOldVersion;
  CreateOrUpdateValue_loop fuel key val oldVersion.

(** [func (ms *memoryStorage) tryDeleteValue(key string, version internal.Version)
    (bool, error, bool)] *)
Definition tryDeleteValue (key : string) (version : Version)
    : prog (bool * error * bool) :=
  closed ← atomic isClosed;
  if closed : bool then Ret (false, ErrStorageClosed, true)
  else
    opaqueValue ← atomic (values_Load key);
    match opaqueValue with
    | None => Ret (false, nil, true)
    | Some value =>
        '(ok, err) ← atomic (Clear value version (values_Delete key));
        if bool_decide (err ≠ nil) then
          if bool_decide (err ≠ ErrValueRemoved) then throw "unreachable"
          else Ret (false, nil, false)
        else Ret (ok, nil, true)
    end.

(** [func (ms *memoryStorage) DeleteValue(_ context.Context, key string,
    opaqueVersion versionedkv.Version)] *)
Fixpoint DeleteValue_loop (fuel : nat) (key : string) (oldVersion : Version)
    : prog (option (bool * error)) :=
  match fuel with
  | O => Ret None
  | S fuel' =>
      '(ok, err, done) ← tryDeleteValue key oldVersion;
      if negb done then DeleteValue_loop fuel' key oldVersion
      else Ret (Some (ok, err))
  end.

Definition DeleteValue (fuel : nat) (key : string) (opaqueVersion : OpaqueVersion)
    : prog (option (bool * error)) :=
  oldVersion ← convert opaqueVersion;
  DeleteValue_loop fuel key oldVersion.

(** [func (ms *memoryStorage) Close() error] *)
Definition Close : prog error :=
  old ← atomic (SwapInt32_isClosed1 1);
  if negb (old =? 0) then Ret ErrStorageClosed
  else
    atomic close_closure ;;
    Ret nil.

(** [ms.values.Range(f)]: the entries that [f] is called on, one after
    the other; a call that runs on its own sees the map as it is when
    [Range] starts. *)
Definition values_Range : Act (list (string * nat)) :=
  λ σ, Ok (map_to_list (values (env σ)), σ).

(** The function that [Inspect] hands to [Range], over the entries in
    turn; it assigns the variable [valueDetails] of [Inspect], drops
    the error of [Get], and stores the internal version as it is. *)
Fixpoint Inspect_callback (entries : list (string * nat))
    (valueDetails : option (gmap string versionedkv.ValueDetails))
    : prog (option (gmap string versionedkv.ValueDetails)) :=
  match entries with
  | [] => Ret valueDetails
  | (key, value) :: entries' =>
      '(val, version, _) ← atomic (Get value);
      Inspect_callback entries'
        (Some (<[key := versionedkv.mkValueDetails val (boxVersion version)]>
                 (default ∅ valueDetails)))
  end.

(** [func (ms *memoryStorage) Inspect() versionedkv.StorageDetails] *)
Definition Inspect : prog versionedkv.StorageDetails :=
  closed ← atomic isClosed;
  if closed : bool then Ret (versionedkv.mkStorageDetails None true)
  else
    entries ← atomic values_Range;
    valueDetails ← Inspect_callback entries None;
    Ret (versionedkv.mkStorageDetails valueDetails false).

End memorystorage.

(** ** The earlier revision of [memorystorage.go]

    The first of the two revisions of the file in the sources: an
    attempt ([doGetValue], ...) hands [internal.ErrValueRemoved] back
    to the [for] loop of its caller, which tries again on that error,
    where the later revision returns a flag and panics on any other
    error of the cell. [New], [Close], [isClosed], [nextVersion], the
    two conversions and the closures handed to [CheckAndSet] are the
    same text in both. *)
Module earlier.
Import internal memorystorage.

(** [func (ms *memoryStorage) doGetValue(key string) (string, internal.Version, error)] *)
Definition doGetValue (key : string) : prog (string * Version * error) :=
  closed ← atomic isClosed;
  if closed : bool then Ret ("", 0, ErrStorageClosed)
  else
    opaqueValue ← atomic (values_Load key);
    match opaqueValue with
    | None => Ret ("", 0, nil)
    | Some value =>
        '(val, version, err) ← atomic (Get value);
        if bool_decide (err ≠ nil) then Ret ("", 0, err)
        else Ret (val, version, nil)
    end.

(** [func (ms *memoryStorage) GetValue(_ context.Context, key string)] *)
Fixpoint GetValue (fuel : nat) (key : string)
    : prog (option (string * OpaqueVersion * error)) :=
  match fuel with
  | O => Ret None
  | S fuel' =>
      '(val, version, err) ← doGetValue key;
      if bool_decide (err = ErrValueRemoved) then GetValue fuel' key
      else Ret (Some (val, version2OpaqueVersion version, err))
  end.

(** The [select] of [doWaitForValue], from the case that fired on. *)
Definition afterSelect (ctx : Context) (key : string) (value : nat)
    (watcher : Watcher) (c : selectCase) : prog (string * Version * error) :=
  match c with
  | caseEvent =>
      eventArgs ← atomic (EventArgs_of watcher);
      deferredRemoveWatcher key value None ;;
      Ret (Value_ eventArgs, Version_ eventArgs, nil)
  | caseClosure =>
      deferredRemoveWatcher key value None ;;
      Ret ("", 0, ErrStorageClosed)
  | caseDone =>
      deferredRemoveWatcher key value watcher ;;
      Ret ("", 0, ctx_Err ctx)
  end.

(** [func (ms *memoryStorage) doWaitForValue(ctx context.Context, key string,
    oldVersion internal.Version) (string, internal.Version, error)] *)
Definition doWaitForValue (ctx : Context) (key : string) (oldVersion : Version)
    : prog (string * Version * error) :=
  closed ← atomic isClosed;
  if closed : bool then Ret ("", 0, ErrStorageClosed)
  else
    opaqueValue ← atomic (values_Load key);
    value ← match opaqueValue with
            | Some value => Ret value
            | None =>
                fresh ← atomic (alloc zeroValue);
                '(actual, _) ← atomic (values_LoadOrStore key fresh);
                Ret actual
            end;
    '(watcher, err) ← atomic (AddWatcher value);
    if bool_decide (err ≠ nil) then Ret ("", 0, err)
    else
      '(val, version, err) ← atomic (Get value);
      if bool_decide (err ≠ nil) then Ret ("", 0, err)
      else if negb (version =? 0)
              && ((oldVersion =? 0) || negb (version =? oldVersion)) then
        deferredRemoveWatcher key value watcher ;;
        Ret (val, version, nil)
      else Select watcher ctx (afterSelect ctx key value watcher).

(** [func (ms *memoryStorage) WaitForValue(ctx context.Context, key string,
    opaqueOldVersion versionedkv.Version)], from [oldVersion] on. *)
Fixpoint WaitForValue_loop (fuel : nat) (ctx : Context) (key : string)
    (oldVersion : Version) : prog (option (string * OpaqueVersion * error)) :=
  match fuel with
  | O => Ret None
  | S fuel' =>
      '(val, newVersion, err) ← doWaitForValue ctx key oldVersion;
      if bool_decide (err = ErrValueRemoved) then WaitForValue_loop fuel' ctx key oldVersion
      else Ret (Some (val, version2OpaqueVersion newVersion, err))
  end.

Definition WaitForValue (fuel : nat) (ctx : Context) (key : string)
    (opaqueOldVersion : OpaqueVersion) : prog (option (string * OpaqueVersion * error)) :=
  oldVersion ← convert opaqueOldVersion;
  WaitForValue_loop fuel ctx key oldVersion.

(** [func (ms *memoryStorage) doCreateValue(key, val string) (internal.Version, error)] *)
Definition doCreateValue (key val : string) : prog (Version * error) :=
  closed ← atomic isClosed;
  if closed : bool then Ret (0, ErrStorageClosed)
  else
    version ← atomic nextVersion;
    value ← atomic (NewValue val version);
    '(opaqueValue, valueExists) ← atomic (values_LoadOrStore key value);
    if negb valueExists then Ret (version, nil)
    else
      let value := opaqueValue in
      '(ok, err, _) ← atomic (CheckAndSet value (tryCreateValue_callback val version) tt);
      if bool_decide (err ≠ nil) then Ret (0, err)
      else
        if negb ok then Ret (0, nil)
        else Ret (version, nil).

(** [func (ms *memoryStorage) CreateValue(_ context.Context, key, val string)] *)
Fixpoint CreateValue (fuel : nat) (key val : string)
    : prog (option (OpaqueVersion * error)) :=
  match fuel with
  | O => Ret None
  | S fuel' =>
      '(version, err) ← doCreateValue key val;
      if bool_decide (err = ErrValueRemoved) then CreateValue fuel' key val
      else Ret (Some (version2OpaqueVersion version, err))
  end.

(** [func (ms *memoryStorage) doUpdateValue(key, val string, oldVersion internal.Version)
    (internal.Version, error)] *)
Definition doUpdateValue (key val : string) (oldVersion : Version)
    : prog (Version * error) :=
  closed ← atomic isClosed;
  if closed : bool then Ret (0, ErrStorageClosed)
  else
    opaqueValue ← atomic (values_Load key);
    match opaqueValue with
    | None => Ret (0, nil)
    | Some value =>
        '(ok, err, newVersion) ← atomic (CheckAndSet value
          (tryUpdateValue_callback val oldVersion) 0);
        if bool_decide (err ≠ nil) then Ret (0, err)
        else
          if negb ok then Ret (0, nil)
          else Ret (newVersion, nil)
    end.

(** [func (ms *memoryStorage) UpdateValue(_ context.Context, key, val string,
    opaqueOldVersion versionedkv.Version)] *)
Fixpoint UpdateValue_loop (fuel : nat) (key val : string) (oldVersion : Version)
    : prog (option (OpaqueVersion * error)) :=
  match fuel with
  | O => Ret None
  | S fuel' =>
      '(newVersion, err) ← doUpdateValue key val oldVersion;
      if bool_decide (err = ErrValueRemoved) then UpdateValue_loop fuel' key val oldVersion
      else Ret (Some (version2OpaqueVersion newVersion, err))
  end.

Definition UpdateValue (fuel : nat) (key val : string)
    (opaqueOldVersion : OpaqueVersion) : prog (option (OpaqueVersion * error)) :=
  oldVersion ← convert opaqueOldVersion;
  UpdateValue_loop fuel key val oldVersion.

(** [func (ms *memoryStorage) doCreateOrUpdateValue(key, val string,
    oldVersion internal.Version) (internal.Version, error)] *)
Definition doCreateOrUpdateValue (key val : string) (oldVersion : Version)
    : prog (Version * error) :=
  closed ← atomic isClosed;
  if closed : bool then Ret (0, ErrStorageClosed)
  else
    version ← atomic nextVersion;
    value ← atomic (NewValue val version);
    '(opaqueValue, valueExists) ← atomic (values_LoadOrStore key value);
    if negb valueExists then Ret (version, nil)
    else
      let value := opaqueValue in
      '(ok, err, newVersion) ← atomic (CheckAndSet value
        (tryCreateOrUpdateValue_callback val version oldVersion) 0);
      if bool_decide (err ≠ nil) then Ret (0, err)
      else
        if negb ok then Ret (0, nil)
        else if newVersion =? 0 then Ret (version, nil)
        else Ret (newVersion, nil).

(** [func (ms *memoryStorage) CreateOrUpdateValue(_ context.Context, key, val string,
    opaqueOldVersion versionedkv.Version)] *)
Fixpoint CreateOrUpdateValue_loop (fuel : nat) (key val : string)
    (oldVersion : Version) : prog (option (OpaqueVersion * error)) :=
  match fuel with
  | O => Ret None
  | S fuel' =>
      '(newVersion, err) ← doCreateOrUpdateValue key val oldVersion;
      if bool_decide (err = ErrValueRemoved)
      then CreateOrUpdateValue_loop fuel' key val oldVersion
      else Ret (Some (version2OpaqueVersion newVersion, err))
  end.

Definition CreateOrUpdateValue (fuel : nat) (key val : string)
    (opaqueOldVersion : OpaqueVersion) : prog (option (OpaqueVersion * error)) :=
  oldVersion ← convert opaqueOldVersion;
  CreateOrUpdateValue_loop fuel key val oldVersion.

(** [func (ms *memoryStorage) doDeleteValue(key string, version internal.Version)
    (bool, error)] *)
Definition doDeleteValue (key : string) (version : Version) : prog (bool * error) :=
  closed ← atomic isClosed;
  if closed : bool then Ret (false, ErrStorageClosed)
  else
    opaqueValue ← atomic (values_Load key);
    match opaqueValue with
    | None => Ret (false, nil)
    | Some value =>
        '(ok, err) ← atomic (Clear value version (values_Delete key));
        if bool_decide (err ≠ nil) then Ret (false, err)
        else Ret (ok, nil)
    end.

(** [func (ms *memoryStorage) DeleteValue(_ context.Context, key string,
    opaqueVersion versionedkv.Version)] *)
Fixpoint DeleteValue_loop (fuel : nat) (key : string) (oldVersion : Version)
    : prog (option (bool * error)) :=
  match fuel with
  | O => Ret None
  | S fuel' =>
      '(ok, err) ← doDeleteValue key oldVersion;
      if bool_decide (err = ErrValueRemoved) then DeleteValue_loop fuel' key oldVersion
      else Ret (Some (ok, err))
  end.

Definition DeleteValue (fuel : nat) (key : string) (opaqueVersion : OpaqueVersion)
    : prog (option (bool * error)) :=
  oldVersion ← convert opaqueVersion;
  DeleteValue_loop fuel key oldVersion.

End earlier.

(** ** Running calls *)

Module run.
Import internal memorystorage.

(** A call run on its own, with no step of another goroutine in
    between: it returns, panics, or reaches the [select]. *)
Inductive outcome (A : Type) : Type :=
| Done (a : A) (σ : St)
| Panicked (msg : string)
| Blocked (watcher : Watcher) (ctx : Context) (k : selectCase → prog A) (σ : St).
Arguments Done {A} a σ.
Arguments Panicked {A} msg.
Arguments Blocked {A} watcher ctx k σ.

Fixpoint run {A} (p : prog A) (σ : St) : outcome A :=
  match p with
  | Ret a => Done a σ
  | Atomic m k =>
      match m σ with
      | Ok (x, σ') => run (k x) σ'
      | Panic msg => Panicked msg
      end
  | Select watcher ctx k => Blocked watcher ctx k σ
  end.

(** Which cases of the [select] can proceed: the event channel of the
    watcher is closed, [ms.closure] is closed, [ctx.Done()] is closed
    (which a cancelable context may be at any time). *)
Definition ready (watcher : Watcher) (ctx : Context) (c : selectCase) (σ : St) : bool :=
  match c with
  | caseEvent => Fired watcher σ
  | caseClosure => closure (env σ)
  | caseDone => if ctx is Background then false else true
  end.

(** *** Histories of calls that do not overlap

    Each call runs to its return (or to its [select]) before the next
    one starts; a [WaitForValue] that waits is kept with what it will
    do when a case of its [select] fires, and [wake i c] lets the
    [i]-th of them proceed through case [c]. *)
Inductive call : Type :=
| callGetValue (key : string)
| callWaitForValue (ctx : Context) (key : string) (oldVersion : OpaqueVersion)
| callCreateValue (key val : string)
| callUpdateValue (key val : string) (oldVersion : OpaqueVersion)
| callCreateOrUpdateValue (key val : string) (oldVersion : OpaqueVersion)
| callDeleteValue (key : string) (version : OpaqueVersion)
| callClose
| wake (i : nat) (c : selectCase).

Inductive reply : Type :=
| returnedValue (val : string) (version : OpaqueVersion) (err : error)
| returnedVersion (version : OpaqueVersion) (err : error)
| returnedOk (ok : bool) (err : error)
| returnedError (err : error)
| waiting
| spinning
| panicked (msg : string)
| notReady.

Record waiter : Type := mkWaiter {
  waiter_watcher : Watcher;
  waiter_ctx : Context;
  waiter_k : selectCase → prog (option (string * OpaqueVersion * error))
}.

Record world : Type := mkWorld {
  store : St;
  waiters : list (option waiter)
}.

Definition settle {A} (w : world) (o : outcome (option A)) (f : A → reply)
    : world * reply :=
  match o with
  | Done (Some a) σ => (mkWorld σ (waiters w), f a)
  | Done None σ => (mkWorld σ (waiters w), spinning)
  | Panicked msg => (w, panicked msg)
  | Blocked _ _ _ _ => (w, notReady)
  end.

Definition settleWait (w : world) (slot : option nat)
    (o : outcome (option (string * OpaqueVersion * error))) : world * reply :=
  match o with
  | Done (Some (val, version, err)) σ =>
      (mkWorld σ (if slot is Some i then <[i := None]> (waiters w) else waiters w),
       returnedValue val version err)
  | Done None σ =>
      (mkWorld σ (if slot is Some i then <[i := None]> (waiters w) else waiters w),
       spinning)
  | Panicked msg => (w, panicked msg)
  | Blocked watcher ctx k σ =>
      (mkWorld σ
         (if slot is Some i then <[i := Some (mkWaiter watcher ctx k)]> (waiters w)
          else waiters w ++ [Some (mkWaiter watcher ctx k)]),
       waiting)
  end.

Definition perform (fuel : nat) (c : call) (w : world) : world * reply :=
  let σ := store w in
  match c with
  | callGetValue key =>
      settle w (run (GetValue fuel key) σ)
        (λ '(val, version, err), returnedValue val version err)
  | callWaitForValue ctx key oldVersion =>
      settleWait w None (run (WaitForValue fuel ctx key oldVersion) σ)
  | callCreateValue key val =>
      settle w (run (CreateValue fuel key val) σ)
        (λ '(version, err), returnedVersion version err)
  | callUpdateValue key val oldVersion =>
      settle w (run (UpdateValue fuel key val oldVersion) σ)
        (λ '(version, err), returnedVersion version err)
  | callCreateOrUpdateValue key val oldVersion =>
      settle w (run (CreateOrUpdateValue fuel key val oldVersion) σ)
        (λ '(version, err), returnedVersion version err)
  | callDeleteValue key version =>
      settle w (run (DeleteValue fuel key version) σ)
        (λ '(ok, err), returnedOk ok err)
  | callClose =>
      settle w (run (err ← Close; Ret (Some err)) σ) returnedError
  | wake i c =>
      match waiters w !! i with
      | Some (Some wt) =>
          if ready (waiter_watcher wt) (waiter_ctx wt) c σ
          then settleWait w (Some i) (run (waiter_k wt c) σ)
          else (w, notReady)
      | _ => (w, notReady)
      end
  end.

(** A panic ends the program: the history stops there. *)
Fixpoint history (fuel : nat) (cs : list call) (w : world) : world * list reply :=
  match cs with
  | [] => (w, [])
  | c :: cs' =>
      let '(w', r) := perform fuel c w in
      match r with
      | panicked _ => (w', [r])
      | _ => let '(w'', rs) := history fuel cs' w' in (w'', r :: rs)
      end
  end.

Definition fresh : world := mkWorld New [].

End run.


(** ** Calls that overlap *)

Module interleaving.
Import internal memorystorage run.

(** Goroutines running one call each over the same storage. A tick
    lets one of them take its next atomic step (or leave its [select]
    through the named case, if that case is ready); [completed] lists
    the calls that have returned, in the order in which they
    returned. *)
Record config (A : Type) : Type := mkConfig {
  shared : St;
  goroutines : list (prog A);
  completed : list (nat * A);
  crashed : option string
}.
Arguments mkConfig {A} shared goroutines completed crashed.
Arguments shared {A} c.
Arguments goroutines {A} c.
Arguments completed {A} c.
Arguments crashed {A} c.

Definition resumed {A} (i : nat) (p : prog A) (σ : St) (cfg : config A) : config A :=
  mkConfig σ (<[i := p]> (goroutines cfg))
    (completed cfg ++ (if p is Ret a then [(i, a)] else []))
    (crashed cfg).

Definition tick {A} (i : nat) (c : selectCase) (cfg : config A) : config A :=
  match crashed cfg, goroutines cfg !! i with
  | None, Some (Atomic m k) =>
      match m (shared cfg) with
      | Ok (x, σ') => resumed i (k x) σ' cfg
      | Panic msg => mkConfig (shared cfg) (goroutines cfg) (completed cfg) (Some msg)
      end
  | None, Some (Select watcher ctx k) =>
      if ready watcher ctx c (shared cfg) then resumed i (k c) (shared cfg) cfg
      else cfg
  | _, _ => cfg
  end.

Definition interleave {A} (schedule : list (nat * selectCase)) (cfg : config A)
    : config A :=
  foldl (λ cfg '(i, c), tick i c cfg) cfg schedule.

Definition start {A} (calls : list (prog A)) : config A :=
  mkConfig New calls [] None.

End interleaving.

(** ** What each method does to the heap *)

Import internal memorystorage run interleaving.

Lemma uint64_modulus_eq : uint64_modulus = 18446744073709551616.
Proof. reflexivity. Qed.

(** The watcher cells after firing the watchers [ws] with [args]. *)
Definition fired (ws : list nat) (args : EventArgs) (wc : list watcher) : list watcher :=
  foldl (λ wc w, <[w := mkWatcher true args]> wc) wc ws.

Definition unfired (wc : list watcher) (w : nat) : Prop :=
  ∃ c, wc !! w = Some c ∧ event_closed c = false.

Ltac unfold_bind := unfold mbind, M_bind, mret, M_ret, ret, panic.

Section MethodFacts.
Context {E : Type}.
Implicit Types (σ : state E) (V : Value) (p w : nat).

Lemma fired_length ws args wc : length (fired ws args wc) = length wc.
Proof.
  revert wc. induction ws as [|w ws IH]; intros wc; simpl; [done|].
  rewrite IH. apply length_insert.
Qed.

Lemma fired_lookup_notin ws args wc w :
  w ∉ ws → fired ws args wc !! w = wc !! w.
Proof.
  revert wc. induction ws as [|w' ws IH]; intros wc Hw; simpl; [done|].
  apply not_elem_of_cons in Hw as [Hne Hw].
  rewrite IH by done. by apply list_lookup_insert_ne.
Qed.

Lemma fired_lookup_in ws args wc w :
  w ∈ ws → (w < length wc)%nat → fired ws args wc !! w = Some (mkWatcher true args).
Proof.
  revert wc. induction ws as [|w' ws IH]; intros wc Hw Hlt; simpl.
  - by apply elem_of_nil in Hw.
  - destruct (decide (w ∈ ws)) as [Hin|Hnin].
    + apply IH; [done|]. by rewrite length_insert.
    + rewrite fired_lookup_notin by done.
      apply elem_of_cons in Hw as [->|?]; [|done].
      by apply list_lookup_insert_eq.
Qed.

Lemma FireEvents_exec ws args σ :
  NoDup ws → (∀ w, w ∈ ws → unfired (wcells σ) w) →
  FireEvents ws args σ = Ok (tt, mkState (cells σ) (fired ws args (wcells σ)) (env σ)).
Proof.
  revert σ. induction ws as [|w ws IH]; intros σ Hnd Hall; simpl.
  - by destruct σ.
  - apply NoDup_cons in Hnd as [Hnin Hnd].
    unfold_bind. unfold FireEvent at 1.
    destruct (Hall w) as (c & Hc & Hclosed); [by left|].
    rewrite Hc, Hclosed. rewrite IH; [done|done|].
    intros w' Hw'. simpl.
    destruct (Hall w') as (c' & Hc' & Hclosed'); [by right|].
    exists c'. split; [|done].
    rewrite list_lookup_insert_ne; [done|]. intros ->. done.
Qed.

Lemma Get_exec σ p V :
  cells σ !! p = Some V →
  Get p σ = Ok (if Value_isRemoved V then ("", 0, ErrValueRemoved)
                else (Value_v V, Value_version V, nil), σ).
Proof.
  intros Hp. unfold Get. unfold_bind. unfold deref. rewrite Hp.
  by destruct (Value_isRemoved V).
Qed.

Lemma AddWatcher_exec σ p V :
  cells σ !! p = Some V → Value_isRemoved V = false →
  AddWatcher p σ =
    Ok ((Some (length (wcells σ)), nil),
        mkState
          (<[p := with_watchers V
                    (Some ({[length (wcells σ)]} ∪ default ∅ (Value_watchers V)))]> (cells σ))
          (wcells σ ++ [mkWatcher false (mkEventArgs "" 0)]) (env σ)).
Proof.
  intros Hp Hr. unfold AddWatcher. unfold_bind. unfold deref. rewrite Hp, Hr.
  simpl. by destruct (Value_watchers V).
Qed.

Lemma set_exec σ p V vv version :
  cells σ !! p = Some V → version ≠ 0 →
  set p vv version σ =
    Ok (tt, mkState (<[p := with_v_version V vv version]> (cells σ)) (wcells σ) (env σ)).
Proof.
  intros Hp Hv. unfold set. apply Z.eqb_neq in Hv. rewrite Hv.
  unfold_bind. unfold deref. by rewrite Hp.
Qed.

Lemma NewValue_exec σ vv version :
  version ≠ 0 →
  NewValue vv version σ =
    Ok (length (cells σ),
        mkState (cells σ ++ [mkValue vv version None false]) (wcells σ) (env σ)).
Proof.
  intros Hv. unfold NewValue. unfold_bind. unfold alloc.
  erewrite set_exec; [|simpl; apply list_lookup_middle; reflexivity|done].
  simpl. do 3 f_equal.
  rewrite insert_app_r_alt by lia.
  by rewrite Nat.sub_diag.
Qed.

Lemma NewValue_zero σ vv :
  NewValue vv 0 σ = Panic "set value to zero version".
Proof. reflexivity. Qed.

End MethodFacts.

Section StorageFacts.
Implicit Types (σ : St) (V : Value) (p w : nat) (key : string).

Definition upd_cell (p : nat) (V : Value) (σ : St) : St :=
  mkState (<[p := V]> (cells σ)) (wcells σ) (env σ).
Definition upd_wcells (wc : list watcher) (σ : St) : St :=
  mkState (cells σ) wc (env σ).
Definition upd_values (vals : gmap string nat) (σ : St) : St :=
  with_env σ (mkMemoryStorage vals (version (env σ)) (isClosed1 (env σ)) (closure (env σ))).
Definition upd_version (n : Version) (σ : St) : St :=
  with_env σ (mkMemoryStorage (values (env σ)) n (isClosed1 (env σ)) (closure (env σ))).
Definition add_cell (V : Value) (σ : St) : St :=
  mkState (cells σ ++ [V]) (wcells σ) (env σ).

(** The watchers attached to a cell, as a set (the nil map has none). *)
Definition watchers_of (V : Value) : gset nat := default ∅ (Value_watchers V).

Lemma RemoveWatcher_removed σ p V wrapped (remover : Act unit) :
  cells σ !! p = Some V → Value_isRemoved V = true →
  RemoveWatcher p wrapped remover σ = Ok (ErrValueRemoved, σ).
Proof.
  intros Hp Hr. unfold RemoveWatcher. unfold_bind. unfold deref. by rewrite Hp, Hr.
Qed.

Lemma RemoveWatcher_absent σ p V w (remover : Act unit) :
  cells σ !! p = Some V → Value_isRemoved V = false → w ∉ watchers_of V →
  RemoveWatcher p (Some w) remover σ = Ok (nil, σ).
Proof.
  intros Hp Hr Hw. unfold RemoveWatcher. unfold_bind. unfold deref. rewrite Hp, Hr.
  unfold watchers_of in Hw. destruct (Value_watchers V) as [ws|]; simpl in *; [|done].
  by rewrite bool_decide_eq_false_2.
Qed.

Lemma RemoveWatcher_some σ p V ws w (remover : Act unit) :
  cells σ !! p = Some V → Value_isRemoved V = false →
  Value_watchers V = Some ws → w ∈ ws → ws ∖ {[w]} ≠ ∅ →
  RemoveWatcher p (Some w) remover σ =
    Ok (nil, upd_cell p (with_watchers V (Some (ws ∖ {[w]}))) σ).
Proof.
  intros Hp Hr Hws Hw Hne. unfold RemoveWatcher. unfold_bind. unfold deref.
  rewrite Hp, Hr, Hws. rewrite bool_decide_eq_true_2 by done.
  rewrite bool_decide_eq_true_2; [done|].
  assert (size (ws ∖ {[w]}) ≠ 0%nat); [|lia].
  intros Hz. apply size_empty_iff in Hz. apply Hne. by apply leibniz_equiv.
Qed.

Lemma RemoveWatcher_last_present σ p V ws w (remover : Act unit) :
  cells σ !! p = Some V → Value_isRemoved V = false →
  Value_watchers V = Some ws → w ∈ ws → ws ∖ {[w]} = ∅ → Value_version V ≠ 0 →
  RemoveWatcher p (Some w) remover σ = Ok (nil, upd_cell p (with_watchers V None) σ).
Proof.
  intros Hp Hr Hws Hw He Hv. unfold RemoveWatcher. unfold_bind. unfold deref.
  rewrite Hp, Hr, Hws. rewrite bool_decide_eq_true_2 by done.
  rewrite He, size_empty. rewrite bool_decide_eq_false_2 by lia.
  apply Z.eqb_neq in Hv. simpl. by rewrite Hv.
Qed.

Lemma RemoveWatcher_last_absent σ p V ws w key :
  cells σ !! p = Some V → Value_isRemoved V = false →
  Value_watchers V = Some ws → w ∈ ws → ws ∖ {[w]} = ∅ → Value_version V = 0 →
  RemoveWatcher p (Some w) (values_Delete key) σ =
    Ok (nil, upd_values (delete key (values (env σ)))
               (upd_cell p (mkValue (Value_v V) 0 None true) σ)).
Proof.
  intros Hp Hr Hws Hw He Hv. unfold RemoveWatcher. unfold_bind. unfold deref.
  rewrite Hp, Hr, Hws. rewrite bool_decide_eq_true_2 by done.
  rewrite He, size_empty. rewrite bool_decide_eq_false_2 by lia.
  simpl. rewrite Hv. simpl. unfold remove. unfold_bind. simpl. unfold deref. simpl.
  rewrite list_lookup_insert_eq by (by eapply lookup_lt_Some).
  simpl. unfold upd_values, upd_cell, with_env, with_isRemoved, with_watchers. simpl.
  by rewrite list_insert_insert_eq, Hv.
Qed.

Lemma CheckAndSet_removed {L} σ p V (cb : Version → L → Act (string * Version * bool * L)) c :
  cells σ !! p = Some V → Value_isRemoved V = true →
  CheckAndSet p cb c σ = Ok ((false, ErrValueRemoved, c), σ).
Proof.
  intros Hp Hr. unfold CheckAndSet. unfold_bind. unfold deref. by rewrite Hp, Hr.
Qed.

Lemma CheckAndSet_refused {L} σ σ1 p V
    (cb : Version → L → Act (string * Version * bool * L)) c vv ver c' :
  cells σ !! p = Some V → Value_isRemoved V = false →
  cb (Value_version V) c σ = Ok ((vv, ver, false, c'), σ1) →
  CheckAndSet p cb c σ = Ok ((false, nil, c'), σ1).
Proof.
  intros Hp Hr Hcb. unfold CheckAndSet. unfold_bind. unfold deref.
  by rewrite Hp, Hr, Hcb.
Qed.

Lemma CheckAndSet_zero {L} σ σ1 p V
    (cb : Version → L → Act (string * Version * bool * L)) c vv c' :
  cells σ !! p = Some V → Value_isRemoved V = false →
  cb (Value_version V) c σ = Ok ((vv, 0, true, c'), σ1) →
  CheckAndSet p cb c σ = Panic "set value to zero version".
Proof.
  intros Hp Hr Hcb. unfold CheckAndSet. unfold_bind. unfold deref.
  by rewrite Hp, Hr, Hcb.
Qed.

Lemma CheckAndSet_applied {L} σ σ1 p V
    (cb : Version → L → Act (string * Version * bool * L)) c vv ver c' :
  cells σ !! p = Some V → Value_isRemoved V = false →
  cb (Value_version V) c σ = Ok ((vv, ver, true, c'), σ1) →
  cells σ1 = cells σ → wcells σ1 = wcells σ → ver ≠ 0 →
  (∀ w, w ∈ watchers_of V → unfired (wcells σ) w) →
  CheckAndSet p cb c σ =
    Ok ((true, nil, c'),
        mkState (<[p := mkValue vv ver None false]> (cells σ))
          (fired (elements (watchers_of V)) (mkEventArgs vv ver) (wcells σ))
          (env σ1)).
Proof.
  intros Hp Hr Hcb Hc Hw Hver Hun. unfold CheckAndSet. unfold_bind. unfold deref at 1.
  rewrite Hp, Hr, Hcb. simpl.
  assert (Hp1 : cells σ1 !! p = Some V) by (by rewrite Hc).
  rewrite (set_exec _ _ _ _ _ Hp1 Hver). unfold deref, assign. simpl.
  rewrite list_lookup_insert_eq by (rewrite Hc; by eapply lookup_lt_Some).
  simpl. rewrite list_insert_insert_eq.
  rewrite FireEvents_exec; simpl.
  - unfold watchers_of, with_watchers, with_v_version. simpl.
    rewrite Hc, Hw, Hr. by destruct (Value_watchers V).
  - destruct (Value_watchers V); [apply NoDup_elements|apply NoDup_nil_2].
  - intros w Hin. rewrite Hw. apply Hun. unfold watchers_of.
    destruct (Value_watchers V); simpl in *; [by apply elem_of_elements|].
    by apply elem_of_nil in Hin.
Qed.

Lemma Clear_removed σ p V version (remover : Act unit) :
  cells σ !! p = Some V → Value_isRemoved V = true →
  Clear p version remover σ = Ok ((false, ErrValueRemoved), σ).
Proof.
  intros Hp Hr. unfold Clear. unfold_bind. unfold deref. by rewrite Hp, Hr.
Qed.

Lemma Clear_refused σ p V version (remover : Act unit) :
  cells σ !! p = Some V → Value_isRemoved V = false →
  Value_version V = 0 ∨ (version ≠ 0 ∧ Value_version V ≠ version) →
  Clear p version remover σ = Ok ((false, nil), σ).
Proof.
  intros Hp Hr Hv. unfold Clear. unfold_bind. unfold deref. rewrite Hp, Hr.
  destruct Hv as [Hv|[Hv1 Hv2]].
  - by rewrite Hv.
  - apply Z.eqb_neq in Hv1, Hv2. rewrite Hv1, Hv2. simpl.
    by destruct (Value_version V =? 0).
Qed.

Lemma Clear_kept σ p V ws version (remover : Act unit) :
  cells σ !! p = Some V → Value_isRemoved V = false →
  Value_version V ≠ 0 → version = 0 ∨ Value_version V = version →
  Value_watchers V = Some ws →
  Clear p version remover σ = Ok ((true, nil), upd_cell p (with_v_version V "" 0) σ).
Proof.
  intros Hp Hr Hv Hm Hws. unfold Clear. unfold_bind. unfold deref. rewrite Hp, Hr.
  apply Z.eqb_neq in Hv. rewrite Hv.
  replace (negb (version =? 0) && negb (Value_version V =? version)) with false.
  2:{ destruct Hm as [->| ->]; [done|]. rewrite Z.eqb_refl. by rewrite andb_false_r. }
  simpl. by rewrite Hws.
Qed.

Lemma Clear_dropped σ p V version key :
  cells σ !! p = Some V → Value_isRemoved V = false →
  Value_version V ≠ 0 → version = 0 ∨ Value_version V = version →
  Value_watchers V = None →
  Clear p version (values_Delete key) σ =
    Ok ((true, nil), upd_values (delete key (values (env σ)))
                       (upd_cell p (mkValue "" 0 None true) σ)).
Proof.
  intros Hp Hr Hv Hm Hws. unfold Clear. unfold_bind. unfold deref at 1. rewrite Hp, Hr.
  apply Z.eqb_neq in Hv. rewrite Hv.
  replace (negb (version =? 0) && negb (Value_version V =? version)) with false.
  2:{ destruct Hm as [->| ->]; [done|]. rewrite Z.eqb_refl. by rewrite andb_false_r. }
  simpl. rewrite Hws. unfold remove. unfold_bind. simpl. unfold deref. simpl.
  rewrite list_lookup_insert_eq by (by eapply lookup_lt_Some).
  simpl. unfold upd_values, upd_cell, with_env, with_isRemoved, with_v_version. simpl.
  by rewrite list_insert_insert_eq, Hws.
Qed.

End StorageFacts.

(** ** The invariant of the storage *)

Section Invariant.
Implicit Types (σ : St) (V : Value) (p w : nat) (key : string).

Definition attached σ p w : Prop :=
  ∃ V, cells σ !! p = Some V ∧ w ∈ watchers_of V.

(** What holds of the heap between any two atomic steps of calls that
    do not overlap. *)
Record wf σ : Prop := mkWf {
  wf_counter : 0 ≤ version (env σ) < uint64_modulus;
  wf_values : ∀ key p, values (env σ) !! key = Some p →
              ∃ V, cells σ !! p = Some V ∧ Value_isRemoved V = false;
  wf_inj : ∀ k1 k2 p, values (env σ) !! k1 = Some p →
                      values (env σ) !! k2 = Some p → k1 = k2;
  wf_nonempty : ∀ p V, cells σ !! p = Some V → Value_watchers V ≠ Some ∅;
  wf_unfired : ∀ p w, attached σ p w → unfired (wcells σ) w;
  wf_disjoint : ∀ p1 p2 w, attached σ p1 w → attached σ p2 w → p1 = p2;
  wf_closure : isClosed1 (env σ) = 0 → closure (env σ) = false
}.

(** No key maps to a cell without a value and without watchers. *)
Definition collected σ : Prop :=
  ∀ key p V, values (env σ) !! key = Some p → cells σ !! p = Some V →
             Value_version V ≠ 0 ∨ Value_watchers V ≠ None.

(** [p] is the cell a call found under [key]: as long as it is not
    removed, it is still the one under [key]. *)
Definition link σ key p : Prop :=
  ∃ V, cells σ !! p = Some V ∧
       (Value_isRemoved V = false → values (env σ) !! key = Some p).

Record extends σ σ' : Prop := mkExtends {
  ext_cells : ∀ p V, cells σ !! p = Some V →
              ∃ V', cells σ' !! p = Some V' ∧
                    (Value_isRemoved V' = false → Value_isRemoved V = false);
  ext_links : ∀ key p V V', values (env σ) !! key = Some p →
              cells σ !! p = Some V → cells σ' !! p = Some V' →
              Value_isRemoved V' = false → values (env σ') !! key = Some p;
  ext_wcells : (length (wcells σ) ≤ length (wcells σ'))%nat;
  ext_version : version (env σ) ≤ version (env σ')
}.

Lemma extends_refl σ : extends σ σ.
Proof. split; [by eauto|by intros|reflexivity|reflexivity]. Qed.

Lemma extends_trans σ1 σ2 σ3 : extends σ1 σ2 → extends σ2 σ3 → extends σ1 σ3.
Proof.
  intros [c1 l1 w1 v1] [c2 l2 w2 v2]. split; [| |lia|lia].
  - intros p V HV. destruct (c1 _ _ HV) as (V' & HV' & Hr').
    destruct (c2 _ _ HV') as (V'' & HV'' & Hr''). eauto.
  - intros key p V V'' Hk HV HV'' Hr''.
    destruct (c1 _ _ HV) as (V' & HV' & Hr').
    destruct (c2 _ _ HV') as (V2 & HV2 & Hr2).
    assert (V2 = V'') as -> by congruence.
    eauto.
Qed.

Lemma link_extends σ σ' key p : link σ key p → extends σ σ' → link σ' key p.
Proof.
  intros (V & HV & Hl) [c l _ _].
  destruct (c _ _ HV) as (V' & HV' & Hr'). exists V'. split; [done|].
  intros Hr. eapply l; eauto.
Qed.

Lemma link_found σ key p : wf σ → values (env σ) !! key = Some p → link σ key p.
Proof.
  intros Hwf Hk. destruct (wf_values _ Hwf _ _ Hk) as (V & HV & _).
  exists V. eauto.
Qed.

Lemma wf_New : wf New.
Proof.
  split; simpl; try done.
  - intros ?? (V & HV & _). done.
  - intros ??? (V & HV & _). done.
Qed.

Lemma collected_New : collected New.
Proof. intros key p V H. done. Qed.

Lemma attached_lt σ p w : wf σ → attached σ p w → (w < length (wcells σ))%nat.
Proof.
  intros Hwf Ha. destruct (wf_unfired _ Hwf _ _ Ha) as (c & Hc & _).
  by eapply lookup_lt_Some.
Qed.

End Invariant.

Section Updates.
Implicit Types (σ : St) (V : Value) (p w : nat) (key : string).

Definition collected_but p σ : Prop :=
  ∀ key p' V, p' ≠ p → values (env σ) !! key = Some p' → cells σ !! p' = Some V →
              Value_version V ≠ 0 ∨ Value_watchers V ≠ None.

Lemma collected_collected_but p σ : collected σ → collected_but p σ.
Proof. intros H key p' V _. apply H. Qed.

(** [σ'] is a state of the invariant that extends [σ] and has let no
    empty cell into the map. *)
Definition step_ok σ σ' : Prop :=
  wf σ' ∧ extends σ σ' ∧ (collected σ → collected σ').

Lemma step_ok_refl σ : wf σ → step_ok σ σ.
Proof. intros. split; [done|]. split; [apply extends_refl|done]. Qed.

Lemma step_ok_trans σ1 σ2 σ3 : step_ok σ1 σ2 → step_ok σ2 σ3 → step_ok σ1 σ3.
Proof.
  intros (_ & e1 & c1) (w2 & e2 & c2).
  split; [done|]. split; [by eapply extends_trans|auto].
Qed.

Lemma wf_upd_version σ n :
  wf σ → version (env σ) ≤ n < uint64_modulus → step_ok σ (upd_version n σ).
Proof.
  intros [Hc Hv Hi Hn Hu Hd Hcl] Hle. split; [|split].
  - split; simpl; [lia|done..].
  - split; simpl; [by eauto|done|lia|lia].
  - intros Hcol key p V. apply Hcol.
Qed.

Lemma attached_add_cell σ V p w :
  Value_watchers V = None → attached (add_cell V σ) p w → attached σ p w.
Proof.
  intros HV (V' & HV' & Hw). simpl in HV'.
  apply lookup_app_Some in HV' as [HV'|[Hlen HV']]; [by exists V'|].
  apply list_lookup_singleton_Some in HV' as [_ <-].
  unfold watchers_of in Hw. rewrite HV in Hw. set_solver.
Qed.

Lemma wf_add_cell σ V :
  wf σ → Value_watchers V = None → step_ok σ (add_cell V σ).
Proof.
  intros [Hc Hv Hi Hn Hu Hd Hcl] HV. split; [|split].
  - split; simpl.
    + done.
    + intros key p Hk. destruct (Hv _ _ Hk) as (V' & HV' & Hr).
      exists V'. split; [by apply lookup_app_l_Some|done].
    + done.
    + intros p V' HV'.
      apply lookup_app_Some in HV' as [HV'|[Hlen HV']]; [by eapply Hn|].
      apply list_lookup_singleton_Some in HV' as [_ <-]. by rewrite HV.
    + intros p w Ha. eapply Hu, attached_add_cell; eauto.
    + intros p1 p2 w H1 H2. eapply Hd; eapply attached_add_cell; eauto.
    + done.
  - split; simpl.
    + intros p V' HV'. exists V'. split; [by apply lookup_app_l_Some|done].
    + done.
    + lia.
    + lia.
  - intros Hcol key p V' Hk HV'. simpl in *.
    destruct (Hv _ _ Hk) as (V'' & HV'' & _).
    rewrite (lookup_app_l_Some _ _ _ _ HV'') in HV'.
    injection HV' as <-. by eapply Hcol.
Qed.

Lemma wf_insert_key σ key p V :
  wf σ → values (env σ) !! key = None → cells σ !! p = Some V →
  Value_isRemoved V = false → (∀ k, values (env σ) !! k ≠ Some p) →
  wf (upd_values (<[key := p]> (values (env σ))) σ) ∧
  extends σ (upd_values (<[key := p]> (values (env σ))) σ) ∧
  (collected σ → collected_but p (upd_values (<[key := p]> (values (env σ))) σ)).
Proof.
  intros [Hc Hv Hi Hn Hu Hd Hcl] Hk HV Hr Hfresh. split; [|split].
  - split; simpl.
    + done.
    + intros k q Hq. apply lookup_insert_Some in Hq as [[<- <-]|[Hne Hq]]; eauto.
    + intros k1 k2 q H1 H2.
      apply lookup_insert_Some in H1 as [[<- <-]|[Hne1 H1]];
        apply lookup_insert_Some in H2 as [[<- ?]|[Hne2 H2]]; subst;
        try done; try (by exfalso; eapply Hfresh; eauto). eauto.
    + done.
    + done.
    + done.
    + done.
  - split; simpl.
    + intros q V' HV'. eauto.
    + intros k q V1 V2 Hq _ _ _. rewrite lookup_insert_ne; [done|].
      intros ->. congruence.
    + lia.
    + lia.
  - intros Hcol k q V' Hne Hq HV'. simpl in *.
    apply lookup_insert_Some in Hq as [[_ <-]|[_ Hq]]; [done|]. by eapply Hcol.
Qed.

Lemma attached_upd_cell σ p V V' wc' e q w :
  cells σ !! p = Some V → watchers_of V' ⊆ watchers_of V →
  attached (mkState (<[p := V']> (cells σ)) wc' e) q w → attached σ q w.
Proof.
  intros HV Hsub (Vq & HVq & Hw). simpl in HVq.
  apply list_lookup_insert_Some in HVq as [(<- & <- & Hlt)|[Hne HVq]].
  - exists V. split; [done|]. by apply Hsub.
  - by exists Vq.
Qed.

Lemma wf_upd_cell σ p V V' wc' :
  wf σ → cells σ !! p = Some V →
  Value_isRemoved V' = Value_isRemoved V →
  watchers_of V' ⊆ watchers_of V →
  Value_watchers V' ≠ Some ∅ →
  (length (wcells σ) ≤ length wc')%nat →
  (∀ w, unfired (wcells σ) w → w ∈ watchers_of V' ∨ w ∉ watchers_of V → unfired wc' w) →
  Value_version V' ≠ 0 ∨ Value_watchers V' ≠ None →
  step_ok σ (mkState (<[p := V']> (cells σ)) wc' (env σ)).
Proof.
  intros [Hc Hv Hi Hn Hu Hd Hcl] HV Hr Hsub Hne Hlen Hfire Hok.
  assert (Hlt : (p < length (cells σ))%nat) by (by eapply lookup_lt_Some).
  split; [|split].
  - split; simpl.
    + done.
    + intros key q Hk. destruct (Hv _ _ Hk) as (Vq & HVq & Hrq).
      destruct (decide (p = q)) as [<-|Hpq].
      * exists V'. rewrite list_lookup_insert_eq by done. split; [done|]. congruence.
      * exists Vq. by rewrite list_lookup_insert_ne.
    + done.
    + intros q Vq HVq.
      apply list_lookup_insert_Some in HVq as [(<- & <- & _)|[_ HVq]]; eauto.
    + intros q w Ha.
      assert (Ha' : attached σ q w) by (by eapply attached_upd_cell).
      apply Hfire; [by eapply Hu|].
      destruct Ha as (Vq & HVq & Hw). simpl in HVq.
      apply list_lookup_insert_Some in HVq as [(<- & <- & _)|[Hpq HVq]]; [by left|].
      right. intros Hin. apply Hpq. eapply Hd; [|exact Ha']. by exists V.
    + intros p1 p2 w H1 H2. eapply Hd; eapply attached_upd_cell; eauto.
    + done.
  - split; simpl.
    + intros q Vq HVq. destruct (decide (p = q)) as [<-|Hpq].
      * exists V'. rewrite list_lookup_insert_eq by done. split; [done|]. congruence.
      * exists Vq. by rewrite list_lookup_insert_ne.
    + done.
    + done.
    + lia.
  - intros Hcol key q Vq Hk HVq. simpl in *.
    apply list_lookup_insert_Some in HVq as [(<- & <- & _)|[_ HVq]]; [done|].
    by eapply Hcol.
Qed.

Definition attach (p : nat) (V : Value) (σ : St) : St :=
  mkState
    (<[p := with_watchers V (Some ({[length (wcells σ)]} ∪ watchers_of V))]> (cells σ))
    (wcells σ ++ [mkWatcher false (mkEventArgs "" 0)]) (env σ).

Lemma attached_attach σ p V q w :
  cells σ !! p = Some V → attached (attach p V σ) q w →
  attached σ q w ∨ (q = p ∧ w = length (wcells σ)).
Proof.
  intros HV (Vq & HVq & Hw). simpl in HVq.
  apply list_lookup_insert_Some in HVq as [(<- & <- & Hlt)|[Hne HVq]].
  - unfold watchers_of in Hw at 1. simpl in Hw.
    apply elem_of_union in Hw as [Hw|Hw].
    + apply elem_of_singleton in Hw. by right.
    + left. by exists V.
  - left. by exists Vq.
Qed.

Lemma wf_attach σ p V :
  wf σ → cells σ !! p = Some V →
  wf (attach p V σ) ∧ extends σ (attach p V σ) ∧
  (collected_but p σ → collected (attach p V σ)).
Proof.
  intros Hwf HV. pose proof Hwf as [Hc Hv Hi Hn Hu Hd Hcl].
  assert (Hlt : (p < length (cells σ))%nat) by (by eapply lookup_lt_Some).
  assert (Hnew : ∀ q, ¬ attached σ q (length (wcells σ))).
  { intros q Ha. apply attached_lt in Ha; [lia|done]. }
  split; [|split].
  - split; simpl.
    + done.
    + intros key q Hk. destruct (Hv _ _ Hk) as (Vq & HVq & Hrq).
      destruct (decide (p = q)) as [<-|Hpq].
      * eexists. rewrite list_lookup_insert_eq by done. split; [done|].
        simpl. congruence.
      * exists Vq. by rewrite list_lookup_insert_ne.
    + done.
    + intros q Vq HVq.
      apply list_lookup_insert_Some in HVq as [(<- & <- & _)|[_ HVq]]; [|by eauto].
      simpl. intros [= He]. set_solver.
    + intros q w Ha. apply (attached_attach _ _ _ _ _ HV) in Ha as [Ha|[-> ->]].
      * destruct (Hu _ _ Ha) as (c & Hc' & Hcl'). exists c.
        split; [by apply lookup_app_l_Some|done].
      * eexists. split; [apply list_lookup_middle; reflexivity|done].
    + intros p1 p2 w H1 H2.
      apply (attached_attach _ _ _ _ _ HV) in H1 as [H1|[-> ->]];
        apply (attached_attach _ _ _ _ _ HV) in H2 as [H2|[-> ?]]; try done; subst.
      * by eapply Hd.
      * by destruct (Hnew p1).
      * by destruct (Hnew p2).
    + done.
  - split; simpl.
    + intros q Vq HVq. destruct (decide (p = q)) as [<-|Hpq].
      * eexists. rewrite list_lookup_insert_eq by done. split; [done|].
        simpl. congruence.
      * exists Vq. by rewrite list_lookup_insert_ne.
    + done.
    + rewrite length_app. lia.
    + lia.
  - intros Hcol key q Vq Hk HVq. simpl in *.
    apply list_lookup_insert_Some in HVq as [(<- & <- & _)|[Hne HVq]].
    + right. done.
    + eapply Hcol; eauto.
Qed.

Definition tombstone (key : string) (p : nat) (vv : string) (σ : St) : St :=
  upd_values (delete key (values (env σ))) (upd_cell p (mkValue vv 0 None true) σ).

Lemma wf_tombstone σ key p V vv :
  wf σ → cells σ !! p = Some V → values (env σ) !! key = Some p →
  step_ok σ (tombstone key p vv σ).
Proof.
  intros Hwf HV Hk. pose proof Hwf as [Hc Hv Hi Hn Hu Hd Hcl].
  assert (Hlt : (p < length (cells σ))%nat) by (by eapply lookup_lt_Some).
  assert (Hatt : ∀ q w, attached (tombstone key p vv σ) q w → attached σ q w).
  { intros q w (Vq & HVq & Hw). simpl in HVq.
    apply list_lookup_insert_Some in HVq as [(<- & <- & _)|[_ HVq]].
    - unfold watchers_of in Hw. simpl in Hw. set_solver.
    - by exists Vq. }
  split; [|split].
  - split; simpl.
    + done.
    + intros k q Hq. apply lookup_delete_Some in Hq as [Hne Hq].
      destruct (Hv _ _ Hq) as (Vq & HVq & Hrq). exists Vq. split; [|done].
      rewrite list_lookup_insert_ne; [done|]. intros <-. apply Hne. by eapply Hi.
    + intros k1 k2 q H1 H2. apply lookup_delete_Some in H1 as [_ H1].
      apply lookup_delete_Some in H2 as [_ H2]. by eapply Hi.
    + intros q Vq HVq.
      apply list_lookup_insert_Some in HVq as [(<- & <- & _)|[_ HVq]]; [done|by eauto].
    + intros q w Ha. by eapply Hu, Hatt.
    + intros p1 p2 w H1 H2. eapply Hd; eapply Hatt; eauto.
    + done.
  - split; simpl.
    + intros q Vq HVq. destruct (decide (p = q)) as [<-|Hpq].
      * eexists. rewrite list_lookup_insert_eq by done. split; [done|]. done.
      * exists Vq. by rewrite list_lookup_insert_ne.
    + intros k q V1 V2 Hq HV1 HV2 Hr2.
      apply list_lookup_insert_Some in HV2 as [(<- & <- & _)|[Hne HV2]]; [done|].
      rewrite lookup_delete_ne; [done|]. intros <-. congruence.
    + lia.
    + lia.
  - intros Hcol k q Vq Hq HVq. simpl in *.
    apply lookup_delete_Some in Hq as [Hne Hq].
    apply list_lookup_insert_Some in HVq as [(<- & <- & _)|[_ HVq]].
    + exfalso. apply Hne. by eapply Hi.
    + by eapply Hcol.
Qed.

Lemma wf_closing σ c1 cl :
  wf σ → c1 ≠ 0 →
  step_ok σ (with_env σ (mkMemoryStorage (values (env σ)) (version (env σ)) c1 cl)).
Proof.
  intros [Hc Hv Hi Hn Hu Hd Hcl] Hne. split; [|split].
  - split; simpl; try done.
  - split; simpl; [by eauto|done|lia|lia].
  - intros Hcol key p V. apply Hcol.
Qed.

End Updates.

Section CallFacts.
Implicit Types (σ : St) (V : Value) (p w : nat) (key : string).

Local Opaque Get AddWatcher RemoveWatcher CheckAndSet Clear NewValue.

Lemma run_Atomic {X A} (m : Act X) (k : X → prog A) σ :
  run (Atomic m k) σ =
    match m σ with
    | Ok (x, σ') => run (k x) σ'
    | Panic msg => Panicked msg
    end.
Proof. reflexivity. Qed.

Lemma tryGetValue_run σ key :
  wf σ →
  run (tryGetValue key) σ =
    Done (if negb (isClosed1 (env σ) =? 0) then ("", 0, ErrStorageClosed, true)
          else match values (env σ) !! key with
               | None => ("", 0, nil, true)
               | Some p =>
                   match cells σ !! p with
                   | Some V => (Value_v V, Value_version V, nil, true)
                   | None => ("", 0, nil, true)
                   end
               end) σ.
Proof.
  intros Hwf. unfold tryGetValue. simpl.
  destruct (negb (isClosed1 (env σ) =? 0)); [done|]. simpl.
  destruct (values (env σ) !! key) as [p|] eqn:Hk; [|done].
  destruct (wf_values _ Hwf _ _ Hk) as (V & HV & Hr). simpl.
  rewrite (Get_exec _ _ _ HV), Hr, HV. done.
Qed.
Lemma run_bind {A B} (p : prog A) (f : A → prog B) σ :
  run (x ← p; f x) σ =
    match run p σ with
    | Done a σ' => run (f a) σ'
    | Panicked msg => Panicked msg
    | Blocked watcher ctx k σ' => Blocked watcher ctx (λ c, x ← k c; f x) σ'
    end.
Proof.
  revert σ. induction p as [a|X m k IH|watcher ctx k IH]; intros σ; simpl.
  - done.
  - destruct (m σ) as [[x σ']|msg]; [apply IH|done].
  - done.
Qed.

Lemma uint64_add_1 c :
  0 ≤ c < uint64_modulus →
  (uint64_add c 1 = 0 ∧ c = uint64_modulus - 1) ∨
  (uint64_add c 1 = c + 1 ∧ c + 1 < uint64_modulus).
Proof.
  intros Hc. unfold uint64_add. rewrite uint64_modulus_eq in *.
  destruct (decide (c = 18446744073709551615)) as [->|Hne]; [by left|].
  right. split; [|lia]. apply Z.mod_small. lia.
Qed.

(** What one attempt of a call does in a state of the invariant: it
    is never sent back to retry, it does not wait, it keeps the
    invariant; a version it hands out is newer than the counter was
    before; it panics only when the counter is about to wrap. *)
Definition attempt_ok {A} (σ : St) (ver : A → Version) (o : outcome (A * bool)) : Prop :=
  match o with
  | Done (a, done) σ' =>
      done = true ∧ step_ok σ σ' ∧
      (ver a = 0 ∨ version (env σ) < ver a ≤ version (env σ'))
  | Panicked msg =>
      msg = "set value to zero version" ∧ uint64_modulus - 2 ≤ version (env σ)
  | Blocked _ _ _ _ => False
  end.

Lemma collected_from_but σ p V :
  collected_but p σ → cells σ !! p = Some V →
  Value_version V ≠ 0 ∨ Value_watchers V ≠ None → collected σ.
Proof.
  intros Hb HV Hok key q Vq Hk HVq. destruct (decide (q = p)) as [->|Hne].
  - congruence.
  - by eapply Hb.
Qed.

Definition written (p : nat) (V : Value) (vv : string) (ver : Version) (σ : St) : St :=
  mkState (<[p := mkValue vv ver None false]> (cells σ))
    (fired (elements (watchers_of V)) (mkEventArgs vv ver) (wcells σ)) (env σ).

Lemma wf_written σ p V vv ver :
  wf σ → cells σ !! p = Some V → Value_isRemoved V = false → ver ≠ 0 →
  step_ok σ (written p V vv ver σ).
Proof.
  intros Hwf HV Hr Hver. apply (wf_upd_cell σ p V); try done.
  - by rewrite fired_length.
  - intros w (c & Hc & Hcl) [Hin|Hnin].
    + unfold watchers_of in Hin at 1. simpl in Hin. set_solver.
    + exists c. split; [|done]. rewrite fired_lookup_notin; [done|].
      by rewrite elem_of_elements.
  - by left.
Qed.

Lemma attached_unfired σ p V :
  wf σ → cells σ !! p = Some V → ∀ w, w ∈ watchers_of V → unfired (wcells σ) w.
Proof. intros Hwf HV w Hw. eapply wf_unfired; [done|]. by exists V. Qed.

(** [version := ms.nextVersion(); value := internal.NewValue(val, version)] *)
Definition prepared (val : string) (σ : St) : St :=
  add_cell (mkValue val (version (env σ) + 1) None false)
    (upd_version (version (env σ) + 1) σ).

Lemma wf_prepared σ val :
  wf σ → version (env σ) + 1 < uint64_modulus → step_ok σ (prepared val σ).
Proof.
  intros Hwf Hlt. eapply step_ok_trans.
  - apply (wf_upd_version σ (version (env σ) + 1)); [done|].
    pose proof (wf_counter _ Hwf). lia.
  - apply wf_add_cell; [|done]. apply wf_upd_version; [done|].
    pose proof (wf_counter _ Hwf). lia.
Qed.

Lemma prepared_lookup σ val p V :
  cells σ !! p = Some V → cells (prepared val σ) !! p = Some V.
Proof. intros HV. simpl. by apply lookup_app_l_Some. Qed.

Lemma wf_installed σ key val :
  wf σ → version (env σ) + 1 < uint64_modulus → values (env σ) !! key = None →
  step_ok σ (upd_values (<[key := length (cells σ)]> (values (env σ))) (prepared val σ)).
Proof.
  intros Hwf Hlt Hk. pose proof (wf_prepared σ val Hwf Hlt) as (Hwf2 & He2 & Hc2).
  destruct (wf_insert_key (prepared val σ) key (length (cells σ))
              (mkValue val (version (env σ) + 1) None false)) as (Hwf3 & He3 & Hc3);
    try done.
  - simpl. apply list_lookup_middle. done.
  - intros k Hkp. simpl in Hkp. destruct (wf_values _ Hwf _ _ Hkp) as (V & HV & _).
    apply lookup_lt_Some in HV. lia.
  - split; [done|]. split; [by eapply extends_trans|].
    intros Hcol. eapply collected_from_but.
    + apply Hc3, Hc2, Hcol.
    + simpl. apply list_lookup_middle. done.
    + left. simpl. pose proof (wf_counter _ Hwf). lia.
Qed.

Lemma tryCreateValue_ok σ key val :
  wf σ → attempt_ok σ (λ '(version, _), version) (run (tryCreateValue key val) σ).
Proof.
  intros Hwf. unfold tryCreateValue. simpl.
  destruct (negb (isClosed1 (env σ) =? 0)); simpl.
  { split; [done|]. split; [by apply step_ok_refl|by left]. }
  pose proof (wf_counter _ Hwf) as Hc.
  destruct (uint64_add_1 _ Hc) as [[Hz Hmax]|[Hs Hlt]].
  { rewrite Hz. simpl. split; [done|lia]. }
  rewrite Hs. rewrite NewValue_exec by lia.
  change (mkState _ _ _) with (prepared val σ).
  pose proof (wf_prepared σ val Hwf Hlt) as Hp.
  unfold values_LoadOrStore. simpl.
  destruct (values (env σ) !! key) as [p|] eqn:Hk; simpl.
  - destruct (wf_values _ Hwf _ _ Hk) as (V & HV & Hr).
    pose proof (prepared_lookup σ val _ _ HV) as HV2.
    destruct (decide (Value_version V = 0)) as [Hv0|Hv0].
    + rewrite (CheckAndSet_applied (prepared val σ) (prepared val σ) p V _ tt
                 val (version (env σ) + 1) tt);
        [|done|done| |done|done|lia|apply (attached_unfired _ p V); [apply Hp|done]].
      * simpl. split; [done|]. split; [|right; simpl; lia].
        eapply step_ok_trans; [exact Hp|].
        apply (wf_written (prepared val σ)); try done; [apply Hp|lia].
      * unfold tryCreateValue_callback. by rewrite Hv0.
    + rewrite (CheckAndSet_refused (prepared val σ) (prepared val σ) p V _ tt "" 0 tt);
        [|done|done|].
      * simpl. split; [done|]. split; [done|by left].
      * unfold tryCreateValue_callback. apply Z.eqb_neq in Hv0. by rewrite Hv0.
  - split; [done|]. split; [|right; simpl; lia].
    by apply wf_installed.
Qed.
Lemma tryUpdateValue_ok σ key val oldVersion :
  wf σ →
  attempt_ok σ (λ '(version, _), version) (run (tryUpdateValue key val oldVersion) σ).
Proof.
  intros Hwf. unfold tryUpdateValue. simpl.
  destruct (negb (isClosed1 (env σ) =? 0)); simpl.
  { split; [done|]. split; [by apply step_ok_refl|by left]. }
  destruct (values (env σ) !! key) as [p|] eqn:Hk; simpl.
  2:{ split; [done|]. split; [by apply step_ok_refl|by left]. }
  destruct (wf_values _ Hwf _ _ Hk) as (V & HV & Hr).
  pose proof (wf_counter _ Hwf) as Hc.
  destruct ((Value_version V =? 0)
            || negb (oldVersion =? 0) && negb (Value_version V =? oldVersion))
    eqn:Hrefuse.
  - rewrite (CheckAndSet_refused σ σ p V _ 0 "" 0 0); [|done|done|].
    + simpl. split; [done|]. split; [by apply step_ok_refl|by left].
    + unfold tryUpdateValue_callback.
      destruct (Value_version V =? 0); [done|]. simpl in Hrefuse. by rewrite Hrefuse.
  - apply orb_false_iff in Hrefuse as [Hv0 Hmis].
    destruct (uint64_add_1 _ Hc) as [[Hz Hmax]|[Hs Hlt]].
    + rewrite (CheckAndSet_zero σ (upd_version 0 σ) p V _ 0 val 0); [|done|done|].
      * simpl. split; [done|lia].
      * unfold tryUpdateValue_callback. rewrite Hv0, Hmis.
        unfold_bind. unfold nextVersion. by rewrite Hz.
    + rewrite (CheckAndSet_applied σ (upd_version (version (env σ) + 1) σ) p V _ 0
                 val (version (env σ) + 1) (version (env σ) + 1));
        [|done|done| |done|done|lia|by apply (attached_unfired _ p V)].
      * simpl. split; [done|]. split; [|right; simpl; lia].
        eapply step_ok_trans; [apply (wf_upd_version σ (version (env σ) + 1)); [done|lia]|].
        apply (wf_written (upd_version (version (env σ) + 1) σ)); try done; [|lia].
        apply wf_upd_version; [done|lia].
      * unfold tryUpdateValue_callback. rewrite Hv0, Hmis.
        unfold_bind. unfold nextVersion. by rewrite Hs.
Qed.

Lemma tryCreateOrUpdateValue_ok σ key val oldVersion :
  wf σ →
  attempt_ok σ (λ '(version, _), version)
    (run (tryCreateOrUpdateValue key val oldVersion) σ).
Proof.
  intros Hwf. unfold tryCreateOrUpdateValue. simpl.
  destruct (negb (isClosed1 (env σ) =? 0)); simpl.
  { split; [done|]. split; [by apply step_ok_refl|by left]. }
  pose proof (wf_counter _ Hwf) as Hc.
  destruct (uint64_add_1 _ Hc) as [[Hz Hmax]|[Hs Hlt]].
  { rewrite Hz. simpl. split; [done|lia]. }
  rewrite Hs. rewrite NewValue_exec by lia.
  change (mkState _ _ _) with (prepared val σ).
  pose proof (wf_prepared σ val Hwf Hlt) as Hp.
  unfold values_LoadOrStore. simpl.
  destruct (values (env σ) !! key) as [p|] eqn:Hk; simpl.
  2:{ split; [done|]. split; [|right; simpl; lia]. by apply wf_installed. }
  destruct (wf_values _ Hwf _ _ Hk) as (V & HV & Hr).
  pose proof (prepared_lookup σ val _ _ HV) as HV2.
  set (n := version (env σ) + 1) in *.
  destruct (Value_version V =? 0) eqn:Hv0.
  - rewrite (CheckAndSet_applied (prepared val σ) (prepared val σ) p V _ 0 val n 0);
      [|done|done| |done|done|lia|apply (attached_unfired _ p V); [apply Hp|done]].
    + simpl. split; [done|]. split; [|right; simpl; lia].
      eapply step_ok_trans; [exact Hp|].
      apply (wf_written (prepared val σ)); try done; [apply Hp|lia].
    + unfold tryCreateOrUpdateValue_callback. by rewrite Hv0.
  - destruct (negb (oldVersion =? 0) && negb (Value_version V =? oldVersion)) eqn:Hmis.
    + rewrite (CheckAndSet_refused (prepared val σ) (prepared val σ) p V _ 0 "" 0 0);
        [|done|done|].
      * simpl. split; [done|]. split; [done|by left].
      * unfold tryCreateOrUpdateValue_callback. by rewrite Hv0, Hmis.
    + assert (Hc2 : 0 ≤ n < uint64_modulus) by lia.
      destruct (uint64_add_1 _ Hc2) as [[Hz2 Hmax2]|[Hs2 Hlt2]].
      * rewrite (CheckAndSet_zero (prepared val σ) (upd_version 0 (prepared val σ))
                   p V _ 0 val 0); [|done|done|].
        -- simpl. split; [done|lia].
        -- unfold tryCreateOrUpdateValue_callback. rewrite Hv0, Hmis.
           unfold_bind. unfold nextVersion. simpl. fold n. by rewrite Hz2.
      * rewrite (CheckAndSet_applied (prepared val σ)
                   (upd_version (n + 1) (prepared val σ)) p V _ 0 val (n + 1) (n + 1));
          [|done|done| |done|done|lia|apply (attached_unfired _ p V); [apply Hp|done]].
        -- simpl. replace (n + 1 =? 0) with false by (symmetry; apply Z.eqb_neq; lia).
           simpl. split; [done|]. split; [|right; simpl; lia].
           eapply step_ok_trans; [exact Hp|].
           assert (Hstep : step_ok (prepared val σ) (upd_version (n + 1) (prepared val σ))).
           { apply wf_upd_version; [apply Hp|simpl; fold n; lia]. }
           eapply step_ok_trans; [exact Hstep|].
           apply (wf_written (upd_version (n + 1) (prepared val σ))); try done;
             [apply Hstep|lia].
        -- unfold tryCreateOrUpdateValue_callback. rewrite Hv0, Hmis.
           unfold_bind. unfold nextVersion. simpl. fold n. by rewrite Hs2.
Qed.
Lemma tryGetValue_ok σ key :
  wf σ → attempt_ok σ (λ _, 0) (run (tryGetValue key) σ).
Proof.
  intros Hwf. rewrite tryGetValue_run by done.
  destruct (negb (isClosed1 (env σ) =? 0)).
  { split; [done|]. split; [by apply step_ok_refl|by left]. }
  destruct (values (env σ) !! key) as [p|]; [destruct (cells σ !! p)|];
    (split; [done|]; split; [by apply step_ok_refl|by left]).
Qed.

Lemma wf_cleared σ p V ws :
  wf σ → cells σ !! p = Some V → Value_watchers V = Some ws →
  step_ok σ (upd_cell p (with_v_version V "" 0) σ).
Proof.
  intros Hwf HV Hws. apply (wf_upd_cell σ p V); try done.
  - simpl. rewrite Hws. intros [= ->]. by eapply (wf_nonempty _ Hwf p V).
  - simpl. right. by rewrite Hws.
Qed.

Lemma tryDeleteValue_ok σ key version :
  wf σ → attempt_ok σ (λ _, 0) (run (tryDeleteValue key version) σ).
Proof.
  intros Hwf. unfold tryDeleteValue. simpl.
  destruct (negb (isClosed1 (env σ) =? 0)); simpl.
  { split; [done|]. split; [by apply step_ok_refl|by left]. }
  destruct (values (env σ) !! key) as [p|] eqn:Hk; simpl.
  2:{ split; [done|]. split; [by apply step_ok_refl|by left]. }
  destruct (wf_values _ Hwf _ _ Hk) as (V & HV & Hr).
  destruct (decide (Value_version V = 0 ∨ (version ≠ 0 ∧ Value_version V ≠ version)))
    as [Hrefuse|Hgo].
  - rewrite (Clear_refused σ p V) by done. simpl.
    split; [done|]. split; [by apply step_ok_refl|by left].
  - assert (Hv0 : Value_version V ≠ 0) by (intros ?; apply Hgo; by left).
    assert (Hm : version = 0 ∨ Value_version V = version).
    { destruct (decide (version = 0)); [by left|].
      destruct (decide (Value_version V = version)); [by right|].
      exfalso. apply Hgo. by right. }
    destruct (Value_watchers V) as [ws|] eqn:Hws.
    + rewrite (Clear_kept σ p V ws) by done. simpl.
      split; [done|]. split; [by eapply wf_cleared|by left].
    + rewrite (Clear_dropped σ p V) by done. simpl.
      split; [done|]. split; [by eapply (wf_tombstone σ key p V)|by left].
Qed.

Lemma Close_ok σ :
  wf σ →
  ∃ σ', run Close σ = Done (if isClosed1 (env σ) =? 0 then nil else ErrStorageClosed) σ' ∧
        step_ok σ σ' ∧ isClosed1 (env σ') = 1.
Proof.
  intros Hwf. unfold Close. simpl.
  destruct (isClosed1 (env σ) =? 0) eqn:Hcl; simpl.
  - apply Z.eqb_eq in Hcl. unfold close_closure. simpl.
    rewrite (wf_closure _ Hwf Hcl). simpl. eexists. split; [done|].
    split; [|done]. by apply (wf_closing σ 1 true).
  - eexists. split; [done|]. split; [|done]. by apply (wf_closing σ 1).
Qed.

(** One attempt of [WaitForValue]: it returns, or it waits on a watcher
    of the cell that is under its key. *)
Definition wait_ok (σ : St) (ctx : Context) (key : string)
    (o : outcome (string * Version * error * bool)) : Prop :=
  match o with
  | Done (_, done) σ' => done = true ∧ step_ok σ σ'
  | Panicked _ => False
  | Blocked watcher ctx' k σ' =>
      step_ok σ σ' ∧ ctx' = ctx ∧
      ∃ value w, watcher = Some w ∧ (w < length (wcells σ'))%nat ∧
                 link σ' key value ∧ k = afterSelect ctx key value (Some w)
  end.

Lemma wf_detached σ p V ws :
  wf σ → cells σ !! p = Some V →
  default ∅ ws ⊆ watchers_of V → ws ≠ Some ∅ →
  (ws = None → Value_version V ≠ 0) →
  step_ok σ (upd_cell p (with_watchers V ws) σ).
Proof.
  intros Hwf HV Hsub Hne Hnone. apply (wf_upd_cell σ p V); try done.
  simpl. destruct ws; [by right|left; by apply Hnone].
Qed.

Lemma tryWaitForValue_ok σ ctx key oldVersion :
  wf σ → wait_ok σ ctx key (run (tryWaitForValue ctx key oldVersion) σ).
Proof.
  intros Hwf. unfold tryWaitForValue. simpl.
  destruct (negb (isClosed1 (env σ) =? 0)); simpl.
  { split; [done|]. by apply step_ok_refl. }
  destruct (values (env σ) !! key) as [p|] eqn:Hk; simpl.
  - destruct (wf_values _ Hwf _ _ Hk) as (V & HV & Hr).
    rewrite (AddWatcher_exec σ p V) by done.
    change (mkState _ _ _) with (attach p V σ). simpl.
    destruct (wf_attach σ p V Hwf HV) as (Hwf1 & He1 & Hc1).
    assert (Hs1 : step_ok σ (attach p V σ)).
    { split; [done|]. split; [done|]. intros Hcol.
      by apply Hc1, collected_collected_but. }
    assert (Hlt : (p < length (cells σ))%nat) by (by eapply lookup_lt_Some).
    set (V1 := with_watchers V (Some ({[length (wcells σ)]} ∪ watchers_of V))).
    assert (HV1 : cells (attach p V σ) !! p = Some V1).
    { simpl. by apply list_lookup_insert_eq. }
    rewrite (Get_exec (attach p V σ) p V1) by done. simpl. rewrite Hr. simpl.
    destruct (negb (Value_version V =? 0)
              && ((oldVersion =? 0) || negb (Value_version V =? oldVersion))) eqn:Hnow.
    + apply andb_true_iff in Hnow as [Hv0 _]. apply negb_true_iff, Z.eqb_neq in Hv0.
      simpl.
      destruct (decide (({[length (wcells σ)]} ∪ watchers_of V) ∖ {[length (wcells σ)]}
                        = (∅ : gset nat))) as [He|He].
      * rewrite (RemoveWatcher_last_present (attach p V σ) p V1
                   ({[length (wcells σ)]} ∪ watchers_of V) (length (wcells σ)));
          [|done|done|done|set_solver|done|done].
        simpl. split; [done|]. eapply step_ok_trans; [exact Hs1|].
        apply (wf_detached (attach p V σ) p V1 None); done.
      * rewrite (RemoveWatcher_some (attach p V σ) p V1
                   ({[length (wcells σ)]} ∪ watchers_of V) (length (wcells σ)));
          [|done|done|done|set_solver|done].
        simpl. split; [done|]. eapply step_ok_trans; [exact Hs1|].
        apply (wf_detached (attach p V σ) p V1 (Some _)); try done.
        -- simpl. unfold watchers_of at 2. simpl. set_solver.
        -- by intros [= ?].
    + split; [done|]. split; [done|].
      exists p, (length (wcells σ)). split; [done|]. split.
      { simpl. rewrite length_app. simpl. lia. }
      split; [|done]. exists V1. split; [done|]. intros _. done.
  - unfold values_LoadOrStore. simpl. rewrite Hk. simpl.
    set (p := length (cells σ)).
    destruct (wf_add_cell σ zeroValue Hwf eq_refl) as (Hwf1 & He1 & Hc1).
    assert (HV0 : cells (add_cell zeroValue σ) !! p = Some zeroValue).
    { simpl. by apply list_lookup_middle. }
    destruct (wf_insert_key (add_cell zeroValue σ) key p zeroValue)
      as (Hwf2 & He2 & Hc2); try done.
    { intros k Hkp. simpl in Hkp. destruct (wf_values _ Hwf _ _ Hkp) as (V & HV & _).
      apply lookup_lt_Some in HV. unfold p in HV. lia. }
    set (σ2 := upd_values (<[key := p]> (values (env (add_cell zeroValue σ))))
                 (add_cell zeroValue σ)) in *.
    change (with_env _ _) with σ2.
    assert (HV2 : cells σ2 !! p = Some zeroValue) by done.
    rewrite (AddWatcher_exec σ2 p zeroValue) by done.
    change (mkState _ _ _) with (attach p zeroValue σ2). simpl.
    destruct (wf_attach σ2 p zeroValue Hwf2 HV2) as (Hwf3 & He3 & Hc3).
    set (V1 := with_watchers zeroValue (Some ({[length (wcells σ2)]} ∪ watchers_of zeroValue))).
    assert (HV1 : cells (attach p zeroValue σ2) !! p = Some V1).
    { simpl. apply list_lookup_insert_eq. rewrite length_app. simpl. lia. }
    rewrite (Get_exec (attach p zeroValue σ2) p V1) by done. simpl.
    split.
    { split; [done|]. split.
      - eapply extends_trans; [exact He1|]. eapply extends_trans; [exact He2|done].
      - intros Hcol. apply Hc3, Hc2, Hc1, Hcol. }
    split; [done|]. exists p, (length (wcells σ)). split; [done|]. split.
    { simpl. rewrite length_app. simpl. lia. }
    split; [|done]. exists V1. split; [done|]. intros _. simpl.
    apply lookup_insert_eq.
Qed.
Lemma afterSelect_ok σ ctx key value w c :
  wf σ → link σ key value → (w < length (wcells σ))%nat →
  ∃ r σ', run (afterSelect ctx key value (Some w) c) σ = Done (r, true) σ' ∧
          step_ok σ σ'.
Proof.
  intros Hwf (V & HV & Hl) Hw.
  destruct c; unfold afterSelect; simpl.
  - destruct (lookup_lt_is_Some_2 _ _ Hw) as [cw Hcw]. rewrite Hcw.
    simpl. eexists _, _. split; [done|]. by apply step_ok_refl.
  - eexists _, _. split; [done|]. by apply step_ok_refl.
  - destruct (Value_isRemoved V) eqn:Hr.
    { rewrite (RemoveWatcher_removed σ value V) by done. simpl.
      eexists _, _. split; [done|]. by apply step_ok_refl. }
    destruct (decide (w ∈ watchers_of V)) as [Hin|Hnin].
    2:{ rewrite (RemoveWatcher_absent σ value V) by done. simpl.
        eexists _, _. split; [done|]. by apply step_ok_refl. }
    unfold watchers_of in Hin.
    destruct (Value_watchers V) as [ws|] eqn:Hws; simpl in Hin; [|set_solver].
    destruct (decide (ws ∖ {[w]} = ∅)) as [He|He].
    + destruct (decide (Value_version V = 0)) as [Hv0|Hv0].
      * rewrite (RemoveWatcher_last_absent σ value V ws) by done. simpl.
        eexists _, _. split; [done|].
        apply (wf_tombstone σ key value V); auto.
      * rewrite (RemoveWatcher_last_present σ value V ws) by done. simpl.
        eexists _, _. split; [done|].
        apply (wf_detached σ value V None); done.
    + rewrite (RemoveWatcher_some σ value V ws) by done. simpl.
      eexists _, _. split; [done|].
      apply (wf_detached σ value V (Some _)); try done.
      * simpl. unfold watchers_of. rewrite Hws. simpl. set_solver.
      * by intros [= ?].
Qed.
End CallFacts.


(** ** Histories keep the invariant *)

Section Histories.
Implicit Types (σ : St) (w : world) (r : reply).

(** What a waiting [WaitForValue] does with the result of its attempt. *)
Definition WaitForValue_next (fuel : nat) (ctx : Context) (key : string)
    (oldVersion : Version) (x : string * Version * error * bool)
    : prog (option (string * OpaqueVersion * error)) :=
  let '(val, newVersion, err, done) := x in
  if negb done then WaitForValue_loop fuel ctx key oldVersion
  else Ret (Some (val, version2OpaqueVersion newVersion, err)).

Definition waiter_ok σ (wt : waiter) : Prop :=
  ∃ fuel key oldVersion value wi,
    waiter_watcher wt = Some wi ∧ (wi < length (wcells σ))%nat ∧ link σ key value ∧
    waiter_k wt =
      (λ c, x ← afterSelect (waiter_ctx wt) key value (Some wi) c;
            WaitForValue_next fuel (waiter_ctx wt) key oldVersion x).

Definition waiters_ok σ (wts : list (option waiter)) : Prop :=
  ∀ i wt, wts !! i = Some (Some wt) → waiter_ok σ wt.

Record wf_world w : Prop := mkWfWorld {
  ww_store : wf (store w);
  ww_collected : collected (store w);
  ww_waiters : waiters_ok (store w) (waiters w)
}.

(** What a reply tells about the counter: a version handed out is
    newer than the counter was before the call and not newer than it
    is after; a call panics only on a version argument of a foreign
    type or when the counter is about to wrap. *)
Definition reply_ok σ σ' r : Prop :=
  match r with
  | returnedValue _ version _ => version ≠ boxVersion 0 ∧ version ≠ boxOther
  | returnedVersion version _ =>
      version = nilVersion ∨
      ∃ v, version = boxVersion v ∧ memorystorage.version (env σ) < v ≤ memorystorage.version (env σ')
  | spinning => False
  | panicked msg =>
      msg = "interface conversion" ∨
      (msg = "set value to zero version" ∧
       uint64_modulus - 2 ≤ memorystorage.version (env σ))
  | _ => True
  end.

Definition world_step_ok w (wr : world * reply) : Prop :=
  wf_world wr.1 ∧ extends (store w) (store wr.1) ∧ reply_ok (store w) (store wr.1) wr.2.

Lemma waiter_ok_extends σ σ' wt : waiter_ok σ wt → extends σ σ' → waiter_ok σ' wt.
Proof.
  intros (fuel & key & old & value & wi & Hw & Hlt & Hl & Hk) He.
  exists fuel, key, old, value, wi. split; [done|]. split.
  { pose proof (ext_wcells _ _ He). lia. }
  split; [by eapply link_extends|done].
Qed.

Lemma waiters_ok_extends σ σ' wts :
  waiters_ok σ wts → extends σ σ' → waiters_ok σ' wts.
Proof. intros H He i wt Hi. eapply waiter_ok_extends; eauto. Qed.

Lemma wf_world_step w σ' :
  wf_world w → step_ok (store w) σ' → wf_world (mkWorld σ' (waiters w)).
Proof.
  intros [Hwf Hcol Hws] (Hwf' & He & Hc). split; simpl; [done|auto|].
  by eapply waiters_ok_extends.
Qed.

Lemma value_reply σ σ' val v err :
  reply_ok σ σ' (returnedValue val (version2OpaqueVersion v) err).
Proof.
  simpl. unfold version2OpaqueVersion. destruct (v =? 0) eqn:Hv; [done|].
  apply Z.eqb_neq in Hv. split; [congruence|done].
Qed.

Lemma version_reply σ σ' v err :
  v = 0 ∨ version (env σ) < v ≤ version (env σ') →
  reply_ok σ σ' (returnedVersion (version2OpaqueVersion v) err).
Proof.
  intros [->|Hv]; [by left|]. simpl. unfold version2OpaqueVersion.
  destruct (v =? 0); [by left|]. right. by exists v.
Qed.

Lemma world_step_same w r :
  wf_world w → reply_ok (store w) (store w) r → world_step_ok w (w, r).
Proof. intros Hw Hr. split; [done|]. split; [apply extends_refl|done]. Qed.

Lemma world_step_panic w :
  wf_world w → uint64_modulus - 2 ≤ version (env (store w)) →
  world_step_ok w (w, panicked "set value to zero version").
Proof. intros Hw Hv. apply world_step_same; [done|]. right. done. Qed.

Lemma perform_CreateValue fuel key val w :
  wf_world w → world_step_ok w (perform (S fuel) (callCreateValue key val) w).
Proof.
  intros Hw. unfold perform.
  change (CreateValue (S fuel) key val) with
    (x ← tryCreateValue key val;
     let '(version, err, ok) := x in
     if negb ok then CreateValue fuel key val
     else Ret (Some (version2OpaqueVersion version, err))).
  rewrite run_bind.
  pose proof (tryCreateValue_ok (store w) key val (ww_store _ Hw)) as H.
  destruct (run (tryCreateValue key val) (store w)) as [[[v e] ok] σ'|msg|]; simpl in H.
  - destruct H as (-> & Hs & Hv). simpl. split; [by apply wf_world_step|].
    split; [apply Hs|]. by apply version_reply.
  - destruct H as [-> Hv]. by apply world_step_panic.
  - done.
Qed.
Lemma perform_foreign w r :
  wf_world w → r = panicked "interface conversion" → world_step_ok w (w, r).
Proof. intros Hw ->. apply world_step_same; [done|]. by left. Qed.

Lemma UpdateValue_loop_ok fuel key val oldVersion w :
  wf_world w →
  world_step_ok w
    (settle w (run (UpdateValue_loop (S fuel) key val oldVersion) (store w))
       (λ '(version, err), returnedVersion version err)).
Proof.
  intros Hw.
  change (UpdateValue_loop (S fuel) key val oldVersion) with
    (x ← tryUpdateValue key val oldVersion;
     let '(newVersion, err, done) := x in
     if negb done then UpdateValue_loop fuel key val oldVersion
     else Ret (Some (version2OpaqueVersion newVersion, err))).
  rewrite run_bind.
  pose proof (tryUpdateValue_ok (store w) key val oldVersion (ww_store _ Hw)) as H.
  destruct (run (tryUpdateValue key val oldVersion) (store w))
    as [[[v e] ok] σ'|msg|]; simpl in H.
  - destruct H as (-> & Hs & Hv). simpl. split; [by apply wf_world_step|].
    split; [apply Hs|]. by apply version_reply.
  - destruct H as [-> Hv]. by apply world_step_panic.
  - done.
Qed.

Lemma perform_UpdateValue fuel key val oldVersion w :
  wf_world w →
  world_step_ok w (perform (S fuel) (callUpdateValue key val oldVersion) w).
Proof.
  intros Hw. unfold perform.
  destruct oldVersion as [|v|]; [by apply UpdateValue_loop_ok..|].
  by apply perform_foreign.
Qed.

Lemma CreateOrUpdateValue_loop_ok fuel key val oldVersion w :
  wf_world w →
  world_step_ok w
    (settle w (run (CreateOrUpdateValue_loop (S fuel) key val oldVersion) (store w))
       (λ '(version, err), returnedVersion version err)).
Proof.
  intros Hw.
  change (CreateOrUpdateValue_loop (S fuel) key val oldVersion) with
    (x ← tryCreateOrUpdateValue key val oldVersion;
     let '(newVersion, err, done) := x in
     if negb done then CreateOrUpdateValue_loop fuel key val oldVersion
     else Ret (Some (version2OpaqueVersion newVersion, err))).
  rewrite run_bind.
  pose proof (tryCreateOrUpdateValue_ok (store w) key val oldVersion (ww_store _ Hw)) as H.
  destruct (run (tryCreateOrUpdateValue key val oldVersion) (store w))
    as [[[v e] ok] σ'|msg|]; simpl in H.
  - destruct H as (-> & Hs & Hv). simpl. split; [by apply wf_world_step|].
    split; [apply Hs|]. by apply version_reply.
  - destruct H as [-> Hv]. by apply world_step_panic.
  - done.
Qed.

Lemma perform_CreateOrUpdateValue fuel key val oldVersion w :
  wf_world w →
  world_step_ok w (perform (S fuel) (callCreateOrUpdateValue key val oldVersion) w).
Proof.
  intros Hw. unfold perform.
  destruct oldVersion as [|v|]; [by apply CreateOrUpdateValue_loop_ok..|].
  by apply perform_foreign.
Qed.

Lemma perform_GetValue fuel key w :
  wf_world w → world_step_ok w (perform (S fuel) (callGetValue key) w).
Proof.
  intros Hw. unfold perform.
  change (GetValue (S fuel) key) with
    (x ← tryGetValue key;
     let '(val, version, err, done) := x in
     if negb done then GetValue fuel key
     else Ret (Some (val, version2OpaqueVersion version, err))).
  rewrite run_bind.
  pose proof (tryGetValue_ok (store w) key (ww_store _ Hw)) as H.
  destruct (run (tryGetValue key) (store w)) as [[[[val v] e] ok] σ'|msg|]; simpl in H.
  - destruct H as (-> & Hs & Hv). simpl. split; [by apply wf_world_step|].
    split; [apply Hs|apply value_reply].
  - destruct H as [-> Hv]. by apply world_step_panic.
  - done.
Qed.

Lemma DeleteValue_loop_ok fuel key version w :
  wf_world w →
  world_step_ok w
    (settle w (run (DeleteValue_loop (S fuel) key version) (store w))
       (λ '(ok, err), returnedOk ok err)).
Proof.
  intros Hw.
  change (DeleteValue_loop (S fuel) key version) with
    (x ← tryDeleteValue key version;
     let '(ok, err, done) := x in
     if negb done then DeleteValue_loop fuel key version
     else Ret (Some (ok, err))).
  rewrite run_bind.
  pose proof (tryDeleteValue_ok (store w) key version (ww_store _ Hw)) as H.
  destruct (run (tryDeleteValue key version) (store w))
    as [[[b e] ok] σ'|msg|]; simpl in H.
  - destruct H as (-> & Hs & Hv). simpl. split; [by apply wf_world_step|].
    split; [apply Hs|done].
  - destruct H as [-> Hv]. by apply world_step_panic.
  - done.
Qed.

Lemma perform_DeleteValue fuel key version w :
  wf_world w → world_step_ok w (perform (S fuel) (callDeleteValue key version) w).
Proof.
  intros Hw. unfold perform.
  destruct version as [|v|]; [by apply DeleteValue_loop_ok..|].
  by apply perform_foreign.
Qed.

Lemma perform_Close fuel w :
  wf_world w → world_step_ok w (perform fuel callClose w).
Proof.
  intros Hw. unfold perform. rewrite run_bind.
  destruct (Close_ok (store w) (ww_store _ Hw)) as (σ' & -> & Hs & _). simpl.
  split; [by apply wf_world_step|]. split; [apply Hs|done].
Qed.
Lemma WaitForValue_loop_ok fuel ctx key oldVersion w :
  wf_world w →
  world_step_ok w
    (settleWait w None (run (WaitForValue_loop (S fuel) ctx key oldVersion) (store w))).
Proof.
  intros Hw.
  change (WaitForValue_loop (S fuel) ctx key oldVersion) with
    (x ← tryWaitForValue ctx key oldVersion;
     WaitForValue_next fuel ctx key oldVersion x).
  rewrite run_bind.
  pose proof (tryWaitForValue_ok (store w) ctx key oldVersion (ww_store _ Hw)) as H.
  destruct (run (tryWaitForValue ctx key oldVersion) (store w))
    as [[[[val v] e] ok] σ'|msg|watcher ctx' k σ']; simpl in H.
  - destruct H as (-> & Hs). simpl. split; [by apply wf_world_step|].
    split; [apply Hs|apply value_reply].
  - done.
  - destruct H as (Hs & -> & value & wi & -> & Hlt & Hl & ->). simpl.
    split; [|split; [apply Hs|done]].
    destruct (wf_world_step w σ' Hw Hs) as [Hwf' Hcol' Hws']. simpl in *.
    split; simpl; [done|done|].
    intros i wt Hi. apply lookup_app_Some in Hi as [Hi|[_ Hi]]; [by eapply Hws'|].
    apply list_lookup_singleton_Some in Hi as [_ [= <-]].
    exists fuel, key, oldVersion, value, wi. done.
Qed.

Lemma perform_WaitForValue fuel ctx key oldVersion w :
  wf_world w →
  world_step_ok w (perform (S fuel) (callWaitForValue ctx key oldVersion) w).
Proof.
  intros Hw. unfold perform.
  destruct oldVersion as [|v|]; [by apply WaitForValue_loop_ok..|].
  by apply perform_foreign.
Qed.

Lemma perform_wake fuel i c w :
  wf_world w → world_step_ok w (perform fuel (wake i c) w).
Proof.
  intros Hw. unfold perform.
  destruct (waiters w !! i) as [[wt|]|] eqn:Hi; try (by apply world_step_same).
  destruct (ready _ _ c (store w)); [|by apply world_step_same].
  destruct (ww_waiters _ Hw _ _ Hi) as (f & key & old & value & wi & Hwi & Hlt & Hl & ->).
  rewrite run_bind.
  destruct (afterSelect_ok (store w) (waiter_ctx wt) key value wi c (ww_store _ Hw) Hl Hlt)
    as ([[val v] e] & σ' & -> & Hs).
  simpl. split; [|split; [apply Hs|apply value_reply]].
  destruct (wf_world_step w σ' Hw Hs) as [Hwf' Hcol' Hws']. simpl in *.
  split; simpl; [done|done|].
  intros j wt' Hj. apply list_lookup_insert_Some in Hj as [(_ & [=] & _)|[_ Hj]].
  by eapply Hws'.
Qed.

Theorem perform_ok fuel c w :
  wf_world w → world_step_ok w (perform (S fuel) c w).
Proof.
  intros Hw. destruct c.
  - by apply perform_GetValue.
  - by apply perform_WaitForValue.
  - by apply perform_CreateValue.
  - by apply perform_UpdateValue.
  - by apply perform_CreateOrUpdateValue.
  - by apply perform_DeleteValue.
  - by apply perform_Close.
  - by apply perform_wake.
Qed.

Lemma wf_fresh : wf_world fresh.
Proof. split; [apply wf_New|apply collected_New|]. intros i wt Hi. done. Qed.

Lemma history_ok fuel cs w :
  wf_world w → wf_world (history (S fuel) cs w).1 ∧
               extends (store w) (store (history (S fuel) cs w).1).
Proof.
  revert w. induction cs as [|c cs IH]; intros w Hw; simpl.
  { split; [done|apply extends_refl]. }
  destruct (perform_ok fuel c w Hw) as (Hw' & He & Hr).
  destruct (perform (S fuel) c w) as [w' r]. simpl in *.
  destruct r; try (by split);
    (destruct (IH w' Hw') as [Hw'' He'];
     destruct (history (S fuel) cs w') as [w'' rs]; simpl in *;
     split; [done|by eapply extends_trans]).
Qed.
(** The version a successful [CreateValue], [UpdateValue] or
    [CreateOrUpdateValue] hands out. *)
Definition handed_out r : option Version :=
  match r with
  | returnedVersion (boxVersion v) _ => Some v
  | _ => None
  end.



Lemma history_replies fuel cs w (P : reply → Prop) :
  wf_world w → (∀ σ σ' r, reply_ok σ σ' r → P r) →
  Forall P (history (S fuel) cs w).2.
Proof.
  intros Hw HP. revert w Hw. induction cs as [|c cs IH]; intros w Hw; simpl.
  { constructor. }
  destruct (perform_ok fuel c w Hw) as (Hw' & He & Hr).
  destruct (perform (S fuel) c w) as [w' r]. simpl in *.
  specialize (IH w' Hw'). apply HP in Hr.
  destruct r; simpl;
    try (destruct (history (S fuel) cs w') as [w'' rs]; simpl in * ); by constructor.
Qed.
End Histories.

(** ** What the calls return *)

Section Returns.
Implicit Types (σ : St) (V : Value) (p w : nat) (key val : string).

Local Opaque Get AddWatcher RemoveWatcher CheckAndSet Clear NewValue.

Definition open σ : Prop := isClosed1 (env σ) = 0.

(** The cell under a key, if any. *)
Definition cell_of σ key : option Value :=
  p ← values (env σ) !! key; cells σ !! p.

Lemma GetValue_run fuel key σ :
  wf σ → open σ →
  run (GetValue (S fuel) key) σ =
    Done (Some (match cell_of σ key with
                | Some V => (Value_v V, version2OpaqueVersion (Value_version V), nil)
                | None => ("", nilVersion, nil)
                end)) σ.
Proof.
  intros Hwf Ho.
  change (GetValue (S fuel) key) with
    (x ← tryGetValue key;
     let '(val, version, err, done) := x in
     if negb done then GetValue fuel key
     else Ret (Some (val, version2OpaqueVersion version, err))).
  rewrite run_bind, tryGetValue_run by done. rewrite Ho. simpl.
  unfold cell_of. destruct (values (env σ) !! key) as [p|]; simpl; [|done].
  by destruct (cells σ !! p).
Qed.

Lemma tryUpdateValue_missing key val oldVersion σ :
  open σ → values (env σ) !! key = None →
  run (tryUpdateValue key val oldVersion) σ = Done (0, nil, true) σ.
Proof. intros Ho Hk. unfold tryUpdateValue. simpl. rewrite Ho. simpl. by rewrite Hk. Qed.

Lemma tryUpdateValue_refused key val oldVersion σ p V :
  open σ → values (env σ) !! key = Some p → cells σ !! p = Some V →
  Value_isRemoved V = false →
  Value_version V = 0 ∨ (oldVersion ≠ 0 ∧ Value_version V ≠ oldVersion) →
  run (tryUpdateValue key val oldVersion) σ = Done (0, nil, true) σ.
Proof.
  intros Ho Hk HV Hr Hcase. unfold tryUpdateValue. simpl. rewrite Ho. simpl.
  rewrite Hk. simpl.
  rewrite (CheckAndSet_refused σ σ p V _ 0 "" 0 0); [done|done|done|].
  unfold tryUpdateValue_callback. destruct Hcase as [->|[Ho0 Hne]]; [done|].
  apply Z.eqb_neq in Ho0, Hne. rewrite Ho0, Hne. simpl.
  by destruct (Value_version V =? 0).
Qed.

Lemma tryUpdateValue_applied key val oldVersion σ p V :
  open σ → values (env σ) !! key = Some p → cells σ !! p = Some V →
  Value_isRemoved V = false → Value_version V ≠ 0 →
  oldVersion = 0 ∨ Value_version V = oldVersion →
  0 ≤ version (env σ) → version (env σ) + 1 < uint64_modulus →
  (∀ w, w ∈ watchers_of V → unfired (wcells σ) w) →
  run (tryUpdateValue key val oldVersion) σ =
    Done (version (env σ) + 1, nil, true)
      (written p V val (version (env σ) + 1) (upd_version (version (env σ) + 1) σ)).
Proof.
  intros Ho Hk HV Hr Hv0 Hm Hc0 Hc1 Hun. unfold tryUpdateValue. simpl. rewrite Ho. simpl.
  rewrite Hk. simpl.
  rewrite (CheckAndSet_applied σ (upd_version (version (env σ) + 1) σ) p V _ 0
             val (version (env σ) + 1) (version (env σ) + 1));
    [done|done|done| |done|done|lia|done].
  unfold tryUpdateValue_callback. apply Z.eqb_neq in Hv0. rewrite Hv0.
  replace (negb (oldVersion =? 0) && negb (Value_version V =? oldVersion)) with false.
  2:{ destruct Hm as [->| ->]; [done|]. by rewrite Z.eqb_refl, andb_false_r. }
  unfold_bind. unfold nextVersion.
  destruct (uint64_add_1 (version (env σ))) as [[_ ?]|[-> _]]; [lia|lia|done].
Qed.

Lemma UpdateValue_loop_done fuel key val oldVersion σ v e σ' :
  run (tryUpdateValue key val oldVersion) σ = Done (v, e, true) σ' →
  run (UpdateValue_loop (S fuel) key val oldVersion) σ =
    Done (Some (version2OpaqueVersion v, e)) σ'.
Proof.
  intros H.
  change (UpdateValue_loop (S fuel) key val oldVersion) with
    (x ← tryUpdateValue key val oldVersion;
     let '(newVersion, err, done) := x in
     if negb done then UpdateValue_loop fuel key val oldVersion
     else Ret (Some (version2OpaqueVersion newVersion, err))).
  by rewrite run_bind, H.
Qed.

Lemma tryCreateValue_missing key val σ :
  open σ → values (env σ) !! key = None →
  0 ≤ version (env σ) → version (env σ) + 1 < uint64_modulus →
  run (tryCreateValue key val) σ =
    Done (version (env σ) + 1, nil, true)
      (upd_values (<[key := length (cells σ)]> (values (env σ))) (prepared val σ)).
Proof.
  intros Ho Hk Hc0 Hc1. unfold tryCreateValue. simpl. rewrite Ho. simpl.
  destruct (uint64_add_1 (version (env σ))) as [[_ ?]|[-> _]]; [lia|lia|].
  rewrite NewValue_exec by lia.
  unfold values_LoadOrStore. simpl. by rewrite Hk.
Qed.

Lemma CreateValue_done fuel key val σ v e σ' :
  run (tryCreateValue key val) σ = Done (v, e, true) σ' →
  run (CreateValue (S fuel) key val) σ = Done (Some (version2OpaqueVersion v, e)) σ'.
Proof.
  intros H.
  change (CreateValue (S fuel) key val) with
    (x ← tryCreateValue key val;
     let '(version, err, ok) := x in
     if negb ok then CreateValue fuel key val
     else Ret (Some (version2OpaqueVersion version, err))).
  by rewrite run_bind, H.
Qed.

Lemma tryCreateOrUpdateValue_absent key val oldVersion σ p V :
  open σ → values (env σ) !! key = Some p → cells σ !! p = Some V →
  Value_isRemoved V = false → Value_version V = 0 →
  0 ≤ version (env σ) → version (env σ) + 1 < uint64_modulus →
  (∀ w, w ∈ watchers_of V → unfired (wcells σ) w) →
  run (tryCreateOrUpdateValue key val oldVersion) σ =
    Done (version (env σ) + 1, nil, true)
      (written p V val (version (env σ) + 1) (prepared val σ)).
Proof.
  intros Ho Hk HV Hr Hv0 Hc0 Hc1 Hun. unfold tryCreateOrUpdateValue. simpl.
  rewrite Ho. simpl.
  destruct (uint64_add_1 (version (env σ))) as [[_ ?]|[-> _]]; [lia|lia|].
  rewrite NewValue_exec by lia.
  change (mkState _ _ _) with (prepared val σ).
  unfold values_LoadOrStore. simpl. rewrite Hk. simpl.
  rewrite (CheckAndSet_applied (prepared val σ) (prepared val σ) p V _ 0
             val (version (env σ) + 1) 0);
    [done|by apply prepared_lookup|done| |done|done|lia|done].
  unfold tryCreateOrUpdateValue_callback. by rewrite Hv0.
Qed.

Lemma CreateOrUpdateValue_loop_done fuel key val oldVersion σ v e σ' :
  run (tryCreateOrUpdateValue key val oldVersion) σ = Done (v, e, true) σ' →
  run (CreateOrUpdateValue_loop (S fuel) key val oldVersion) σ =
    Done (Some (version2OpaqueVersion v, e)) σ'.
Proof.
  intros H.
  change (CreateOrUpdateValue_loop (S fuel) key val oldVersion) with
    (x ← tryCreateOrUpdateValue key val oldVersion;
     let '(newVersion, err, done) := x in
     if negb done then CreateOrUpdateValue_loop fuel key val oldVersion
     else Ret (Some (version2OpaqueVersion newVersion, err))).
  by rewrite run_bind, H.
Qed.

Lemma tryDeleteValue_dropped key version σ p V :
  open σ → values (env σ) !! key = Some p → cells σ !! p = Some V →
  Value_isRemoved V = false → Value_version V ≠ 0 →
  version = 0 ∨ Value_version V = version → Value_watchers V = None →
  run (tryDeleteValue key version) σ = Done (true, nil, true) (tombstone key p "" σ).
Proof.
  intros Ho Hk HV Hr Hv0 Hm Hws. unfold tryDeleteValue. simpl. rewrite Ho. simpl.
  rewrite Hk. simpl. by rewrite (Clear_dropped σ p V) by done.
Qed.

Lemma tryDeleteValue_kept key version σ p V ws :
  open σ → values (env σ) !! key = Some p → cells σ !! p = Some V →
  Value_isRemoved V = false → Value_version V ≠ 0 →
  version = 0 ∨ Value_version V = version → Value_watchers V = Some ws →
  run (tryDeleteValue key version) σ =
    Done (true, nil, true) (upd_cell p (with_v_version V "" 0) σ).
Proof.
  intros Ho Hk HV Hr Hv0 Hm Hws. unfold tryDeleteValue. simpl. rewrite Ho. simpl.
  rewrite Hk. simpl. by rewrite (Clear_kept σ p V ws) by done.
Qed.

Lemma DeleteValue_loop_done fuel key version σ b e σ' :
  run (tryDeleteValue key version) σ = Done (b, e, true) σ' →
  run (DeleteValue_loop (S fuel) key version) σ = Done (Some (b, e)) σ'.
Proof.
  intros H.
  change (DeleteValue_loop (S fuel) key version) with
    (x ← tryDeleteValue key version;
     let '(ok, err, done) := x in
     if negb done then DeleteValue_loop fuel key version
     else Ret (Some (ok, err))).
  by rewrite run_bind, H.
Qed.

End Returns.

(** ** The claims *)

Section RoundTrip.
Variables (fuel : nat) (k v v' : string).

Definition created : St :=
  mkState [mkValue v 1 None false] [] (mkMemoryStorage {[k := 0%nat]} 1 0 false).
Definition updated : St :=
  mkState [mkValue v' 2 None false] [] (mkMemoryStorage {[k := 0%nat]} 2 0 false).
Definition deleted : St :=
  mkState [mkValue "" 0 None true] [] (mkMemoryStorage ∅ 2 0 false).

Lemma CreateValue_fresh :
  run (CreateValue (S fuel) k v) New = Done (Some (boxVersion 1, nil)) created.
Proof.
  rewrite (CreateValue_done fuel k v New 1 nil created); [done|].
  by rewrite tryCreateValue_missing.
Qed.

Lemma GetValue_created :
  run (GetValue (S fuel) k) created = Done (Some (v, boxVersion 1, nil)) created.
Proof.
  unfold GetValue. fold GetValue. unfold tryGetValue. simpl.
  rewrite lookup_singleton_eq. simpl. done.
Qed.

Lemma UpdateValue_created :
  run (UpdateValue (S fuel) k v' (boxVersion 1)) created =
    Done (Some (boxVersion 2, nil)) updated.
Proof.
  change (UpdateValue (S fuel) k v' (boxVersion 1))
    with (UpdateValue_loop (S fuel) k v' 1).
  rewrite (UpdateValue_loop_done fuel k v' 1 created 2 nil updated); [done|].
  rewrite (tryUpdateValue_applied k v' 1 created 0 (mkValue v 1 None false));
    [done|done|apply lookup_singleton_eq|done|done|done|by right|done|done|set_solver].
Qed.

Lemma GetValue_updated :
  run (GetValue (S fuel) k) updated = Done (Some (v', boxVersion 2, nil)) updated.
Proof.
  unfold GetValue. fold GetValue. unfold tryGetValue. simpl.
  rewrite lookup_singleton_eq. simpl. done.
Qed.

Lemma DeleteValue_updated :
  run (DeleteValue (S fuel) k (boxVersion 2)) updated = Done (Some (true, nil)) deleted.
Proof.
  change (DeleteValue (S fuel) k (boxVersion 2)) with (DeleteValue_loop (S fuel) k 2).
  rewrite (DeleteValue_loop_done fuel k 2 updated true nil deleted); [done|].
  rewrite (tryDeleteValue_dropped k 2 updated 0 (mkValue v' 2 None false));
    [|done|apply lookup_singleton_eq|done|done|done|by right|done].
  unfold tombstone, deleted, upd_values, upd_cell, with_env. simpl.
  by rewrite delete_singleton_eq.
Qed.

Lemma GetValue_deleted :
  run (GetValue (S fuel) k) deleted = Done (Some ("", nilVersion, nil)) deleted.
Proof.
  unfold GetValue. fold GetValue. unfold tryGetValue. simpl.
  rewrite lookup_empty. simpl. done.
Qed.
End RoundTrip.

Section HistoryFacts.
Implicit Types (w : world) (σ : St).

Lemma history_cons fuel c cs w w' r :
  perform fuel c w = (w', r) → (∀ msg, r ≠ panicked msg) →
  history fuel (c :: cs) w = ((history fuel cs w').1, r :: (history fuel cs w').2).
Proof.
  intros Hp Hr. simpl. rewrite Hp.
  destruct (history fuel cs w') as [w'' rs]. destruct r; try done.
  by destruct (Hr msg).
Qed.


Lemma perform_GetValue_eq fuel key w val ver e σ' :
  run (GetValue fuel key) (store w) = Done (Some (val, ver, e)) σ' →
  perform fuel (callGetValue key) w = (mkWorld σ' (waiters w), returnedValue val ver e).
Proof. intros H. unfold perform. by rewrite H. Qed.

Lemma perform_CreateValue_eq fuel key val w ver e σ' :
  run (CreateValue fuel key val) (store w) = Done (Some (ver, e)) σ' →
  perform fuel (callCreateValue key val) w = (mkWorld σ' (waiters w), returnedVersion ver e).
Proof. intros H. unfold perform. by rewrite H. Qed.

Lemma perform_UpdateValue_eq fuel key val old w ver e σ' :
  run (UpdateValue fuel key val old) (store w) = Done (Some (ver, e)) σ' →
  perform fuel (callUpdateValue key val old) w =
    (mkWorld σ' (waiters w), returnedVersion ver e).
Proof. intros H. unfold perform. by rewrite H. Qed.

Lemma perform_CreateOrUpdateValue_eq fuel key val old w ver e σ' :
  run (CreateOrUpdateValue fuel key val old) (store w) = Done (Some (ver, e)) σ' →
  perform fuel (callCreateOrUpdateValue key val old) w =
    (mkWorld σ' (waiters w), returnedVersion ver e).
Proof. intros H. unfold perform. by rewrite H. Qed.

Lemma perform_DeleteValue_eq fuel key old w ok e σ' :
  run (DeleteValue fuel key old) (store w) = Done (Some (ok, e)) σ' →
  perform fuel (callDeleteValue key old) w = (mkWorld σ' (waiters w), returnedOk ok e).
Proof. intros H. unfold perform. by rewrite H. Qed.

End HistoryFacts.

(** C3: round trip over one key [k] on a fresh storage. [CreateValue(k, v)]
    returns a version [V] that is not none and [GetValue(k)] then returns
    [(v, V)]; [UpdateValue(k, v', V)] returns a version [V'] different
    from [V] and [GetValue(k)] then returns [(v', V')];
    [DeleteValue(k, V')] returns true and [GetValue(k)] then returns
    [("", none)]. Here [V] is the boxed 1 and [V'] the boxed 2. *)
Theorem C3_round_trip (fuel : nat) (k v v' : string) :
  (history (S fuel)
     [callCreateValue k v; callGetValue k;
      callUpdateValue k v' (boxVersion 1); callGetValue k;
      callDeleteValue k (boxVersion 2); callGetValue k] fresh).2 =
    [returnedVersion (boxVersion 1) nil; returnedValue v (boxVersion 1) nil;
     returnedVersion (boxVersion 2) nil; returnedValue v' (boxVersion 2) nil;
     returnedOk true nil; returnedValue "" nilVersion nil]
  ∧ boxVersion 1 ≠ nilVersion ∧ boxVersion 2 ≠ boxVersion 1.
Proof.
  split; [|done].
  rewrite (history_cons _ _ _ _ _ _
             (perform_CreateValue_eq _ _ _ fresh _ _ _ (CreateValue_fresh fuel k v)))
    by done.
  rewrite (history_cons _ _ _ _ _ _
             (perform_GetValue_eq _ _ (mkWorld (created k v) []) _ _ _ _
                (GetValue_created fuel k v))) by done.
  rewrite (history_cons _ _ _ _ _ _
             (perform_UpdateValue_eq _ _ _ _ (mkWorld (created k v) []) _ _ _
                (UpdateValue_created fuel k v v'))) by done.
  rewrite (history_cons _ _ _ _ _ _
             (perform_GetValue_eq _ _ (mkWorld (updated k v') []) _ _ _ _
                (GetValue_updated fuel k v'))) by done.
  rewrite (history_cons _ _ _ _ _ _
             (perform_DeleteValue_eq _ _ _ (mkWorld (updated k v') []) _ _ _
                (DeleteValue_updated fuel k v'))) by done.
  rewrite (history_cons _ _ _ _ _ _
             (perform_GetValue_eq _ _ (mkWorld deleted []) _ _ _ _
                (GetValue_deleted fuel k))) by done.
  done.
Qed.

Section Waiting.
Local Opaque Get AddWatcher RemoveWatcher CheckAndSet Clear NewValue.

(** On a key without a cell, an attempt of [WaitForValue] stores a new
    cell under the key, attaches a watcher to it and reaches the
    [select], whatever [oldVersion] is. *)
Lemma tryWaitForValue_missing ctx key oldVersion (σ : St) :
  open σ → values (env σ) !! key = None →
  run (tryWaitForValue ctx key oldVersion) σ =
    Blocked (Some (length (wcells σ))) ctx
      (afterSelect ctx key (length (cells σ)) (Some (length (wcells σ))))
      (attach (length (cells σ)) zeroValue
         (upd_values (<[key := length (cells σ)]> (values (env σ)))
            (add_cell zeroValue σ))).
Proof.
  intros Ho Hk. unfold tryWaitForValue. simpl. rewrite Ho. simpl. rewrite Hk. simpl.
  unfold values_LoadOrStore. simpl. rewrite Hk. simpl.
  rewrite (AddWatcher_exec _ (length (cells σ)) zeroValue);
    [|simpl; by apply list_lookup_middle|done].
  simpl.
  rewrite (Get_exec _ (length (cells σ))
             (with_watchers zeroValue (Some ({[length (wcells σ)]} ∪ ∅))));
    [done|].
  simpl. apply list_lookup_insert_eq. rewrite length_app. simpl. lia.
Qed.
End Waiting.

(** C1 (the code does otherwise): on a key without a cell and with an
    old-version that is not none, [WaitForValue] does not return: it
    stores a new cell under the key, attaches a watcher to it and waits
    in its [select], where no case is ready. Here on a fresh storage,
    key "foo", old-version the boxed 1 and [context.Background()]. *)
Theorem C1_WaitForValue_missing_key_waits :
  let w := (perform 1 (callWaitForValue Background "foo" (boxVersion 1)) fresh).1 in
  (perform 1 (callWaitForValue Background "foo" (boxVersion 1)) fresh).2 = waiting ∧
  values (env (store w)) !! "foo" = Some 0%nat ∧
  cells (store w) = [mkValue "" 0 (Some {[0%nat]}) false] ∧
  wcells (store w) = [mkWatcher false (mkEventArgs "" 0)] ∧
  (perform 1 (wake 0 caseEvent) w).2 = notReady ∧
  (perform 1 (wake 0 caseClosure) w).2 = notReady ∧
  (perform 1 (wake 0 caseDone) w).2 = notReady.
Proof.
  cbv zeta. repeat split; vm_compute; reflexivity.
Qed.

(** C2 (the code does otherwise): [Clear] on a cell with a value and a
    watcher succeeds and leaves the watcher attached and not fired, so
    a [WaitForValue] that waits on the deleted version keeps waiting
    after [DeleteValue] has returned true: no case of its [select] is
    ready. *)
Theorem C2_DeleteValue_leaves_waiter_waiting :
  let h := history 1
             [callCreateValue "a" "1";
              callWaitForValue (Cancelable Canceled) "a" (boxVersion 1);
              callDeleteValue "a" (boxVersion 1);
              wake 0 caseEvent; wake 0 caseClosure] fresh in
  h.2 = [returnedVersion (boxVersion 1) nil; waiting; returnedOk true nil;
         notReady; notReady] ∧
  cells (store h.1) = [mkValue "" 0 (Some {[0%nat]}) false] ∧
  wcells (store h.1) = [mkWatcher false (mkEventArgs "" 0)].
Proof.
  vm_compute. done.
Qed.





Section Closed.
Local Opaque Get AddWatcher RemoveWatcher CheckAndSet Clear NewValue.

Lemma closed_calls fuel (σ : St) ctx key val old :
  ¬ open σ → old ≠ boxOther →
  run (GetValue (S fuel) key) σ = Done (Some ("", nilVersion, ErrStorageClosed)) σ ∧
  run (WaitForValue (S fuel) ctx key old) σ =
    Done (Some ("", nilVersion, ErrStorageClosed)) σ ∧
  run (CreateValue (S fuel) key val) σ = Done (Some (nilVersion, ErrStorageClosed)) σ ∧
  run (UpdateValue (S fuel) key val old) σ = Done (Some (nilVersion, ErrStorageClosed)) σ ∧
  run (CreateOrUpdateValue (S fuel) key val old) σ =
    Done (Some (nilVersion, ErrStorageClosed)) σ ∧
  run (DeleteValue (S fuel) key old) σ = Done (Some (false, ErrStorageClosed)) σ.
Proof.
  intros Hc Hold. unfold open in Hc. apply Z.eqb_neq in Hc.
  destruct old as [|ov|]; [| |done]; simpl; rewrite Hc; simpl; done.
Qed.
End Closed.

(** C5: the first [Close()] on a storage returns no error and leaves the
    storage closed; every [Close()] on a closed storage returns
    [ErrStorageClosed] and leaves it closed; on a closed storage each of
    [GetValue], [WaitForValue], [CreateValue], [UpdateValue],
    [CreateOrUpdateValue] and [DeleteValue] fails with [ErrStorageClosed]
    at once and changes nothing, so the storage stays closed. *)
Theorem C5_Close_then_everything_fails (fuel : nat) :
  (∀ σ : St, wf σ → open σ → ∃ σ', run Close σ = Done nil σ' ∧ ¬ open σ') ∧
  (∀ σ : St, ¬ open σ → ∃ σ', run Close σ = Done ErrStorageClosed σ' ∧ ¬ open σ') ∧
  (∀ (σ : St) ctx key val old, ¬ open σ → old ≠ boxOther →
     run (GetValue (S fuel) key) σ = Done (Some ("", nilVersion, ErrStorageClosed)) σ ∧
     run (WaitForValue (S fuel) ctx key old) σ =
       Done (Some ("", nilVersion, ErrStorageClosed)) σ ∧
     run (CreateValue (S fuel) key val) σ = Done (Some (nilVersion, ErrStorageClosed)) σ ∧
     run (UpdateValue (S fuel) key val old) σ =
       Done (Some (nilVersion, ErrStorageClosed)) σ ∧
     run (CreateOrUpdateValue (S fuel) key val old) σ =
       Done (Some (nilVersion, ErrStorageClosed)) σ ∧
     run (DeleteValue (S fuel) key old) σ = Done (Some (false, ErrStorageClosed)) σ).
Proof.
  split; [|split].
  - intros σ Hwf Ho. destruct (Close_ok σ Hwf) as (σ' & Hrun & _ & Hcl).
    unfold open in Ho. rewrite Ho in Hrun. exists σ'. split; [done|].
    unfold open. rewrite Hcl. done.
  - intros σ Hc. unfold Close. simpl. unfold open in Hc. apply Z.eqb_neq in Hc.
    rewrite Hc. simpl. eexists. split; [done|]. unfold open. simpl. done.
  - intros. by apply closed_calls.
Qed.

Lemma C5_witness :
  (∃ σ', run Close New = Done nil σ' ∧ ¬ open σ') ∧
  run (GetValue 1 "a")
    (mkState [] [] (mkMemoryStorage ∅ 0 1 true)) =
    Done (Some ("", nilVersion, ErrStorageClosed))
      (mkState [] [] (mkMemoryStorage ∅ 0 1 true)).
Proof.
  destruct (C5_Close_then_everything_fails 0) as (H1 & H2 & H3). split.
  - apply H1; [apply wf_New|reflexivity].
  - apply (H3 (mkState [] [] (mkMemoryStorage ∅ 0 1 true)) Background "a" "" nilVersion).
    + unfold open. simpl. lia.
    + discriminate.
Defined.

Section Stored.
Implicit Types (σ : St) (V : Value) (p : nat) (key val : string).

Lemma cell_of_Some σ key V :
  cell_of σ key = Some V ↔ ∃ p, values (env σ) !! key = Some p ∧ cells σ !! p = Some V.
Proof.
  unfold cell_of. destruct (values (env σ) !! key) as [p|]; simpl.
  - split; [by exists p|]. by intros (q & [= <-] & HV).
  - split; [done|]. by intros (q & [=] & _).
Qed.

Lemma cell_of_None σ key :
  wf σ → cell_of σ key = None → values (env σ) !! key = None.
Proof.
  intros Hwf. unfold cell_of. destruct (values (env σ) !! key) as [p|] eqn:Hk; [|done].
  simpl. destruct (wf_values _ Hwf _ _ Hk) as (V & -> & _). done.
Qed.

Lemma cell_of_written σ key p V val n :
  values (env σ) !! key = Some p → cells σ !! p = Some V →
  cell_of (written p V val n σ) key = Some (mkValue val n None false).
Proof.
  intros Hk HV. unfold cell_of. simpl. rewrite Hk. simpl.
  apply list_lookup_insert_eq. by eapply lookup_lt_Some.
Qed.

Lemma UpdateValue_nil fuel key val :
  UpdateValue (S fuel) key val nilVersion = UpdateValue_loop (S fuel) key val 0.
Proof. reflexivity. Qed.

Lemma UpdateValue_box fuel key val ov :
  UpdateValue (S fuel) key val (boxVersion ov) = UpdateValue_loop (S fuel) key val ov.
Proof. reflexivity. Qed.

(** [UpdateValue], from the old-version the caller's version stands for. *)
Lemma UpdateValue_convert fuel key val old ov σ :
  opaqueVersion2Version old = Ok ov →
  run (UpdateValue (S fuel) key val old) σ = run (UpdateValue_loop (S fuel) key val ov) σ.
Proof. destruct old; intros [= <-]; reflexivity. Qed.

Lemma UpdateValue_none fuel key val old ov σ :
  wf σ → open σ → opaqueVersion2Version old = Ok ov →
  (cell_of σ key = None ∨
   ∃ V, cell_of σ key = Some V ∧
        (Value_version V = 0 ∨ (ov ≠ 0 ∧ Value_version V ≠ ov))) →
  run (UpdateValue (S fuel) key val old) σ = Done (Some (nilVersion, nil)) σ.
Proof.
  intros Hwf Ho Hold Hcase. rewrite (UpdateValue_convert _ _ _ _ _ _ Hold).
  rewrite (UpdateValue_loop_done fuel key val ov σ 0 nil σ); [done|].
  destruct Hcase as [Hnone|(V & HV & Hcase)].
  - apply tryUpdateValue_missing; [done|]. by apply cell_of_None.
  - apply cell_of_Some in HV as (p & Hk & HV).
    destruct (wf_values _ Hwf _ _ Hk) as (V' & HV' & Hr).
    assert (V' = V) as -> by congruence.
    by eapply tryUpdateValue_refused.
Qed.

Lemma UpdateValue_some fuel key val old ov σ V :
  wf σ → open σ → opaqueVersion2Version old = Ok ov →
  cell_of σ key = Some V → Value_version V ≠ 0 → ov = 0 ∨ ov = Value_version V →
  version (env σ) < uint64_modulus - 1 →
  ∃ σ', run (UpdateValue (S fuel) key val old) σ =
          Done (Some (boxVersion (version (env σ) + 1), nil)) σ' ∧
        version (env σ') = version (env σ) + 1 ∧
        cell_of σ' key = Some (mkValue val (version (env σ) + 1) None false) ∧
        wf σ' ∧ open σ'.
Proof.
  intros Hwf Ho Hold HV Hv0 Hm Hlt. rewrite (UpdateValue_convert _ _ _ _ _ _ Hold).
  apply cell_of_Some in HV as (p & Hk & HV).
  destruct (wf_values _ Hwf _ _ Hk) as (V' & HV' & Hr).
  assert (V' = V) as -> by congruence.
  pose proof (wf_counter _ Hwf) as Hc.
  exists (written p V val (version (env σ) + 1) (upd_version (version (env σ) + 1) σ)).
  split; [|split; [|split; [|split]]].
  - rewrite (UpdateValue_loop_done fuel key val ov σ (version (env σ) + 1) nil
               (written p V val (version (env σ) + 1)
                  (upd_version (version (env σ) + 1) σ))).
    + unfold version2OpaqueVersion.
      replace (version (env σ) + 1 =? 0) with false; [done|].
      symmetry. apply Z.eqb_neq. lia.
    + assert (Hm' : ov = 0 ∨ Value_version V = ov) by (destruct Hm; auto).
      apply (tryUpdateValue_applied key val ov σ p V);
        [done|done|done|done|done|done|lia|lia|by apply (attached_unfired σ p V)].
  - done.
  - by apply (cell_of_written (upd_version (version (env σ) + 1) σ) key p V).
  - apply (wf_written (upd_version (version (env σ) + 1) σ)); try done; [|lia].
    apply wf_upd_version; [done|lia].
  - done.
Qed.

End Stored.

(** C6: [UpdateValue(key, value, old_version)] returns a none version,
    and leaves the storage as it was, when no value exists for the key
    (no cell under it, or a cell without a value) and when the
    old-version is given and differs from the current version. When the
    value exists and the old-version is none or equals the current
    version, it draws the next version from the counter, writes the new
    value under it and returns it. The storage is in a state of the
    invariant, open, and its counter has not reached 2^64 - 1. *)
Theorem C6_UpdateValue (fuel : nat) (key val : string) (old : OpaqueVersion)
    (ov : Version) (σ : St) :
  wf σ → open σ → opaqueVersion2Version old = Ok ov →
  ((cell_of σ key = None ∨ ∃ V, cell_of σ key = Some V ∧ Value_version V = 0) →
   run (UpdateValue (S fuel) key val old) σ = Done (Some (nilVersion, nil)) σ) ∧
  (∀ V, cell_of σ key = Some V → ov ≠ 0 → Value_version V ≠ ov →
   run (UpdateValue (S fuel) key val old) σ = Done (Some (nilVersion, nil)) σ) ∧
  (∀ V, cell_of σ key = Some V → Value_version V ≠ 0 →
        ov = 0 ∨ ov = Value_version V → version (env σ) < uint64_modulus - 1 →
   ∃ σ', run (UpdateValue (S fuel) key val old) σ =
           Done (Some (boxVersion (version (env σ) + 1), nil)) σ' ∧
         version (env σ') = version (env σ) + 1 ∧
         run (GetValue (S fuel) key) σ' =
           Done (Some (val, boxVersion (version (env σ) + 1), nil)) σ').
Proof.
  intros Hwf Ho Hold. split; [|split].
  - intros [Hnone|(V & HV & Hv0)]; apply (UpdateValue_none fuel key val old ov); try done.
    + by left.
    + right. exists V. split; [done|]. by left.
  - intros V HV Hov Hne. apply (UpdateValue_none fuel key val old ov); try done.
    right. exists V. split; [done|]. by right.
  - intros V HV Hv0 Hm Hlt.
    destruct (UpdateValue_some fuel key val old ov σ V)
      as (σ' & Hrun & Hver & Hcell & Hwf' & Ho'); try done.
    exists σ'. split; [done|]. split; [done|].
    rewrite GetValue_run by done.
    rewrite Hcell. simpl. unfold version2OpaqueVersion.
    replace (version (env σ) + 1 =? 0) with false; [done|].
    symmetry. apply Z.eqb_neq. pose proof (wf_counter _ Hwf). lia.
Qed.

Lemma wf_created (k v : string) : wf (created k v).
Proof.
  pose proof (tryCreateValue_ok New k v wf_New) as H.
  rewrite tryCreateValue_missing in H; [|done|done|done|done].
  destruct H as (_ & H & _). apply H.
Qed.

Lemma C6_witness :
  run (UpdateValue 1 "b" "2" nilVersion) (created "a" "1") =
    Done (Some (nilVersion, nil)) (created "a" "1") ∧
  run (UpdateValue 1 "a" "2" (boxVersion 7)) (created "a" "1") =
    Done (Some (nilVersion, nil)) (created "a" "1") ∧
  ∃ σ', run (UpdateValue 1 "a" "2" (boxVersion 1)) (created "a" "1") =
          Done (Some (boxVersion 2, nil)) σ' ∧
        version (env σ') = 2 ∧
        run (GetValue 1 "a") σ' = Done (Some ("2", boxVersion 2, nil)) σ'.
Proof.
  split; [|split].
  - destruct (C6_UpdateValue 0 "b" "2" nilVersion 0 (created "a" "1")
                (wf_created "a" "1") eq_refl eq_refl) as (H & _ & _).
    apply H. left. vm_compute. reflexivity.
  - destruct (C6_UpdateValue 0 "a" "2" (boxVersion 7) 7 (created "a" "1")
                (wf_created "a" "1") eq_refl eq_refl) as (_ & H & _).
    apply (H (mkValue "1" 1 None false)); [vm_compute; reflexivity|lia|simpl; lia].
  - destruct (C6_UpdateValue 0 "a" "2" (boxVersion 1) 1 (created "a" "1")
                (wf_created "a" "1") eq_refl eq_refl) as (_ & _ & H).
    apply (H (mkValue "1" 1 None false));
      [vm_compute; reflexivity|simpl; lia|by right|simpl; rewrite uint64_modulus_eq; lia].
Defined.

Section Absent.
Implicit Types (σ : St) (V : Value) (p : nat) (key val : string).

Lemma CreateOrUpdateValue_convert fuel key val old ov σ :
  opaqueVersion2Version old = Ok ov →
  run (CreateOrUpdateValue (S fuel) key val old) σ =
    run (CreateOrUpdateValue_loop (S fuel) key val ov) σ.
Proof. destruct old; intros [= <-]; reflexivity. Qed.

Lemma CreateOrUpdateValue_absent fuel key val old ov σ V :
  wf σ → open σ → opaqueVersion2Version old = Ok ov →
  cell_of σ key = Some V → Value_version V = 0 →
  version (env σ) < uint64_modulus - 1 →
  ∃ σ', run (CreateOrUpdateValue (S fuel) key val old) σ =
          Done (Some (boxVersion (version (env σ) + 1), nil)) σ' ∧
        version (env σ') = version (env σ) + 1 ∧
        cell_of σ' key = Some (mkValue val (version (env σ) + 1) None false) ∧
        wf σ' ∧ open σ'.
Proof.
  intros Hwf Ho Hold HV Hv0 Hlt. rewrite (CreateOrUpdateValue_convert _ _ _ _ _ _ Hold).
  apply cell_of_Some in HV as (p & Hk & HV).
  destruct (wf_values _ Hwf _ _ Hk) as (V' & HV' & Hr).
  assert (V' = V) as -> by congruence.
  pose proof (wf_counter _ Hwf) as Hc.
  assert (Hp : step_ok σ (prepared val σ)) by (apply wf_prepared; [done|lia]).
  exists (written p V val (version (env σ) + 1) (prepared val σ)).
  split; [|split; [|split; [|split]]].
  - rewrite (CreateOrUpdateValue_loop_done fuel key val ov σ (version (env σ) + 1) nil
               (written p V val (version (env σ) + 1) (prepared val σ))).
    + unfold version2OpaqueVersion.
      replace (version (env σ) + 1 =? 0) with false; [done|].
      symmetry. apply Z.eqb_neq. lia.
    + apply (tryCreateOrUpdateValue_absent key val ov σ p V);
        [done|done|done|done|done|lia|lia|by apply (attached_unfired σ p V)].
  - done.
  - apply (cell_of_written (prepared val σ) key p V); [done|].
    by apply prepared_lookup.
  - apply (wf_written (prepared val σ)); [apply Hp|by apply prepared_lookup|done|lia].
  - done.
Qed.

End Absent.

(** C7: for a key whose cell exists but holds no value (its version is
    0) and an old-version that is not none, [CreateOrUpdateValue] writes
    the value under the version it drew before looking at the cell and
    returns that version, which is not none; [UpdateValue] in the same
    state returns none and changes nothing, whatever old-version it is
    given. The storage is in a state of the invariant, open, and its
    counter has not reached 2^64 - 1. *)
Theorem C7_CreateOrUpdateValue_on_absent (fuel : nat) (key val : string)
    (ov : Version) (σ : St) (V : Value) :
  wf σ → open σ → cell_of σ key = Some V → Value_version V = 0 → ov ≠ 0 →
  version (env σ) < uint64_modulus - 1 →
  (∃ σ', run (CreateOrUpdateValue (S fuel) key val (boxVersion ov)) σ =
           Done (Some (boxVersion (version (env σ) + 1), nil)) σ' ∧
         boxVersion (version (env σ) + 1) ≠ boxVersion 0 ∧
         version (env σ') = version (env σ) + 1 ∧
         run (GetValue (S fuel) key) σ' =
           Done (Some (val, boxVersion (version (env σ) + 1), nil)) σ') ∧
  (∀ old, old ≠ boxOther →
     run (UpdateValue (S fuel) key val old) σ = Done (Some (nilVersion, nil)) σ).
Proof.
  intros Hwf Ho HV Hv0 Hov Hlt. pose proof (wf_counter _ Hwf) as Hc. split.
  - destruct (CreateOrUpdateValue_absent fuel key val (boxVersion ov) ov σ V)
      as (σ' & Hrun & Hver & Hcell & Hwf' & Ho'); try done.
    exists σ'. split; [done|]. split; [intros [=]; lia|]. split; [done|].
    rewrite GetValue_run by done.
    rewrite Hcell. simpl. unfold version2OpaqueVersion.
    replace (version (env σ) + 1 =? 0) with false; [done|].
    symmetry. apply Z.eqb_neq. lia.
  - intros old Hold.
    assert (∃ ov', opaqueVersion2Version old = Ok ov') as [ov' Hov'].
    { destruct old; [by eexists|by eexists|done]. }
    apply (UpdateValue_none fuel key val old ov'); try done.
    right. exists V. split; [done|by left].
Qed.

(** The storage after [WaitForValue(ctx, "a", nil)] on a fresh storage
    has started to wait: a cell without a value, with one watcher. *)
Definition watching : St :=
  mkState [mkValue "" 0 (Some {[0%nat]}) false] [mkWatcher false (mkEventArgs "" 0)]
    (mkMemoryStorage {["a" := 0%nat]} 0 0 false).

Lemma wf_watching : wf watching.
Proof.
  pose proof (perform_ok 0 (callWaitForValue Background "a" nilVersion) fresh wf_fresh)
    as ([H _ _] & _ & _).
  exact H.
Qed.

Lemma C7_witness :
  (∃ σ', run (CreateOrUpdateValue 1 "a" "x" (boxVersion 5)) watching =
           Done (Some (boxVersion (version (env watching) + 1), nil)) σ' ∧
         boxVersion (version (env watching) + 1) ≠ boxVersion 0 ∧
         version (env σ') = version (env watching) + 1 ∧
         run (GetValue 1 "a") σ' =
           Done (Some ("x", boxVersion (version (env watching) + 1), nil)) σ') ∧
  (∀ old, old ≠ boxOther →
     run (UpdateValue 1 "a" "x" old) watching = Done (Some (nilVersion, nil)) watching).
Proof.
  apply (C7_CreateOrUpdateValue_on_absent 0 "a" "x" 5 watching
           (mkValue "" 0 (Some {[0%nat]}) false) wf_watching).
  - reflexivity.
  - vm_compute. reflexivity.
  - reflexivity.
  - lia.
  - simpl. rewrite uint64_modulus_eq. lia.
Defined.

(** C8: after every sequence of calls on a fresh storage, each run to
    its return or to the point where it waits (waiting calls may be let
    go on through any ready case of their [select]), no key of the map
    leads to a cell whose version is 0 and whose set of watchers is
    empty, nor to a removed cell; the two methods that can leave a cell
    in that state, [Clear] on a cell without watchers and
    [RemoveWatcher] of the last watcher of a cell without a value, mark
    the cell removed and delete its key within the same call. *)
Theorem C8_no_empty_cell_under_a_key (fuel : nat) (cs : list call) (key : string) :
  match cell_of (store (history (S fuel) cs fresh).1) key with
  | Some V =>
      Value_isRemoved V = false ∧
      ¬ (Value_version V = 0 ∧ watchers_of V = ∅)
  | None => True
  end ∧
  (∀ (σ : St) p V version,
     cells σ !! p = Some V → Value_isRemoved V = false → Value_version V ≠ 0 →
     version = 0 ∨ Value_version V = version → Value_watchers V = None →
     Clear p version (values_Delete key) σ =
       Ok ((true, nil), tombstone key p "" σ)) ∧
  (∀ (σ : St) p V ws w,
     cells σ !! p = Some V → Value_isRemoved V = false →
     Value_watchers V = Some ws → w ∈ ws → ws ∖ {[w]} = ∅ → Value_version V = 0 →
     RemoveWatcher p (Some w) (values_Delete key) σ =
       Ok (nil, tombstone key p (Value_v V) σ)).
Proof.
  split; [|split].
  - destruct (history_ok fuel cs fresh wf_fresh) as [[Hwf Hcol _] _].
    destruct (cell_of _ key) as [V|] eqn:HV; [|done].
    apply cell_of_Some in HV as (p & Hk & HV).
    destruct (wf_values _ Hwf _ _ Hk) as (V' & HV' & Hr).
    assert (V' = V) as -> by congruence.
    split; [done|]. intros [Hv0 Hws].
    destruct (Hcol _ _ _ Hk HV) as [Hv|Hw]; [done|].
    unfold watchers_of in Hws. destruct (Value_watchers V) as [ws|] eqn:Hws'; [|done].
    simpl in Hws. subst ws. by apply (wf_nonempty _ Hwf p V).
  - intros σ p V version HV Hr Hv0 Hm Hws. by apply (Clear_dropped σ p V).
  - intros σ p V ws w HV Hr Hws Hw He Hv0. by apply (RemoveWatcher_last_absent σ p V ws).
Qed.

Lemma C8_witness :
  match cell_of (store (history 1 [callCreateValue "a" "1"] fresh).1) "a" with
  | Some V =>
      Value_isRemoved V = false ∧
      ¬ (Value_version V = 0 ∧ watchers_of V = ∅)
  | None => True
  end ∧
  Clear 0 1 (values_Delete "a") (created "a" "1") =
    Ok ((true, nil), tombstone "a" 0 "" (created "a" "1")).
Proof.
  destruct (C8_no_empty_cell_under_a_key 0 [callCreateValue "a" "1"] "a") as (H1 & H2 & _).
  split; [exact H1|].
  apply (H2 (created "a" "1") 0%nat (mkValue "1" 1 None false) 1);
    [reflexivity|reflexivity|simpl; lia|right; reflexivity|reflexivity].
Defined.

(** ** The counter at its end *)

(** A storage whose only key "a" has been written [n] times. *)
Definition busy (n : Version) : St :=
  mkState [mkValue "1" n None false] [] (mkMemoryStorage {["a" := 0%nat]} n 0 false).


Section Wrap.
Local Opaque Get AddWatcher RemoveWatcher CheckAndSet Clear NewValue.

Lemma busy_cell n : cells (busy n) !! 0%nat = Some (mkValue "1" n None false).
Proof. reflexivity. Qed.







End Wrap.



Section Callbacks.
Implicit Types (σ : St).





End Callbacks.



(** ** The two sides of a version *)

(** The version a reply hands to the caller, if it carries one. *)
Definition carried (r : reply) : option OpaqueVersion :=
  match r with
  | returnedValue _ version _ => Some version
  | returnedVersion version _ => Some version
  | _ => None
  end.

Lemma version2OpaqueVersion_box v : version2OpaqueVersion v ≠ boxVersion 0.
Proof.
  unfold version2OpaqueVersion. destruct (v =? 0) eqn:Hv; [done|].
  intros [= ->]. done.
Qed.

Lemma carried_ok (σ σ' : St) r version :
  0 ≤ memorystorage.version (env σ) → reply_ok σ σ' r →
  carried r = Some version → version ≠ boxVersion 0.
Proof.
  intros H0 Hr Hc. destruct r; simplify_eq/=.
  - by destruct Hr.
  - destruct Hr as [->|(v & -> & Hv)]; [done|]. intros [= ->]. lia.
Qed.

Lemma history_carried fuel cs (w : world) :
  wf_world w →
  Forall (λ r, ∀ version, carried r = Some version → version ≠ boxVersion 0)
    (history (S fuel) cs w).2.
Proof.
  revert w. induction cs as [|c cs IH]; intros w Hw; simpl.
  { constructor. }
  destruct (perform_ok fuel c w Hw) as (Hw' & He & Hr).
  destruct (perform (S fuel) c w) as [w' r]. simpl in *.
  specialize (IH w' Hw').
  assert (Hc : ∀ version, carried r = Some version → version ≠ boxVersion 0).
  { intros version. apply (carried_ok (store w) (store w') r version); [|done].
    apply (wf_counter _ (ww_store _ Hw)). }
  destruct r; simpl;
    try (destruct (history (S fuel) cs w') as [w'' rs]; simpl in * ); by constructor.
Qed.

(** C10, amended: [version2OpaqueVersion] sends the internal version 0
    to the nil version and boxes every other version as it is;
    [opaqueVersion2Version] sends the nil version to 0 and undoes
    [version2OpaqueVersion] on every internal version;
    [version2OpaqueVersion] never yields a boxed 0; and in every
    sequence of calls of [GetValue], [WaitForValue], [CreateValue],
    [UpdateValue], [CreateOrUpdateValue], [DeleteValue] and [Close] on
    a fresh storage, no call returns a boxed 0 as a version. [Inspect]
    is not among them: it does not go through
    [version2OpaqueVersion]. *)
Theorem C10_version_boundary :
  version2OpaqueVersion 0 = nilVersion ∧
  (∀ v, v ≠ 0 → version2OpaqueVersion v = boxVersion v) ∧
  opaqueVersion2Version nilVersion = Ok 0 ∧
  (∀ v, opaqueVersion2Version (version2OpaqueVersion v) = Ok v) ∧
  (∀ v, version2OpaqueVersion v ≠ boxVersion 0) ∧
  (∀ fuel cs,
     Forall (λ r, ∀ version, carried r = Some version → version ≠ boxVersion 0)
       (history (S fuel) cs fresh).2).
Proof.
  split; [reflexivity|]. split.
  { intros v Hv. unfold version2OpaqueVersion.
    by destruct (Z.eqb_spec v 0). }
  split; [reflexivity|]. split.
  { intros v. unfold version2OpaqueVersion.
    destruct (Z.eqb_spec v 0) as [->|]; reflexivity. }
  split; [apply version2OpaqueVersion_box|].
  intros fuel cs. apply history_carried, wf_fresh.
Qed.

(** ** More on the cell *)

Section CellResults.
Context {E : Type}.
Implicit Types (σ : state E) (V : Value) (p w : nat).

(** What the methods of a cell return, read backwards: an error is
    [ErrValueRemoved], comes from a removed cell only, and comes with a
    state that has not changed. *)
Lemma Get_result σ p val ver err σ' :
  Get p σ = Ok ((val, ver, err), σ') →
  σ' = σ ∧
  ∃ V, cells σ !! p = Some V ∧
       ((Value_isRemoved V = true ∧ err = ErrValueRemoved ∧ val = "" ∧ ver = 0) ∨
        (Value_isRemoved V = false ∧ err = nil ∧ val = Value_v V ∧ ver = Value_version V)).
Proof.
  unfold Get, deref. intros H.
  cbv [mbind M_bind mret M_ret ret panic] in H.
  destruct (cells σ !! p) as [V|] eqn:HV; [|done].
  destruct (Value_isRemoved V) eqn:Hr; simplify_eq/=; (split; [done|]); exists V; split; auto 10.
Qed.

Lemma AddWatcher_result σ p wrapped err σ' :
  AddWatcher p σ = Ok ((wrapped, err), σ') →
  ∃ V, cells σ !! p = Some V ∧
       ((Value_isRemoved V = true ∧ err = ErrValueRemoved ∧ wrapped = None ∧ σ' = σ) ∨
        (Value_isRemoved V = false ∧ err = nil ∧ wrapped = Some (length (wcells σ)))).
Proof.
  unfold AddWatcher, deref, Init, assign. intros H.
  cbv [mbind M_bind mret M_ret ret panic] in H.
  destruct (cells σ !! p) as [V|] eqn:HV; [|done]. exists V. split; [done|].
  destruct (Value_isRemoved V) eqn:Hr; simplify_eq/=; auto 10.
Qed.

Lemma RemoveWatcher_result σ p wrapped (remover : M E unit) err σ' :
  RemoveWatcher p wrapped remover σ = Ok (err, σ') →
  ∃ V, cells σ !! p = Some V ∧
       ((Value_isRemoved V = true ∧ err = ErrValueRemoved ∧ σ' = σ) ∨
        (Value_isRemoved V = false ∧ err = nil)).
Proof.
  unfold RemoveWatcher, remove, deref, assign. intros H.
  cbv [mbind M_bind mret M_ret ret panic] in H.
  destruct (cells σ !! p) as [V|] eqn:HV; [|done]. exists V. split; [done|].
  destruct (Value_isRemoved V) eqn:Hr; [simplify_eq/=; auto|].
  right. split; [done|]. simpl in H. repeat case_match; by simplify_eq/=.
Qed.

Lemma CheckAndSet_result {L} σ p
    (cb : Version → L → M E (string * Version * bool * L)) c ok err c' σ' :
  CheckAndSet p cb c σ = Ok ((ok, err, c'), σ') →
  ∃ V, cells σ !! p = Some V ∧
       ((Value_isRemoved V = true ∧ err = ErrValueRemoved ∧ ok = false ∧ c' = c ∧ σ' = σ) ∨
        (Value_isRemoved V = false ∧ err = nil)).
Proof.
  unfold CheckAndSet, deref. intros H.
  cbv [mbind M_bind mret M_ret ret panic] in H.
  destruct (cells σ !! p) as [V|] eqn:HV; [|done]. exists V. split; [done|].
  destruct (Value_isRemoved V) eqn:Hr; [simplify_eq/=; auto 10|].
  right. split; [done|]. simpl in H. repeat case_match; by simplify_eq/=.
Qed.

Lemma Clear_result σ p version (remover : M E unit) ok err σ' :
  Clear p version remover σ = Ok ((ok, err), σ') →
  ∃ V, cells σ !! p = Some V ∧
       ((Value_isRemoved V = true ∧ err = ErrValueRemoved ∧ ok = false ∧ σ' = σ) ∨
        (Value_isRemoved V = false ∧ err = nil)).
Proof.
  unfold Clear, remove, deref, assign. intros H.
  cbv [mbind M_bind mret M_ret ret panic] in H.
  destruct (cells σ !! p) as [V|] eqn:HV; [|done]. exists V. split; [done|].
  destruct (Value_isRemoved V) eqn:Hr; [simplify_eq/=; auto 10|].
  right. split; [done|]. simpl in H. repeat case_match; by simplify_eq/=.
Qed.

End CellResults.

(** On a removed cell every method fails with [ErrValueRemoved] and
    leaves the heap as it is: [CheckAndSet] does not call its callback,
    [RemoveWatcher] and [Clear] do not call the remover. *)
Theorem removed_cell_rejects_every_method {E L} (σ : state E) (p : nat) (V : Value)
    (wrapped : Watcher) (remover : M E unit)
    (cb : Version → L → M E (string * Version * bool * L)) (c : L) (version : Version) :
  cells σ !! p = Some V → Value_isRemoved V = true →
  Get p σ = Ok (("", 0, ErrValueRemoved), σ) ∧
  AddWatcher p σ = Ok ((None, ErrValueRemoved), σ) ∧
  RemoveWatcher p wrapped remover σ = Ok (ErrValueRemoved, σ) ∧
  CheckAndSet p cb c σ = Ok ((false, ErrValueRemoved, c), σ) ∧
  Clear p version remover σ = Ok ((false, ErrValueRemoved), σ).
Proof.
  intros HV Hr.
  unfold Get, AddWatcher, RemoveWatcher, CheckAndSet, Clear, deref.
  cbv [mbind M_bind mret M_ret ret]. rewrite HV, Hr. done.
Qed.

Lemma removed_cell_rejects_every_method_witness :
  Get 0 deleted = Ok (("", 0, ErrValueRemoved), deleted) ∧
  AddWatcher 0 deleted = Ok ((None, ErrValueRemoved), deleted) ∧
  RemoveWatcher 0 (Some 0%nat) (values_Delete "a") deleted = Ok (ErrValueRemoved, deleted) ∧
  CheckAndSet 0 (tryCreateValue_callback "x" 3) tt deleted =
    Ok ((false, ErrValueRemoved, tt), deleted) ∧
  Clear 0 0 (values_Delete "a") deleted = Ok ((false, ErrValueRemoved), deleted).
Proof.
  apply (removed_cell_rejects_every_method deleted 0 (mkValue "" 0 None true));
    reflexivity.
Defined.

(** The other way round: when a method of a cell returns an error, the
    error is [ErrValueRemoved], the cell was removed before the call,
    and the call has changed nothing. No method returns another error,
    whatever the callback and the remover do. *)
Theorem error_only_from_removed_cell {E L} (σ σ' : state E) (p : nat)
    (wrapped : Watcher) (remover : M E unit)
    (cb : Version → L → M E (string * Version * bool * L)) (c : L) (version : Version) :
  let removed := ∃ V, cells σ !! p = Some V ∧ Value_isRemoved V = true in
  (∀ val ver err, Get p σ = Ok ((val, ver, err), σ') → err ≠ nil →
     err = ErrValueRemoved ∧ σ' = σ ∧ removed) ∧
  (∀ w err, AddWatcher p σ = Ok ((w, err), σ') → err ≠ nil →
     err = ErrValueRemoved ∧ σ' = σ ∧ removed) ∧
  (∀ err, RemoveWatcher p wrapped remover σ = Ok (err, σ') → err ≠ nil →
     err = ErrValueRemoved ∧ σ' = σ ∧ removed) ∧
  (∀ ok err c', CheckAndSet p cb c σ = Ok ((ok, err, c'), σ') → err ≠ nil →
     err = ErrValueRemoved ∧ σ' = σ ∧ removed ∧ ok = false ∧ c' = c) ∧
  (∀ ok err, Clear p version remover σ = Ok ((ok, err), σ') → err ≠ nil →
     err = ErrValueRemoved ∧ σ' = σ ∧ removed ∧ ok = false).
Proof.
  cbv zeta. repeat split.
  all: try (intros ??? H Hne); try (intros ?? H Hne); try (intros ? H Hne).
  - apply Get_result in H as (-> & V & HV & [(? & -> & _)|(? & -> & _)]); done.
  - apply Get_result in H as (-> & V & HV & [(? & -> & _)|(? & -> & _)]); done.
  - apply Get_result in H as (-> & V & HV & [(? & -> & _)|(? & -> & _)]); [eauto|done].
  - apply AddWatcher_result in H as (V & HV & [(? & -> & _ & ->)|(? & -> & _)]); done.
  - apply AddWatcher_result in H as (V & HV & [(? & -> & _ & ->)|(? & -> & _)]); done.
  - apply AddWatcher_result in H as (V & HV & [(? & -> & _ & ->)|(? & -> & _)]);
      [eauto|done].
  - apply RemoveWatcher_result in H as (V & HV & [(? & -> & ->)|(? & ->)]); done.
  - apply RemoveWatcher_result in H as (V & HV & [(? & -> & ->)|(? & ->)]); done.
  - apply RemoveWatcher_result in H as (V & HV & [(? & -> & ->)|(? & ->)]); [eauto|done].
  - apply CheckAndSet_result in H as (V & HV & [(? & -> & -> & -> & ->)|(? & ->)]); done.
  - apply CheckAndSet_result in H as (V & HV & [(? & -> & -> & -> & ->)|(? & ->)]); done.
  - apply CheckAndSet_result in H as (V & HV & [(? & -> & -> & -> & ->)|(? & ->)]);
      [eauto|done].
  - apply CheckAndSet_result in H as (V & HV & [(? & -> & -> & -> & ->)|(? & ->)]); done.
  - apply CheckAndSet_result in H as (V & HV & [(? & -> & -> & -> & ->)|(? & ->)]); done.
  - apply Clear_result in H as (V & HV & [(? & -> & -> & ->)|(? & ->)]); done.
  - apply Clear_result in H as (V & HV & [(? & -> & -> & ->)|(? & ->)]); done.
  - apply Clear_result in H as (V & HV & [(? & -> & -> & ->)|(? & ->)]); [eauto|done].
  - apply Clear_result in H as (V & HV & [(? & -> & -> & ->)|(? & ->)]); done.
Qed.

(** A watcher fires once: [FireEvent] on a watcher that has been fired
    closes a closed channel, which panics. *)
Theorem FireEvent_twice_panics {E} (σ σ' : state E) (w : nat) (args args' : EventArgs) :
  FireEvent w args σ = Ok (tt, σ') →
  FireEvent w args' σ' = Panic "close of closed channel".
Proof.
  unfold FireEvent. intros H.
  destruct (wcells σ !! w) as [c|] eqn:Hw; [|done].
  destruct (event_closed c); [done|]. simplify_eq/=.
  rewrite list_lookup_insert_eq; [done|]. by eapply lookup_lt_Some.
Qed.

Lemma FireEvent_twice_panics_witness :
  FireEvent 0 (mkEventArgs "x" 1) watching =
    Ok (tt, upd_wcells [mkWatcher true (mkEventArgs "x" 1)] watching) ∧
  FireEvent 0 (mkEventArgs "y" 2)
    (upd_wcells [mkWatcher true (mkEventArgs "x" 1)] watching) =
    Panic "close of closed channel".
Proof.
  split; [reflexivity|].
  apply (FireEvent_twice_panics watching _ 0%nat (mkEventArgs "x" 1)). reflexivity.
Defined.

Section CellExtras.
Implicit Types (σ : St) (V : Value) (p w : nat) (key : string).

Lemma RemoveWatcher_unwatched σ p V wrapped (remover : Act unit) :
  cells σ !! p = Some V → Value_isRemoved V = false →
  wrapped = None ∨ Value_watchers V = None →
  RemoveWatcher p wrapped remover σ = Ok (nil, σ).
Proof.
  intros HV Hr Hn. unfold RemoveWatcher, deref. unfold_bind. rewrite HV, Hr.
  destruct Hn as [->| ->]; [done|]. by destruct wrapped.
Qed.

Lemma upd_cell_lookup σ p V V' : cells σ !! p = Some V → cells (upd_cell p V' σ) !! p = Some V'.
Proof. intros HV. simpl. apply list_lookup_insert_eq. by eapply lookup_lt_Some. Qed.

Lemma fresh_watcher σ p V :
  wf σ → cells σ !! p = Some V → length (wcells σ) ∉ watchers_of V.
Proof.
  intros Hwf HV Hin.
  assert (length (wcells σ) < length (wcells σ))%nat; [|lia].
  apply (attached_lt σ p); [done|]. by exists V.
Qed.

(** The watcher that [AddWatcher] has just attached to a cell with a
    value is taken off again by [RemoveWatcher], and the cell is as it
    was before the two calls. *)
Lemma RemoveWatcher_added σ p V (remover : Act unit) :
  wf σ → cells σ !! p = Some V → Value_isRemoved V = false → Value_version V ≠ 0 →
  RemoveWatcher p (Some (length (wcells σ))) remover (attach p V σ) =
    Ok (nil, mkState (cells σ) (wcells σ ++ [mkWatcher false (mkEventArgs "" 0)]) (env σ)).
Proof.
  intros Hwf HV Hr Hv.
  pose proof (fresh_watcher σ p V Hwf HV) as Hfresh.
  pose proof (wf_nonempty σ Hwf p V HV) as Hne.
  unfold attach, watchers_of in *.
  set (n := length (wcells σ)) in *.
  set (σ1 := mkState _ _ _).
  assert (H1 : cells σ1 !! p =
                 Some (with_watchers V (Some ({[n]} ∪ default ∅ (Value_watchers V))))).
  { apply list_lookup_insert_eq. by eapply lookup_lt_Some. }
  destruct (Value_watchers V) as [ws|] eqn:Hws; simpl in H1, Hfresh.
  - rewrite (RemoveWatcher_some σ1 p (with_watchers V (Some ({[n]} ∪ ws))) ({[n]} ∪ ws) n);
      [|done|done|done|set_solver|].
    2:{ intros He. apply Hne. f_equal. apply leibniz_equiv. set_solver. }
    f_equal. f_equal. unfold upd_cell, σ1. simpl. f_equal.
    rewrite list_insert_insert_eq.
    replace (({[n]} ∪ ws) ∖ {[n]}) with ws by (apply leibniz_equiv; set_solver).
    apply list_insert_id. rewrite HV. f_equal. destruct V. simpl in *. by subst.
  - rewrite (RemoveWatcher_last_present σ1 p (with_watchers V (Some ({[n]} ∪ ∅)))
               ({[n]} ∪ ∅) n);
      [|done|done|done|set_solver|apply leibniz_equiv; set_solver|done].
    f_equal. f_equal. unfold upd_cell, σ1. simpl. f_equal.
    rewrite list_insert_insert_eq.
    apply list_insert_id. rewrite HV. f_equal. destruct V. simpl in *. by subst.
Qed.

End CellExtras.

(** [RemoveWatcher] twice: whatever the first call did, a second call
    with the same watcher changes nothing any more. *)
Theorem RemoveWatcher_again (σ σ1 : St) (p : nat) (wrapped : Watcher) (key : string)
    (e : error) :
  RemoveWatcher p wrapped (values_Delete key) σ = Ok (e, σ1) →
  ∃ e', RemoveWatcher p wrapped (values_Delete key) σ1 = Ok (e', σ1).
Proof.
  intros H.
  destruct (RemoveWatcher_result _ _ _ _ _ _ H) as (V & HV & [(Hr & -> & ->)|(Hr & ->)]).
  { eauto. }
  destruct wrapped as [w|]; last first.
  { rewrite (RemoveWatcher_unwatched σ p V) in H by auto. simplify_eq.
    exists nil. by apply (RemoveWatcher_unwatched σ1 p V); auto. }
  destruct (Value_watchers V) as [ws|] eqn:Hws; last first.
  { rewrite (RemoveWatcher_unwatched σ p V) in H by auto. simplify_eq.
    exists nil. by apply (RemoveWatcher_unwatched σ1 p V); auto. }
  destruct (decide (w ∈ ws)) as [Hin|Hnin]; last first.
  { assert (Hw : w ∉ watchers_of V) by (unfold watchers_of; by rewrite Hws).
    rewrite (RemoveWatcher_absent σ p V) in H by done. simplify_eq.
    exists nil. by apply (RemoveWatcher_absent σ1 p V). }
  destruct (decide (ws ∖ {[w]} = ∅)) as [He|Hne].
  - destruct (decide (Value_version V = 0)) as [Hz|Hnz].
    + rewrite (RemoveWatcher_last_absent σ p V ws) in H by done. simplify_eq.
      exists ErrValueRemoved.
      apply (RemoveWatcher_removed _ p (mkValue (Value_v V) 0 None true)); [|done].
      simpl. apply list_lookup_insert_eq. by eapply lookup_lt_Some.
    + rewrite (RemoveWatcher_last_present σ p V ws) in H by done. simplify_eq.
      exists nil.
      apply (RemoveWatcher_unwatched _ p (with_watchers V None)); [|done|by right].
      by eapply upd_cell_lookup.
  - rewrite (RemoveWatcher_some σ p V ws) in H by done. simplify_eq.
    exists nil.
    apply (RemoveWatcher_absent _ p (with_watchers V (Some (ws ∖ {[w]}))));
      [by eapply upd_cell_lookup|done|].
    unfold watchers_of. simpl. set_solver.
Qed.

Lemma RemoveWatcher_again_witness :
  RemoveWatcher 0 (Some 0%nat) (values_Delete "a") watching =
    Ok (nil, tombstone "a" 0 "" watching) ∧
  ∃ e', RemoveWatcher 0 (Some 0%nat) (values_Delete "a") (tombstone "a" 0 "" watching) =
          Ok (e', tombstone "a" 0 "" watching).
Proof.
  assert (H : RemoveWatcher 0 (Some 0%nat) (values_Delete "a") watching =
                Ok (nil, tombstone "a" 0 "" watching)).
  { apply (RemoveWatcher_last_absent watching 0%nat
             (mkValue "" 0 (Some {[0%nat]}) false) {[0%nat]} 0%nat "a");
      [reflexivity|reflexivity|reflexivity|set_solver|set_solver|reflexivity]. }
  split; [exact H|].
  exact (RemoveWatcher_again watching _ 0%nat (Some 0%nat) "a" nil H).
Defined.

(** A watcher added to a cell that holds a value and removed again
    leaves the cell as it was: of the two calls only the watcher cell
    that [AddWatcher] allocated remains, and the remover is not run. *)
Theorem AddWatcher_then_RemoveWatcher (σ : St) (p : nat) (V : Value) (remover : Act unit) :
  wf σ → cells σ !! p = Some V → Value_isRemoved V = false → Value_version V ≠ 0 →
  (x ← AddWatcher p; RemoveWatcher p x.1 remover) σ =
    Ok (nil, mkState (cells σ) (wcells σ ++ [mkWatcher false (mkEventArgs "" 0)]) (env σ)).
Proof.
  intros Hwf HV Hr Hv.
  unfold mbind at 1, M_bind. rewrite (AddWatcher_exec σ p V) by done. cbn [fst].
  by apply (RemoveWatcher_added σ p V).
Qed.

Lemma AddWatcher_then_RemoveWatcher_witness :
  (x ← AddWatcher 0; RemoveWatcher 0 x.1 (values_Delete "a")) (created "a" "1") =
    Ok (nil, mkState (cells (created "a" "1"))
               (wcells (created "a" "1") ++ [mkWatcher false (mkEventArgs "" 0)])
               (env (created "a" "1"))).
Proof.
  apply (AddWatcher_then_RemoveWatcher (created "a" "1") 0%nat (mkValue "1" 1 None false));
    [apply wf_created|reflexivity|reflexivity|simpl; lia].
Defined.

(** A write through [CheckAndSet] puts the value and the version the
    callback returned into the cell, takes every watcher off the cell
    and fires each of them with that value and version; the watchers
    of other cells and the other cells stay as they are. The callback
    may change the storage (it draws versions) but not the heap. *)
Theorem CheckAndSet_fires_the_watchers {L} (σ σ1 : St) (p : nat) (V : Value)
    (cb : Version → L → Act (string * Version * bool * L)) (c c' : L)
    (vv : string) (ver : Version) :
  cells σ !! p = Some V → Value_isRemoved V = false →
  cb (Value_version V) c σ = Ok ((vv, ver, true, c'), σ1) →
  cells σ1 = cells σ → wcells σ1 = wcells σ → ver ≠ 0 →
  (∀ w, w ∈ watchers_of V → unfired (wcells σ) w) →
  ∃ σ', CheckAndSet p cb c σ = Ok ((true, nil, c'), σ') ∧
        env σ' = env σ1 ∧
        cells σ' !! p = Some (mkValue vv ver None false) ∧
        (∀ q, q ≠ p → cells σ' !! q = cells σ !! q) ∧
        (∀ w, w ∈ watchers_of V →
              wcells σ' !! w = Some (mkWatcher true (mkEventArgs vv ver))) ∧
        (∀ w, w ∉ watchers_of V → wcells σ' !! w = wcells σ !! w).
Proof.
  intros HV Hr Hcb Hc Hw Hver Hunf.
  eexists. split; [by apply (CheckAndSet_applied σ σ1 p V cb c vv ver c')|].
  simpl. split; [done|]. split; [|split; [|split]].
  - apply list_lookup_insert_eq. by eapply lookup_lt_Some.
  - intros q Hq. by apply list_lookup_insert_ne.
  - intros w Hin. apply fired_lookup_in; [by apply elem_of_elements|].
    destruct (Hunf w Hin) as (wc & Hwc & _). by eapply lookup_lt_Some.
  - intros w Hnin. apply fired_lookup_notin. by rewrite elem_of_elements.
Qed.

Lemma CheckAndSet_fires_the_watchers_witness :
  ∃ σ', CheckAndSet 0 (tryCreateOrUpdateValue_callback "x" 1 0) 0 watching =
          Ok ((true, nil, 0), σ') ∧
        env σ' = env watching ∧
        cells σ' !! 0%nat = Some (mkValue "x" 1 None false) ∧
        (∀ q, q ≠ 0%nat → cells σ' !! q = cells watching !! q) ∧
        (∀ w, w ∈ watchers_of (mkValue "" 0 (Some {[0%nat]}) false) →
              wcells σ' !! w = Some (mkWatcher true (mkEventArgs "x" 1))) ∧
        (∀ w, w ∉ watchers_of (mkValue "" 0 (Some {[0%nat]}) false) →
              wcells σ' !! w = wcells watching !! w).
Proof.
  apply (CheckAndSet_fires_the_watchers watching watching 0%nat
           (mkValue "" 0 (Some {[0%nat]}) false));
    [reflexivity|reflexivity|reflexivity|reflexivity|reflexivity|lia|].
  intros w Hw. unfold watchers_of in Hw. simpl in Hw. apply elem_of_singleton in Hw as ->.
  exists (mkWatcher false (mkEventArgs "" 0)). split; reflexivity.
Defined.

(** [Clear] does not touch the watchers: whatever it returns, no
    watcher cell has changed (none has been fired) and the cell has the
    set of watchers it had. *)
Theorem Clear_keeps_the_watchers (σ σ' : St) (p : nat) (version : Version)
    (key : string) (ok : bool) (err : error) :
  Clear p version (values_Delete key) σ = Ok ((ok, err), σ') →
  wcells σ' = wcells σ ∧
  ∃ V V', cells σ !! p = Some V ∧ cells σ' !! p = Some V' ∧
          Value_watchers V' = Value_watchers V.
Proof.
  intros H.
  destruct (Clear_result _ _ _ _ _ _ _ H) as (V & HV & [(Hr & -> & -> & ->)|(Hr & ->)]).
  { split; [done|]. by exists V, V. }
  assert (Hp : (p < length (cells σ))%nat) by by eapply lookup_lt_Some.
  destruct (decide (Value_version V = 0 ∨ (version ≠ 0 ∧ Value_version V ≠ version)))
    as [Href|Hgo].
  { rewrite (Clear_refused σ p V) in H by done. simplify_eq.
    split; [done|]. by exists V, V. }
  assert (Hv : Value_version V ≠ 0) by tauto.
  assert (Hm : version = 0 ∨ Value_version V = version).
  { destruct (decide (version = 0)); [by left|right].
    destruct (decide (Value_version V = version)); [done|]. tauto. }
  destruct (Value_watchers V) as [ws|] eqn:Hws.
  - rewrite (Clear_kept σ p V ws) in H by done. simplify_eq.
    split; [done|]. exists V, (with_v_version V "" 0). split; [done|]. split; [|done].
    by eapply upd_cell_lookup.
  - rewrite (Clear_dropped σ p V) in H by done. simplify_eq.
    split; [done|]. exists V, (mkValue "" 0 None true). split; [done|]. split; [|done].
    simpl. by apply list_lookup_insert_eq.
Qed.

Lemma Clear_keeps_the_watchers_witness :
  wcells (upd_cell 0 (mkValue "" 0 (Some {[0%nat]}) false) watching) = wcells watching ∧
  ∃ V V', cells (upd_cell 0 (mkValue "7" 7 (Some {[0%nat]}) false) watching) !! 0%nat =
            Some V ∧
          cells (upd_cell 0 (mkValue "" 0 (Some {[0%nat]}) false) watching) !! 0%nat =
            Some V' ∧
          Value_watchers V' = Value_watchers V.
Proof.
  apply (Clear_keeps_the_watchers
           (upd_cell 0 (mkValue "7" 7 (Some {[0%nat]}) false) watching)
           (upd_cell 0 (mkValue "" 0 (Some {[0%nat]}) false) watching)
           0%nat 7 "a" true nil).
  reflexivity.
Defined.

(** ** The test helpers of the cell *)

(** A cell made by [NewValue] reads back as the value and the version
    it was made with, has no watcher and is not removed. *)
Theorem NewValue_reads_back {E} (σ : state E) (vv : string) (version : Version) :
  version ≠ 0 →
  (p ← NewValue vv version; r ← Get p; d ← Value_Inspect p; ret (p, r, d)) σ =
    Ok ((length (cells σ), (vv, version, nil), mkValueDetails vv version 0 false),
        mkState (cells σ ++ [mkValue vv version None false]) (wcells σ) (env σ)).
Proof.
  intros Hv.
  assert (Hl : (cells σ ++ [mkValue vv version None false])%list !! length (cells σ) =
                 Some (mkValue vv version None false)) by by apply list_lookup_middle.
  unfold mbind at 1, M_bind at 1. rewrite NewValue_exec by done.
  unfold Get, Value_Inspect, deref. cbv [mbind M_bind mret M_ret ret]. simpl.
  rewrite Hl. simpl. by rewrite Hl.
Qed.

Lemma NewValue_reads_back_witness :
  (p ← NewValue "x" 5; r ← Get p; d ← Value_Inspect p; ret (p, r, d)) New =
    Ok ((0%nat, ("x", 5, nil), mkValueDetails "x" 5 0 false),
        mkState [mkValue "x" 5 None false] [] (env New)).
Proof. apply (NewValue_reads_back New "x" 5). lia. Defined.

(** [Set] writes the value and the version into the cell whether or
    not the cell is removed, and, unlike [CheckAndSet], leaves the
    watchers attached and fires none of them. *)
Theorem Value_Set_keeps_the_watchers {E} (σ : state E) (p : nat) (V : Value)
    (vv : string) (version : Version) :
  cells σ !! p = Some V → version ≠ 0 →
  ∃ σ', Value_Set p vv version σ = Ok (tt, σ') ∧
        Value_Inspect p σ' =
          Ok (mkValueDetails vv version (size (watchers_of V)) (Value_isRemoved V), σ') ∧
        wcells σ' = wcells σ ∧ env σ' = env σ ∧
        ∀ q, q ≠ p → cells σ' !! q = cells σ !! q.
Proof.
  intros HV Hv.
  assert (Hp : (p < length (cells σ))%nat) by by eapply lookup_lt_Some.
  eexists. split; [by apply (set_exec σ p V)|].
  unfold Value_Inspect, deref. cbv [mbind M_bind mret M_ret ret]. simpl.
  rewrite list_lookup_insert_eq by done. simpl.
  split.
  { unfold watchers_of. by destruct (Value_watchers V). }
  repeat split. intros q Hq. by apply list_lookup_insert_ne.
Qed.

Lemma Value_Set_keeps_the_watchers_witness :
  ∃ σ', Value_Set 0 "x" 9 watching = Ok (tt, σ') ∧
        Value_Inspect 0 σ' =
          Ok (mkValueDetails "x" 9
                (size (watchers_of (mkValue "" 0 (Some {[0%nat]}) false)))
                (Value_isRemoved (mkValue "" 0 (Some {[0%nat]}) false)), σ') ∧
        wcells σ' = wcells watching ∧ env σ' = env watching ∧
        ∀ q, q ≠ 0%nat → cells σ' !! q = cells watching !! q.
Proof.
  apply (Value_Set_keeps_the_watchers watching 0%nat (mkValue "" 0 (Some {[0%nat]}) false));
    [reflexivity|lia].
Defined.

(** [Remove] marks the cell removed and changes nothing else: the
    value, the version and the watchers stay, no watcher is fired, and
    from then on [Get] fails with [ErrValueRemoved]. *)
Theorem Value_Remove_marks_the_cell {E} (σ : state E) (p : nat) (V : Value) :
  cells σ !! p = Some V →
  ∃ σ', Value_Remove p σ = Ok (tt, σ') ∧
        Value_Inspect p σ' =
          Ok (mkValueDetails (Value_v V) (Value_version V) (size (watchers_of V)) true, σ') ∧
        Get p σ' = Ok (("", 0, ErrValueRemoved), σ') ∧
        wcells σ' = wcells σ ∧ env σ' = env σ ∧
        ∀ q, q ≠ p → cells σ' !! q = cells σ !! q.
Proof.
  intros HV.
  assert (Hp : (p < length (cells σ))%nat) by by eapply lookup_lt_Some.
  exists (mkState (<[p := with_isRemoved V true]> (cells σ)) (wcells σ) (env σ)).
  unfold Value_Remove, remove, Value_Inspect, Get, deref, assign.
  cbv [mbind M_bind mret M_ret ret]. simpl. rewrite HV. simpl.
  rewrite list_lookup_insert_eq by done. simpl.
  split; [done|]. split.
  { unfold watchers_of. by destruct (Value_watchers V). }
  repeat split. intros q Hq. by apply list_lookup_insert_ne.
Qed.

Lemma Value_Remove_marks_the_cell_witness :
  ∃ σ', Value_Remove 0 watching = Ok (tt, σ') ∧
        Value_Inspect 0 σ' =
          Ok (mkValueDetails "" 0 (size (watchers_of (mkValue "" 0 (Some {[0%nat]}) false)))
                true, σ') ∧
        Get 0 σ' = Ok (("", 0, ErrValueRemoved), σ') ∧
        wcells σ' = wcells watching ∧ env σ' = env watching ∧
        ∀ q, q ≠ 0%nat → cells σ' !! q = cells watching !! q.
Proof.
  apply (Value_Remove_marks_the_cell watching 0%nat (mkValue "" 0 (Some {[0%nat]}) false)).
  reflexivity.
Defined.

(** [AddWatcher] on a cell that is not removed attaches a watcher that
    has not fired, and [Inspect] counts one watcher more than before. *)
Theorem AddWatcher_counts (σ : St) (p : nat) (V : Value) :
  wf σ → cells σ !! p = Some V → Value_isRemoved V = false →
  ∃ w σ', AddWatcher p σ = Ok ((Some w, nil), σ') ∧
          Fired (Some w) σ' = false ∧
          Value_Inspect p σ' =
            Ok (mkValueDetails (Value_v V) (Value_version V) (S (size (watchers_of V))) false,
                σ').
Proof.
  intros Hwf HV Hr. pose proof (fresh_watcher σ p V Hwf HV) as Hfresh.
  exists (length (wcells σ)). eexists. split; [by apply (AddWatcher_exec σ p V)|].
  split.
  - unfold Fired. simpl.
    by rewrite (list_lookup_middle (wcells σ) [] _ (length (wcells σ)) eq_refl).
  - unfold Value_Inspect, deref. cbv [mbind M_bind mret M_ret ret]. simpl.
    rewrite list_lookup_insert_eq by by eapply lookup_lt_Some.
    simpl. rewrite Hr. do 3 f_equal.
    rewrite size_union by (unfold watchers_of in Hfresh; set_solver).
    by rewrite size_singleton.
Qed.

Lemma AddWatcher_counts_witness :
  ∃ w σ', AddWatcher 0 watching = Ok ((Some w, nil), σ') ∧
          Fired (Some w) σ' = false ∧
          Value_Inspect 0 σ' =
            Ok (mkValueDetails "" 0
                  (S (size (watchers_of (mkValue "" 0 (Some {[0%nat]}) false)))) false, σ').
Proof.
  apply (AddWatcher_counts watching 0%nat (mkValue "" 0 (Some {[0%nat]}) false));
    [apply wf_watching|reflexivity|reflexivity].
Defined.

(** ** [Inspect] *)

Section InspectFacts.
Implicit Types (σ : St) (V : Value) (p : nat) (key : string).
Local Opaque Get.

(** What [Inspect] notes of the cell at [p]. *)
Definition detail σ p : versionedkv.ValueDetails :=
  match cells σ !! p with
  | Some V =>
      if Value_isRemoved V then versionedkv.mkValueDetails "" (boxVersion 0)
      else versionedkv.mkValueDetails (Value_v V) (boxVersion (Value_version V))
  | None => versionedkv.mkValueDetails "" (boxVersion 0)
  end.

Definition collect σ (acc : option (gmap string versionedkv.ValueDetails))
    (entries : list (string * nat)) : option (gmap string versionedkv.ValueDetails) :=
  foldl (λ acc '(key, p), Some (<[key := detail σ p]> (default ∅ acc))) acc entries.

Lemma Inspect_callback_run σ entries acc :
  (∀ key p, (key, p) ∈ entries → is_Some (cells σ !! p)) →
  run (Inspect_callback entries acc) σ = Done (collect σ acc entries) σ.
Proof.
  revert acc. induction entries as [|[key p] entries IH]; intros acc Hc; [done|].
  destruct (Hc key p) as [V HV]; [by left|].
  simpl. rewrite (Get_exec σ p V HV).
  replace (collect σ acc ((key, p) :: entries))
    with (collect σ (Some (<[key := detail σ p]> (default ∅ acc))) entries) by done.
  unfold detail. rewrite HV.
  destruct (Value_isRemoved V); simpl; apply IH; intros k q Hin; apply (Hc k q); by right.
Qed.

Lemma collect_lookup σ entries acc key :
  NoDup entries.*1 →
  default ∅ (collect σ acc entries) !! key =
    match (list_to_map entries : gmap string nat) !! key with
    | Some p => Some (detail σ p)
    | None => default ∅ acc !! key
    end.
Proof.
  revert acc. induction entries as [|[k p] entries IH]; intros acc Hnd; [done|].
  apply NoDup_cons in Hnd as [Hk Hnd].
  replace (collect σ acc ((k, p) :: entries))
    with (collect σ (Some (<[k := detail σ p]> (default ∅ acc))) entries) by done.
  rewrite IH by done. simpl.
  destruct (decide (key = k)) as [->|Hne].
  - rewrite (not_elem_of_list_to_map_1 entries k) by done.
    by rewrite !lookup_insert_eq.
  - by rewrite !lookup_insert_ne.
Qed.

Lemma collect_None σ entries : collect σ None entries = None ↔ entries = [].
Proof.
  split; [|by intros ->].
  destruct entries as [|[k p] entries]; [done|]. intros H. exfalso.
  change (collect σ None ((k, p) :: entries))
    with (collect σ (Some (<[k := detail σ p]> ∅)) entries) in H.
  revert H. generalize (<[k := detail σ p]> (∅ : gmap string versionedkv.ValueDetails)).
  induction entries as [|[k' p'] entries IH]; intros m H; [done|].
  by apply (IH (<[k' := detail σ p']> m)).
Qed.

Lemma Inspect_run σ :
  wf σ → open σ →
  run Inspect σ =
    Done (versionedkv.mkStorageDetails
            (collect σ None (map_to_list (values (env σ)))) false) σ.
Proof.
  intros Hwf Ho. unfold Inspect. simpl. rewrite Ho. simpl.
  rewrite run_bind, Inspect_callback_run; [done|].
  intros key p Hin. apply elem_of_map_to_list in Hin.
  destruct (wf_values σ Hwf key p Hin) as (V & HV & _). by exists V.
Qed.

Lemma Inspect_lookup σ key :
  wf σ →
  default ∅ (collect σ None (map_to_list (values (env σ)))) !! key =
    (λ V, versionedkv.mkValueDetails (Value_v V) (boxVersion (Value_version V)))
      <$> cell_of σ key.
Proof.
  intros Hwf. rewrite collect_lookup by apply NoDup_fst_map_to_list.
  rewrite list_to_map_to_list. unfold cell_of.
  destruct (values (env σ) !! key) as [p|] eqn:Hk; simpl; [|done].
  destruct (wf_values σ Hwf key p Hk) as (V & HV & Hr).
  unfold detail. by rewrite HV, Hr.
Qed.

End InspectFacts.

(** C10, as stated, fails: [Inspect] is an operation of the storage
    too, and it stores the internal version of each cell as it is. On a
    fresh storage, once [WaitForValue(ctx, "a", nil)] has started to
    wait, [Inspect] reports for "a" a version that is not nil and boxes
    the internal 0. *)
Lemma C10_Inspect_returns_boxed_zero :
  let σ := store (perform 1 (callWaitForValue Background "a" nilVersion) fresh).1 in
  (perform 1 (callWaitForValue Background "a" nilVersion) fresh).2 = waiting ∧
  ∃ d, run Inspect σ = Done d σ ∧
       default ∅ (versionedkv.Values d) !! "a" =
         Some (versionedkv.mkValueDetails "" (boxVersion 0)) ∧
       boxVersion 0 ≠ nilVersion.
Proof.
  cbv zeta. split; [vm_compute; reflexivity|].
  assert (Hσ : store (perform 1 (callWaitForValue Background "a" nilVersion) fresh).1 =
               watching) by (vm_compute; reflexivity).
  rewrite Hσ.
  exists (versionedkv.mkStorageDetails
            (collect watching None (map_to_list (values (env watching)))) false).
  split; [apply Inspect_run; [apply wf_watching|reflexivity]|].
  split; [|done].
  cbn [versionedkv.Values]. by rewrite (Inspect_lookup watching "a" wf_watching).
Qed.

(** [Inspect] on a storage in a state of the invariant changes nothing.
    On an open storage it reports, for each key of the map and for no
    other key, the value and the version of the cell under the key,
    and it reports the nil map when there is no key; on a closed
    storage it reports [IsClosed] and the nil map. *)
Theorem Inspect_lists_the_cells (σ : St) :
  wf σ →
  (open σ →
   ∃ d, run Inspect σ = Done d σ ∧
        versionedkv.IsClosed d = false ∧
        (versionedkv.Values d = None ↔ values (env σ) = ∅) ∧
        ∀ key, default ∅ (versionedkv.Values d) !! key =
                 (λ V, versionedkv.mkValueDetails (Value_v V) (boxVersion (Value_version V)))
                   <$> cell_of σ key) ∧
  (¬ open σ → run Inspect σ = Done (versionedkv.mkStorageDetails None true) σ).
Proof.
  intros Hwf. split.
  - intros Ho. eexists. split; [by apply Inspect_run|]. simpl. split; [done|]. split.
    + rewrite collect_None. apply map_to_list_empty_iff.
    + intros key. by apply Inspect_lookup.
  - intros Hc. unfold Inspect. simpl. unfold open in Hc.
    apply Z.eqb_neq in Hc. by rewrite Hc.
Qed.

Lemma Inspect_lists_the_cells_witness :
  ∃ d, run Inspect (created "a" "1") = Done d (created "a" "1") ∧
       versionedkv.IsClosed d = false ∧
       (versionedkv.Values d = None ↔ values (env (created "a" "1")) = ∅) ∧
       ∀ key, default ∅ (versionedkv.Values d) !! key =
                (λ V, versionedkv.mkValueDetails (Value_v V) (boxVersion (Value_version V)))
                  <$> cell_of (created "a" "1") key.
Proof.
  destruct (Inspect_lists_the_cells (created "a" "1") (wf_created "a" "1")) as [H _].
  apply H. reflexivity.
Defined.

(** [Inspect] stores the internal version of a cell as it is, without
    [version2OpaqueVersion]: for a key whose cell holds no value (a
    call waits on it), it reports a version that is not nil, the boxed
    0, where [GetValue] on the same storage returns the nil version. *)
Theorem Inspect_boxes_version_zero (fuel : nat) (σ : St) (key : string) (V : Value) :
  wf σ → open σ → cell_of σ key = Some V → Value_version V = 0 →
  ∃ d, run Inspect σ = Done d σ ∧
       default ∅ (versionedkv.Values d) !! key =
         Some (versionedkv.mkValueDetails (Value_v V) (boxVersion 0)) ∧
       boxVersion 0 ≠ nilVersion ∧
       run (GetValue (S fuel) key) σ = Done (Some (Value_v V, nilVersion, nil)) σ.
Proof.
  intros Hwf Ho HV Hz. eexists. split; [by apply Inspect_run|].
  split; [|split; [done|]].
  - cbn [versionedkv.Values]. rewrite Inspect_lookup, HV by done. simpl. by rewrite Hz.
  - rewrite GetValue_run, HV by done. by rewrite Hz.
Qed.

Lemma Inspect_boxes_version_zero_witness :
  ∃ d, run Inspect watching = Done d watching ∧
       default ∅ (versionedkv.Values d) !! "a" =
         Some (versionedkv.mkValueDetails "" (boxVersion 0)) ∧
       boxVersion 0 ≠ nilVersion ∧
       run (GetValue 1 "a") watching = Done (Some ("", nilVersion, nil)) watching.
Proof.
  apply (Inspect_boxes_version_zero 0 watching "a" (mkValue "" 0 (Some {[0%nat]}) false));
    [apply wf_watching|reflexivity|reflexivity|reflexivity].
Defined.

(** ** More on the calls *)

Section CallExtras.
Implicit Types (σ : St) (V : Value) (p w : nat) (key val : string).
Local Opaque Get AddWatcher RemoveWatcher CheckAndSet Clear NewValue.

(** The storage with one more watcher cell, attached to no cell. *)
Definition spent σ : St :=
  mkState (cells σ) (wcells σ ++ [mkWatcher false (mkEventArgs "" 0)]) (env σ).

Lemma attach_lookup σ p V :
  cells σ !! p = Some V →
  cells (attach p V σ) !! p =
    Some (with_watchers V (Some ({[length (wcells σ)]} ∪ watchers_of V))).
Proof. intros HV. simpl. apply list_lookup_insert_eq. by eapply lookup_lt_Some. Qed.

(** An attempt of [WaitForValue] on a cell without a value, or with
    the version the caller has seen, attaches a watcher and waits. *)
Lemma tryWaitForValue_waits ctx key oldVersion σ p V :
  open σ → values (env σ) !! key = Some p → cells σ !! p = Some V →
  Value_isRemoved V = false →
  Value_version V = 0 ∨ (oldVersion ≠ 0 ∧ Value_version V = oldVersion) →
  run (tryWaitForValue ctx key oldVersion) σ =
    Blocked (Some (length (wcells σ))) ctx
      (afterSelect ctx key p (Some (length (wcells σ)))) (attach p V σ).
Proof.
  intros Ho Hk HV Hr Hw. unfold tryWaitForValue. simpl. rewrite Ho. simpl.
  rewrite Hk. simpl. rewrite (AddWatcher_exec σ p V) by done.
  change (mkState _ _ _) with (attach p V σ). simpl.
  rewrite (Get_exec (attach p V σ) p _ (attach_lookup σ p V HV)). simpl.
  rewrite Hr. simpl.
  replace (negb (Value_version V =? 0)
           && ((oldVersion =? 0) || negb (Value_version V =? oldVersion))) with false;
    [done|].
  symmetry. destruct Hw as [->|[Hne ->]]; [done|].
  apply Z.eqb_neq in Hne. by rewrite Hne, Z.eqb_refl, andb_false_r.
Qed.

(** An attempt of [WaitForValue] on a cell with a value that the
    caller has not seen returns the value at once. *)
Lemma tryWaitForValue_current ctx key oldVersion σ p V :
  wf σ → open σ → values (env σ) !! key = Some p → cells σ !! p = Some V →
  Value_isRemoved V = false → Value_version V ≠ 0 →
  oldVersion = 0 ∨ Value_version V ≠ oldVersion →
  run (tryWaitForValue ctx key oldVersion) σ =
    Done (Value_v V, Value_version V, nil, true) (spent σ).
Proof.
  intros Hwf Ho Hk HV Hr Hv Hold. unfold tryWaitForValue. simpl. rewrite Ho. simpl.
  rewrite Hk. simpl. rewrite (AddWatcher_exec σ p V) by done.
  change (mkState _ _ _) with (attach p V σ). simpl.
  rewrite (Get_exec (attach p V σ) p _ (attach_lookup σ p V HV)). simpl.
  rewrite Hr. simpl.
  replace (negb (Value_version V =? 0)
           && ((oldVersion =? 0) || negb (Value_version V =? oldVersion))) with true.
  2:{ symmetry. apply andb_true_iff. split.
      - by apply negb_true_iff, Z.eqb_neq.
      - apply orb_true_iff. destruct Hold as [->|Hne]; [by left|right].
        by apply negb_true_iff, Z.eqb_neq. }
  simpl. by rewrite (RemoveWatcher_added σ p V).
Qed.

Lemma WaitForValue_loop_run fuel ctx key oldVersion σ :
  run (WaitForValue_loop (S fuel) ctx key oldVersion) σ =
    run (x ← tryWaitForValue ctx key oldVersion;
         WaitForValue_next fuel ctx key oldVersion x) σ.
Proof. done. Qed.

Lemma WaitForValue_convert fuel ctx key old ov σ :
  opaqueVersion2Version old = Ok ov →
  run (WaitForValue (S fuel) ctx key old) σ = run (WaitForValue_loop (S fuel) ctx key ov) σ.
Proof. intros H. unfold WaitForValue, convert. by rewrite H. Qed.

(** The continuation a waiting [WaitForValue] is parked with. *)
Definition parked (fuel : nat) (ctx : Context) (key : string) (oldVersion : Version)
    (value : nat) (wi : nat) : waiter :=
  mkWaiter (Some wi) ctx
    (λ c, x ← afterSelect ctx key value (Some wi) c;
          WaitForValue_next fuel ctx key oldVersion x).

Lemma perform_WaitForValue_waits fuel ctx key old ov (w : world) value wi σ' :
  opaqueVersion2Version old = Ok ov →
  run (tryWaitForValue ctx key ov) (store w) =
    Blocked (Some wi) ctx (afterSelect ctx key value (Some wi)) σ' →
  perform (S fuel) (callWaitForValue ctx key old) w =
    (mkWorld σ' (waiters w ++ [Some (parked fuel ctx key ov value wi)]), waiting).
Proof.
  intros Hov H. unfold perform.
  rewrite (WaitForValue_convert fuel ctx key old ov) by done.
  by rewrite WaitForValue_loop_run, run_bind, H.
Qed.

Lemma perform_WaitForValue_eq fuel ctx key old ov (w : world) val v e σ' :
  opaqueVersion2Version old = Ok ov →
  run (tryWaitForValue ctx key ov) (store w) = Done (val, v, e, true) σ' →
  perform (S fuel) (callWaitForValue ctx key old) w =
    (mkWorld σ' (waiters w), returnedValue val (version2OpaqueVersion v) e).
Proof.
  intros Hov H. unfold perform.
  rewrite (WaitForValue_convert fuel ctx key old ov) by done.
  by rewrite WaitForValue_loop_run, run_bind, H.
Qed.

(** Letting the [i]-th waiting call go on through a ready case. *)
Lemma perform_wake_eq fuelw fuel ctx key ov value wi i c (w : world) val v e σ' :
  waiters w !! i = Some (Some (parked fuel ctx key ov value wi)) →
  ready (Some wi) ctx c (store w) = true →
  run (afterSelect ctx key value (Some wi) c) (store w) = Done (val, v, e, true) σ' →
  perform fuelw (wake i c) w =
    (mkWorld σ' (<[i := None]> (waiters w)),
     returnedValue val (version2OpaqueVersion v) e).
Proof.
  intros Hi Hr H. unfold perform. rewrite Hi. cbn [parked waiter_watcher waiter_ctx waiter_k].
  rewrite Hr. by rewrite run_bind, H.
Qed.

Lemma afterSelect_caseEvent ctx key value wi σ c :
  wcells σ !! wi = Some c →
  run (afterSelect ctx key value (Some wi) caseEvent) σ =
    Done (Value_ (eventArgs c), Version_ (eventArgs c), nil, true) σ.
Proof. intros H. simpl. unfold EventArgs_of. by rewrite H. Qed.

Lemma afterSelect_caseClosure ctx key value wi σ :
  run (afterSelect ctx key value (Some wi) caseClosure) σ =
    Done ("", 0, ErrStorageClosed, true) σ.
Proof. done. Qed.

Lemma afterSelect_caseDone ctx key value wi σ σ' :
  RemoveWatcher value (Some wi) (values_Delete key) σ = Ok (nil, σ') →
  run (afterSelect ctx key value (Some wi) caseDone) σ =
    Done ("", 0, ctx_Err ctx, true) σ'.
Proof. intros H. simpl. by rewrite H. Qed.

(** [CreateValue] on a key whose cell holds a value: the version and
    the cell it has prepared are dropped. *)
Lemma tryCreateValue_exists key val σ p V :
  open σ → values (env σ) !! key = Some p → cells σ !! p = Some V →
  Value_isRemoved V = false → Value_version V ≠ 0 →
  0 ≤ version (env σ) → version (env σ) + 1 < uint64_modulus →
  run (tryCreateValue key val) σ = Done (0, nil, true) (prepared val σ).
Proof.
  intros Ho Hk HV Hr Hv Hc0 Hc1. unfold tryCreateValue. simpl.
  rewrite Ho. simpl.
  destruct (uint64_add_1 (version (env σ))) as [[_ ?]|[-> _]]; [lia|lia|].
  rewrite NewValue_exec by lia.
  change (mkState _ _ _) with (prepared val σ).
  unfold values_LoadOrStore. simpl. rewrite Hk. simpl.
  rewrite (CheckAndSet_refused (prepared val σ) (prepared val σ) p V _ tt "" 0 tt);
    [done|by apply prepared_lookup|done|].
  unfold tryCreateValue_callback. apply Z.eqb_neq in Hv. by rewrite Hv.
Qed.

(** [CreateValue] on a key whose cell holds no value (calls wait on
    it): the value is written into that cell. *)
Lemma tryCreateValue_absent key val σ p V :
  open σ → values (env σ) !! key = Some p → cells σ !! p = Some V →
  Value_isRemoved V = false → Value_version V = 0 →
  0 ≤ version (env σ) → version (env σ) + 1 < uint64_modulus →
  (∀ w, w ∈ watchers_of V → unfired (wcells σ) w) →
  run (tryCreateValue key val) σ =
    Done (version (env σ) + 1, nil, true)
      (written p V val (version (env σ) + 1) (prepared val σ)).
Proof.
  intros Ho Hk HV Hr Hv0 Hc0 Hc1 Hun. unfold tryCreateValue. simpl.
  rewrite Ho. simpl.
  destruct (uint64_add_1 (version (env σ))) as [[_ ?]|[-> _]]; [lia|lia|].
  rewrite NewValue_exec by lia.
  change (mkState _ _ _) with (prepared val σ).
  unfold values_LoadOrStore. simpl. rewrite Hk. simpl.
  rewrite (CheckAndSet_applied (prepared val σ) (prepared val σ) p V _ tt
             val (version (env σ) + 1) tt);
    [done|by apply prepared_lookup|done| |done|done|lia|done].
  unfold tryCreateValue_callback. by rewrite Hv0.
Qed.

Lemma tryDeleteValue_missing key version σ :
  open σ → values (env σ) !! key = None →
  run (tryDeleteValue key version) σ = Done (false, nil, true) σ.
Proof. intros Ho Hk. unfold tryDeleteValue. simpl. rewrite Ho. simpl. by rewrite Hk. Qed.

Lemma tryDeleteValue_refused key version σ p V :
  open σ → values (env σ) !! key = Some p → cells σ !! p = Some V →
  Value_isRemoved V = false →
  Value_version V = 0 ∨ (version ≠ 0 ∧ Value_version V ≠ version) →
  run (tryDeleteValue key version) σ = Done (false, nil, true) σ.
Proof.
  intros Ho Hk HV Hr Href. unfold tryDeleteValue. simpl. rewrite Ho. simpl.
  rewrite Hk. simpl. by rewrite (Clear_refused σ p V).
Qed.

Lemma DeleteValue_convert fuel key old ov σ :
  opaqueVersion2Version old = Ok ov →
  run (DeleteValue (S fuel) key old) σ = run (DeleteValue_loop (S fuel) key ov) σ.
Proof. intros H. unfold DeleteValue, convert. by rewrite H. Qed.

End CallExtras.

(** [GetValue] on a storage in a state of the invariant returns from
    its first attempt and changes nothing: on an open storage it
    returns the value and the version of the cell under the key, or
    [("", nil)] when the key has no cell; on a closed one
    [ErrStorageClosed]. *)
Theorem GetValue_changes_nothing (fuel : nat) (σ : St) (key : string) :
  wf σ →
  run (GetValue (S fuel) key) σ =
    Done (Some (if decide (open σ) then
                  match cell_of σ key with
                  | Some V => (Value_v V, version2OpaqueVersion (Value_version V), nil)
                  | None => ("", nilVersion, nil)
                  end
                else ("", nilVersion, ErrStorageClosed))) σ.
Proof.
  intros Hwf. destruct (decide (open σ)) as [Ho|Hc].
  - by apply GetValue_run.
  - by destruct (closed_calls fuel σ Background key "" nilVersion Hc) as [H _].
Qed.

Lemma GetValue_changes_nothing_witness :
  run (GetValue 1 "a") (created "a" "1") =
    Done (Some (if decide (open (created "a" "1")) then
                  match cell_of (created "a" "1") "a" with
                  | Some V => (Value_v V, version2OpaqueVersion (Value_version V), nil)
                  | None => ("", nilVersion, nil)
                  end
                else ("", nilVersion, ErrStorageClosed))) (created "a" "1").
Proof. apply (GetValue_changes_nothing 0 (created "a" "1") "a"), wf_created. Defined.

(** [WaitForValue] on a key whose value the caller has not seen (the
    old-version is nil or differs from the current version) returns the
    value and its version at once; the watcher it attached on the way
    is taken off again, so the cells and the map are as before. *)
Theorem WaitForValue_returns_the_current_value (fuel : nat) (σ : St) (ctx : Context)
    (key : string) (old : OpaqueVersion) (ov : Version) (V : Value) :
  wf σ → open σ → opaqueVersion2Version old = Ok ov → cell_of σ key = Some V →
  Value_version V ≠ 0 → ov = 0 ∨ Value_version V ≠ ov →
  run (WaitForValue (S fuel) ctx key old) σ =
    Done (Some (Value_v V, boxVersion (Value_version V), nil)) (spent σ) ∧
  cells (spent σ) = cells σ ∧ env (spent σ) = env σ.
Proof.
  intros Hwf Ho Hov HV Hv Hold. split; [|done].
  apply cell_of_Some in HV as (p & Hk & HV).
  destruct (wf_values σ Hwf key p Hk) as (V' & HV' & Hr).
  assert (V' = V) as -> by congruence.
  rewrite (WaitForValue_convert fuel ctx key old ov) by done.
  rewrite WaitForValue_loop_run, run_bind.
  rewrite (tryWaitForValue_current ctx key ov σ p V) by done.
  simpl. unfold version2OpaqueVersion. apply Z.eqb_neq in Hv. by rewrite Hv.
Qed.

Lemma WaitForValue_returns_the_current_value_witness :
  run (WaitForValue 1 Background "a" (boxVersion 7)) (created "a" "1") =
    Done (Some ("1", boxVersion 1, nil)) (spent (created "a" "1")) ∧
  cells (spent (created "a" "1")) = cells (created "a" "1") ∧
  env (spent (created "a" "1")) = env (created "a" "1").
Proof.
  apply (WaitForValue_returns_the_current_value 0 (created "a" "1") Background "a"
           (boxVersion 7) 7 (mkValue "1" 1 None false));
    [apply wf_created|reflexivity|reflexivity|reflexivity|simpl; lia|right; simpl; lia].
Defined.

(** [CreateValue] on a key that has a value returns the nil version and
    no error, and leaves the value and its version as they are; but it
    has drawn a version from the counter and allocated a cell for it
    before it looked at the key, and both are lost. *)
Theorem CreateValue_on_existing_value (fuel : nat) (σ : St) (key val : string)
    (V : Value) :
  wf σ → open σ → cell_of σ key = Some V → Value_version V ≠ 0 →
  version (env σ) < uint64_modulus - 1 →
  ∃ σ', run (CreateValue (S fuel) key val) σ = Done (Some (nilVersion, nil)) σ' ∧
        cell_of σ' key = Some V ∧
        version (env σ') = version (env σ) + 1 ∧
        length (cells σ') = S (length (cells σ)).
Proof.
  intros Hwf Ho HV Hv Hc.
  apply cell_of_Some in HV as (p & Hk & HV).
  destruct (wf_values σ Hwf key p Hk) as (V' & HV' & Hr).
  assert (V' = V) as -> by congruence.
  pose proof (wf_counter σ Hwf) as Hc0.
  exists (prepared val σ). split; [|split; [|split]].
  - apply (CreateValue_done fuel key val σ 0 nil).
    apply (tryCreateValue_exists key val σ p V); try done; lia.
  - apply cell_of_Some. exists p. split; [done|]. by apply prepared_lookup.
  - done.
  - simpl. rewrite length_app. simpl. lia.
Qed.

Lemma CreateValue_on_existing_value_witness :
  ∃ σ', run (CreateValue 1 "a" "2") (created "a" "1") = Done (Some (nilVersion, nil)) σ' ∧
        cell_of σ' "a" = Some (mkValue "1" 1 None false) ∧
        version (env σ') = version (env (created "a" "1")) + 1 ∧
        length (cells σ') = S (length (cells (created "a" "1"))).
Proof.
  apply (CreateValue_on_existing_value 0 (created "a" "1") "a" "2"
           (mkValue "1" 1 None false));
    [apply wf_created|reflexivity|reflexivity|simpl; lia|].
  rewrite uint64_modulus_eq. simpl. lia.
Defined.

(** [DeleteValue(key, version)] on an open storage in a state of the
    invariant. It returns false and changes nothing when the key has no
    value (no cell, or a cell without a value) and when the version is
    given and differs from the current one. Otherwise it returns true;
    then, if no call waits on the key, the key leaves the map and its
    cell is marked removed; if calls wait on it, the cell stays under
    the key without a value, with its watchers. In both cases
    [GetValue] then returns [("", nil)] and no error. *)
Theorem DeleteValue_contract (fuel : nat) (σ : St) (key : string)
    (old : OpaqueVersion) (ov : Version) :
  wf σ → open σ → opaqueVersion2Version old = Ok ov →
  ((cell_of σ key = None ∨ ∃ V, cell_of σ key = Some V ∧ Value_version V = 0) →
   run (DeleteValue (S fuel) key old) σ = Done (Some (false, nil)) σ) ∧
  (∀ V, cell_of σ key = Some V → ov ≠ 0 → Value_version V ≠ ov →
   run (DeleteValue (S fuel) key old) σ = Done (Some (false, nil)) σ) ∧
  (∀ V, cell_of σ key = Some V → Value_version V ≠ 0 → ov = 0 ∨ Value_version V = ov →
   ∃ σ', run (DeleteValue (S fuel) key old) σ = Done (Some (true, nil)) σ' ∧
         cell_of σ' key =
           (if Value_watchers V is None then None
            else Some (mkValue "" 0 (Value_watchers V) false)) ∧
         wcells σ' = wcells σ ∧
         run (GetValue (S fuel) key) σ' = Done (Some ("", nilVersion, nil)) σ').
Proof.
  intros Hwf Ho Hov. rewrite (DeleteValue_convert fuel key old ov) by done.
  split; [|split].
  - intros [Hn|(V & HV & Hz)]; apply DeleteValue_loop_done.
    + apply tryDeleteValue_missing; [done|]. by apply cell_of_None.
    + apply cell_of_Some in HV as (p & Hk & HV).
      destruct (wf_values σ Hwf key p Hk) as (V' & HV' & Hr).
      assert (V' = V) as -> by congruence.
      apply (tryDeleteValue_refused key ov σ p V); auto.
  - intros V HV Hov0 Hne. apply DeleteValue_loop_done.
    apply cell_of_Some in HV as (p & Hk & HV).
    destruct (wf_values σ Hwf key p Hk) as (V' & HV' & Hr).
    assert (V' = V) as -> by congruence.
    apply (tryDeleteValue_refused key ov σ p V); auto.
  - intros V HV Hv Hm.
    apply cell_of_Some in HV as (p & Hk & HV).
    destruct (wf_values σ Hwf key p Hk) as (V' & HV' & Hr).
    assert (V' = V) as -> by congruence.
    assert (Hlt : (p < length (cells σ))%nat) by by eapply lookup_lt_Some.
    destruct (Value_watchers V) as [ws|] eqn:Hws.
    + exists (upd_cell p (with_v_version V "" 0) σ).
      assert (Hcell : cell_of (upd_cell p (with_v_version V "" 0) σ) key =
                        Some (mkValue "" 0 (Some ws) false)).
      { apply cell_of_Some. exists p. split; [done|]. simpl.
        rewrite list_lookup_insert_eq by done.
        unfold with_v_version. by rewrite Hws, Hr. }
      split; [|split; [done|split; [done|]]].
      * apply DeleteValue_loop_done. by apply (tryDeleteValue_kept key ov σ p V ws).
      * rewrite GetValue_run, Hcell; [done| |done].
        destruct (wf_cleared σ p V ws Hwf HV Hws) as [H _]. exact H.
    + exists (tombstone key p "" σ).
      assert (Hcell : cell_of (tombstone key p "" σ) key = None).
      { unfold cell_of. simpl. by rewrite lookup_delete_eq. }
      split; [|split; [done|split; [done|]]].
      * apply DeleteValue_loop_done. by apply (tryDeleteValue_dropped key ov σ p V).
      * rewrite GetValue_run, Hcell; [done| |done].
        destruct (wf_tombstone σ key p V "" Hwf HV Hk) as [H _]. exact H.
Qed.

Lemma DeleteValue_contract_witness :
  run (DeleteValue 1 "b" nilVersion) (created "a" "1") =
    Done (Some (false, nil)) (created "a" "1") ∧
  run (DeleteValue 1 "a" (boxVersion 7)) (created "a" "1") =
    Done (Some (false, nil)) (created "a" "1") ∧
  ∃ σ', run (DeleteValue 1 "a" (boxVersion 1)) (created "a" "1") =
          Done (Some (true, nil)) σ' ∧
        cell_of σ' "a" = None ∧
        wcells σ' = wcells (created "a" "1") ∧
        run (GetValue 1 "a") σ' = Done (Some ("", nilVersion, nil)) σ'.
Proof.
  destruct (DeleteValue_contract 0 (created "a" "1") "b" nilVersion 0
              (wf_created "a" "1") eq_refl eq_refl) as (H1 & _ & _).
  destruct (DeleteValue_contract 0 (created "a" "1") "a" (boxVersion 7) 7
              (wf_created "a" "1") eq_refl eq_refl) as (_ & H2 & _).
  destruct (DeleteValue_contract 0 (created "a" "1") "a" (boxVersion 1) 1
              (wf_created "a" "1") eq_refl eq_refl) as (_ & _ & H3).
  split; [apply H1; left; reflexivity|].
  split; [apply (H2 (mkValue "1" 1 None false)); [reflexivity|lia|simpl; lia]|].
  destruct (H3 (mkValue "1" 1 None false)) as (σ' & Hrun & Hcell & Hw & Hget);
    [reflexivity|simpl; lia|right; reflexivity|].
  exists σ'. split; [exact Hrun|]. split; [exact Hcell|]. split; [exact Hw|exact Hget].
Defined.

(** A version argument that is not nil and not an [internal.Version]
    makes the type assertion of [opaqueVersion2Version] panic before
    the call has looked at the storage. *)
Theorem foreign_version_panics (fuel : nat) (σ : St) (ctx : Context) (key val : string) :
  run (WaitForValue fuel ctx key boxOther) σ = Panicked "interface conversion" ∧
  run (UpdateValue fuel key val boxOther) σ = Panicked "interface conversion" ∧
  run (CreateOrUpdateValue fuel key val boxOther) σ = Panicked "interface conversion" ∧
  run (DeleteValue fuel key boxOther) σ = Panicked "interface conversion".
Proof. done. Qed.

(** In a sequence of calls on a fresh storage that do not overlap,
    every call returns from the first attempt of its loop (one
    iteration is enough fuel for each), and a panic, if there is one,
    is the failed type assertion on a version argument or the write of
    version 0 when the counter wraps: the [panic("unreachable")]
    branches are not reached, no channel is closed twice and no nil
    pointer is followed. *)
Theorem calls_return_from_the_first_attempt (cs : list call) :
  Forall (λ r, r ≠ spinning ∧
               ∀ msg, r = panicked msg →
                      msg = "interface conversion" ∨ msg = "set value to zero version")
    (history 1 cs fresh).2.
Proof.
  apply (history_replies 0 cs fresh); [apply wf_fresh|].
  intros σ σ' r Hr. split.
  - by intros ->.
  - intros msg ->. simpl in Hr. destruct Hr as [->|[-> _]]; auto.
Qed.




Section WakeUps.
Implicit Types (σ : St) (V : Value) (p : nat) (key val : string) (w : world).
Local Opaque Get AddWatcher RemoveWatcher CheckAndSet Clear NewValue.

Lemma version2OpaqueVersion_box_id v : v ≠ 0 → version2OpaqueVersion v = boxVersion v.
Proof. intros Hv. unfold version2OpaqueVersion. apply Z.eqb_neq in Hv. by rewrite Hv. Qed.

Lemma perform_Close_eq fuel w e σ' :
  run Close (store w) = Done e σ' →
  perform fuel callClose w = (mkWorld σ' (waiters w), returnedError e).
Proof. intros H. unfold perform. by rewrite run_bind, H. Qed.

(** The storage after a first [Close]. *)
Definition closing σ : St :=
  with_env σ (mkMemoryStorage (values (env σ)) (version (env σ)) 1 true).

Lemma Close_run σ :
  open σ → closure (env σ) = false → run Close σ = Done nil (closing σ).
Proof.
  intros Ho Hc. unfold Close. simpl. rewrite Ho. simpl.
  unfold close_closure. simpl. by rewrite Hc.
Qed.

(** The storage after an attempt of [WaitForValue] on a key without a
    cell has started to wait, and the cell it waits on. *)
Definition awaiting key σ : St :=
  attach (length (cells σ)) zeroValue
    (upd_values (<[key := length (cells σ)]> (values (env σ))) (add_cell zeroValue σ)).

Definition awaited σ : Value :=
  with_watchers zeroValue (Some ({[length (wcells σ)]} ∪ watchers_of zeroValue)).

Lemma awaiting_lookup key σ : cells (awaiting key σ) !! length (cells σ) = Some (awaited σ).
Proof.
  unfold awaiting, awaited.
  rewrite (attach_lookup _ (length (cells σ)) zeroValue); [done|].
  simpl. by apply list_lookup_middle.
Qed.

Lemma awaiting_unfired key σ n :
  n ∈ watchers_of (awaited σ) → unfired (wcells (awaiting key σ)) n.
Proof.
  unfold awaited, watchers_of. simpl. intros Hn.
  assert (n = length (wcells σ)) as -> by set_solver.
  exists (mkWatcher false (mkEventArgs "" 0)). split; [|done].
  by apply list_lookup_middle.
Qed.

Lemma perform_WaitForValue_missing fuel ctx key old ov w :
  open (store w) → values (env (store w)) !! key = None →
  opaqueVersion2Version old = Ok ov →
  perform (S fuel) (callWaitForValue ctx key old) w =
    (mkWorld (awaiting key (store w))
       (waiters w ++ [Some (parked fuel ctx key ov (length (cells (store w)))
                              (length (wcells (store w))))]),
     waiting).
Proof.
  intros Ho Hk Hov.
  apply (perform_WaitForValue_waits fuel ctx key old ov); [done|].
  by apply tryWaitForValue_missing.
Qed.

Lemma fired_watcher σ (ws : gset nat) args wc n :
  wcells σ = fired (elements ws) args wc → n ∈ ws → (n < length wc)%nat →
  Fired (Some n) σ = true ∧ wcells σ !! n = Some (mkWatcher true args).
Proof.
  intros Hw Hn Hlt.
  assert (H : wcells σ !! n = Some (mkWatcher true args)).
  { rewrite Hw. apply fired_lookup_in; [by apply elem_of_elements|done]. }
  split; [|done]. unfold Fired. by rewrite H.
Qed.

End WakeUps.

(** A [WaitForValue] that waits on the current version of a key is let
    go by the next [UpdateValue] of the key: the watcher it waits on is
    fired with the new value and version, and that is what it returns. *)
Theorem WaitForValue_sees_the_update (fuel : nat) (w : world) (ctx : Context)
    (key val : string) (V : Value) :
  wf (store w) → open (store w) → cell_of (store w) key = Some V →
  Value_version V ≠ 0 → version (env (store w)) < uint64_modulus - 1 →
  (history (S fuel)
     [callWaitForValue ctx key (boxVersion (Value_version V));
      callUpdateValue key val nilVersion;
      wake (length (waiters w)) caseEvent] w).2 =
    [waiting;
     returnedVersion (boxVersion (version (env (store w)) + 1)) nil;
     returnedValue val (boxVersion (version (env (store w)) + 1)) nil].
Proof.
  intros Hwf Ho HV Hv Hc.
  apply cell_of_Some in HV as (p & Hk & HV).
  destruct (wf_values _ Hwf key p Hk) as (V' & HV' & Hr).
  assert (V' = V) as -> by congruence. clear HV'.
  pose proof (wf_counter _ Hwf) as Hc0.
  destruct (wf_attach _ p V Hwf HV) as (Hwf1 & _ & _).
  set (σ := store w) in *. set (n := length (wcells σ)).
  set (c := version (env σ)) in *.
  set (V1 := with_watchers V (Some ({[n]} ∪ watchers_of V))).
  set (σ1 := attach p V σ) in *.
  set (σ2 := written p V1 val (c + 1) (upd_version (c + 1) σ1)).
  set (wt := parked fuel ctx key (Value_version V) p n).
  assert (HV1 : cells σ1 !! p = Some V1) by by apply attach_lookup.
  rewrite (history_cons _ _ _ _ (mkWorld σ1 (waiters w ++ [Some wt])) waiting);
    [|apply (perform_WaitForValue_waits fuel ctx key _ (Value_version V) w p n σ1);
      [done|apply tryWaitForValue_waits; auto]
     |intros msg; discriminate].
  cbn [snd].
  rewrite (history_cons _ _ _ _ (mkWorld σ2 (waiters w ++ [Some wt]))
             (returnedVersion (boxVersion (c + 1)) nil));
    [| |intros msg; discriminate].
  2:{ apply (perform_UpdateValue_eq (S fuel) key val nilVersion
               (mkWorld σ1 (waiters w ++ [Some wt]))).
      cbn [store]. rewrite UpdateValue_nil.
      rewrite (UpdateValue_loop_done fuel key val 0 σ1 (c + 1) nil σ2).
      - rewrite version2OpaqueVersion_box_id; [done|lia].
      - apply (tryUpdateValue_applied key val 0 σ1 p V1);
          [done|done|done|done|done|by left|apply Hc0|simpl; fold c; lia|].
        by apply (attached_unfired σ1 p V1). }
  cbn [snd].
  assert (Hn : n ∈ watchers_of V1) by (unfold V1, watchers_of; simpl; set_solver).
  assert (Hlt : (n < length (wcells σ1))%nat).
  { simpl. rewrite length_app. simpl. unfold n. lia. }
  destruct (fired_watcher σ2 (watchers_of V1) (mkEventArgs val (c + 1)) (wcells σ1) n
              eq_refl Hn Hlt) as [Hf Hl].
  rewrite (history_cons _ _ _ _
             (mkWorld σ2 (<[length (waiters w) := None]> (waiters w ++ [Some wt])%list))
             (returnedValue val (boxVersion (c + 1)) nil));
    [done| |intros msg; discriminate].
  rewrite <- (version2OpaqueVersion_box_id (c + 1)) by lia.
  apply (perform_wake_eq (S fuel) fuel ctx key (Value_version V) p n (length (waiters w))
           caseEvent (mkWorld σ2 (waiters w ++ [Some wt])) val (c + 1) nil σ2).
  - cbn [waiters]. by apply list_lookup_middle.
  - exact Hf.
  - by apply (afterSelect_caseEvent ctx key p n σ2
                (mkWatcher true (mkEventArgs val (c + 1)))).
Qed.

Lemma WaitForValue_sees_the_update_witness :
  (history 1
     [callWaitForValue Background "a" (boxVersion 1);
      callUpdateValue "a" "2" nilVersion;
      wake 0 caseEvent] (mkWorld (created "a" "1") [])).2 =
    [waiting; returnedVersion (boxVersion (1 + 1)) nil;
     returnedValue "2" (boxVersion (1 + 1)) nil].
Proof.
  apply (WaitForValue_sees_the_update 0 (mkWorld (created "a" "1") []) Background "a" "2"
           (mkValue "1" 1 None false));
    [apply wf_created|reflexivity|reflexivity|simpl; lia|].
  rewrite uint64_modulus_eq. simpl. lia.
Defined.

(** A [WaitForValue] on a key without a cell waits, whatever
    old-version it is given, and is let go by the next [CreateValue]
    of the key, with the value and the version that call has written. *)
Theorem WaitForValue_sees_the_creation (fuel : nat) (w : world) (ctx : Context)
    (key val : string) (old : OpaqueVersion) (ov : Version) :
  open (store w) → values (env (store w)) !! key = None →
  opaqueVersion2Version old = Ok ov →
  0 ≤ version (env (store w)) < uint64_modulus - 1 →
  (history (S fuel)
     [callWaitForValue ctx key old;
      callCreateValue key val;
      wake (length (waiters w)) caseEvent] w).2 =
    [waiting;
     returnedVersion (boxVersion (version (env (store w)) + 1)) nil;
     returnedValue val (boxVersion (version (env (store w)) + 1)) nil].
Proof.
  intros Ho Hk Hov Hc.
  set (σ := store w) in *. set (n := length (wcells σ)). set (p := length (cells σ)).
  set (c := version (env σ)) in *.
  set (σ1 := awaiting key σ).
  set (σ2 := written p (awaited σ) val (c + 1) (prepared val σ1)).
  set (wt := parked fuel ctx key ov p n).
  rewrite (history_cons _ _ _ _ (mkWorld σ1 (waiters w ++ [Some wt])) waiting);
    [|by apply perform_WaitForValue_missing|intros msg; discriminate].
  cbn [snd].
  rewrite (history_cons _ _ _ _ (mkWorld σ2 (waiters w ++ [Some wt]))
             (returnedVersion (boxVersion (c + 1)) nil));
    [| |intros msg; discriminate].
  2:{ apply (perform_CreateValue_eq (S fuel) key val
               (mkWorld σ1 (waiters w ++ [Some wt]))).
      cbn [store].
      rewrite (CreateValue_done fuel key val σ1 (c + 1) nil σ2).
      - rewrite version2OpaqueVersion_box_id; [done|lia].
      - apply (tryCreateValue_absent key val σ1 p (awaited σ));
          [done|apply lookup_insert_eq|apply awaiting_lookup|done|done|apply Hc
          |simpl; fold c; lia|apply awaiting_unfired]. }
  cbn [snd].
  assert (Hn : n ∈ watchers_of (awaited σ)).
  { unfold awaited, watchers_of. simpl. set_solver. }
  assert (Hlt : (n < length (wcells σ1))%nat).
  { simpl. rewrite length_app. simpl. unfold n. lia. }
  destruct (fired_watcher σ2 (watchers_of (awaited σ)) (mkEventArgs val (c + 1))
              (wcells σ1) n eq_refl Hn Hlt) as [Hf Hl].
  rewrite (history_cons _ _ _ _
             (mkWorld σ2 (<[length (waiters w) := None]> (waiters w ++ [Some wt])%list))
             (returnedValue val (boxVersion (c + 1)) nil));
    [done| |intros msg; discriminate].
  rewrite <- (version2OpaqueVersion_box_id (c + 1)) by lia.
  apply (perform_wake_eq (S fuel) fuel ctx key ov p n (length (waiters w))
           caseEvent (mkWorld σ2 (waiters w ++ [Some wt])) val (c + 1) nil σ2).
  - cbn [waiters]. by apply list_lookup_middle.
  - exact Hf.
  - by apply (afterSelect_caseEvent ctx key p n σ2
                (mkWatcher true (mkEventArgs val (c + 1)))).
Qed.

Lemma WaitForValue_sees_the_creation_witness :
  (history 1
     [callWaitForValue Background "a" (boxVersion 3);
      callCreateValue "a" "1";
      wake 0 caseEvent] fresh).2 =
    [waiting; returnedVersion (boxVersion (0 + 1)) nil;
     returnedValue "1" (boxVersion (0 + 1)) nil].
Proof.
  apply (WaitForValue_sees_the_creation 0 fresh Background "a" "1" (boxVersion 3) 3);
    [reflexivity|reflexivity|reflexivity|].
  rewrite uint64_modulus_eq. simpl. lia.
Defined.

(** [Close] lets a waiting [WaitForValue] go: it returns
    [ErrStorageClosed]. On that way out the call does not take its
    watcher off the cell, so the cell stays under the key, without a
    value, with the watcher attached. *)
Theorem Close_lets_the_waiter_go (fuel : nat) (w : world) (ctx : Context)
    (key : string) (old : OpaqueVersion) (ov : Version) :
  open (store w) → closure (env (store w)) = false →
  values (env (store w)) !! key = None → opaqueVersion2Version old = Ok ov →
  let h := history (S fuel)
             [callWaitForValue ctx key old; callClose;
              wake (length (waiters w)) caseClosure] w in
  h.2 = [waiting; returnedError nil; returnedValue "" nilVersion ErrStorageClosed] ∧
  ∃ V, cell_of (store h.1) key = Some V ∧
       Value_version V = 0 ∧ Value_isRemoved V = false ∧
       length (wcells (store w)) ∈ watchers_of V.
Proof.
  intros Ho Hcl Hk Hov h. unfold h. clear h.
  set (σ := store w) in *. set (n := length (wcells σ)). set (p := length (cells σ)).
  set (σ1 := awaiting key σ).
  set (wt := parked fuel ctx key ov p n).
  rewrite (history_cons _ _ _ _ (mkWorld σ1 (waiters w ++ [Some wt])) waiting);
    [|by apply perform_WaitForValue_missing|intros msg; discriminate].
  rewrite (history_cons _ _ _ _ (mkWorld (closing σ1) (waiters w ++ [Some wt]))
             (returnedError nil));
    [|apply (perform_Close_eq (S fuel) (mkWorld σ1 (waiters w ++ [Some wt])));
      by apply Close_run
     |intros msg; discriminate].
  rewrite (history_cons _ _ _ _
             (mkWorld (closing σ1)
                (<[length (waiters w) := None]> (waiters w ++ [Some wt])%list))
             (returnedValue "" nilVersion ErrStorageClosed));
    [| |intros msg; discriminate].
  2:{ apply (perform_wake_eq (S fuel) fuel ctx key ov p n (length (waiters w))
               caseClosure (mkWorld (closing σ1) (waiters w ++ [Some wt]))
               "" 0 ErrStorageClosed (closing σ1)).
      - cbn [waiters]. by apply list_lookup_middle.
      - done.
      - apply afterSelect_caseClosure. }
  cbn [fst snd history store]. split; [done|].
  exists (awaited σ). split; [|split; [done|split; [done|]]].
  - apply cell_of_Some. exists p. split; [apply lookup_insert_eq|apply awaiting_lookup].
  - unfold awaited, watchers_of. simpl. set_solver.
Qed.

Lemma Close_lets_the_waiter_go_witness :
  let h := history 1
             [callWaitForValue Background "a" nilVersion; callClose;
              wake (length (waiters fresh)) caseClosure] fresh in
  h.2 = [waiting; returnedError nil; returnedValue "" nilVersion ErrStorageClosed] ∧
  ∃ V, cell_of (store h.1) "a" = Some V ∧
       Value_version V = 0 ∧ Value_isRemoved V = false ∧
       length (wcells (store fresh)) ∈ watchers_of V.
Proof.
  apply (Close_lets_the_waiter_go 0 fresh Background "a" nilVersion 0); reflexivity.
Defined.

(** A [WaitForValue] on a key without a cell that is let go by its
    context takes its watcher off the cell it has stored under the
    key; the cell, left without a value and without a watcher, is
    marked removed and the key is deleted, so the map is as it was
    before the call. The call returns the error of the context. *)
Theorem cancelled_wait_leaves_no_cell (fuel : nat) (w : world) (err : error)
    (key : string) (old : OpaqueVersion) (ov : Version) :
  open (store w) → values (env (store w)) !! key = None →
  opaqueVersion2Version old = Ok ov →
  let h := history (S fuel)
             [callWaitForValue (Cancelable err) key old;
              wake (length (waiters w)) caseDone] w in
  h.2 = [waiting; returnedValue "" nilVersion err] ∧
  values (env (store h.1)) = values (env (store w)) ∧
  ∃ V, cells (store h.1) !! length (cells (store w)) = Some V ∧
       Value_isRemoved V = true.
Proof.
  intros Ho Hk Hov h. unfold h. clear h.
  set (σ := store w) in *. set (n := length (wcells σ)). set (p := length (cells σ)).
  set (σ1 := awaiting key σ).
  set (wt := parked fuel (Cancelable err) key ov p n).
  rewrite (history_cons _ _ _ _ (mkWorld σ1 (waiters w ++ [Some wt])) waiting);
    [|by apply perform_WaitForValue_missing|intros msg; discriminate].
  rewrite (history_cons _ _ _ _
             (mkWorld (tombstone key p "" σ1)
                (<[length (waiters w) := None]> (waiters w ++ [Some wt])%list))
             (returnedValue "" nilVersion err));
    [| |intros msg; discriminate].
  2:{ apply (perform_wake_eq (S fuel) fuel (Cancelable err) key ov p n (length (waiters w))
               caseDone (mkWorld σ1 (waiters w ++ [Some wt]))
               "" 0 err (tombstone key p "" σ1)).
      - cbn [waiters]. by apply list_lookup_middle.
      - done.
      - apply afterSelect_caseDone. cbn [store].
        apply (RemoveWatcher_last_absent σ1 p (awaited σ)
                 ({[n]} ∪ watchers_of zeroValue) n key);
          [apply awaiting_lookup|done|done|set_solver| |done].
        apply leibniz_equiv. unfold watchers_of. simpl. set_solver. }
  cbn [fst snd history store]. split; [done|]. split.
  - simpl. by apply delete_insert_id.
  - exists (mkValue "" 0 None true). split; [|done].
    simpl. apply list_lookup_insert_eq. rewrite length_insert, length_app. simpl.
    unfold p. lia.
Qed.

Lemma cancelled_wait_leaves_no_cell_witness :
  let h := history 1
             [callWaitForValue (Cancelable Canceled) "a" nilVersion;
              wake (length (waiters fresh)) caseDone] fresh in
  h.2 = [waiting; returnedValue "" nilVersion Canceled] ∧
  values (env (store h.1)) = values (env (store fresh)) ∧
  ∃ V, cells (store h.1) !! length (cells (store fresh)) = Some V ∧
       Value_isRemoved V = true.
Proof.
  apply (cancelled_wait_leaves_no_cell 0 fresh Canceled "a" nilVersion 0); reflexivity.
Defined.

(** ** The two revisions of [memorystorage.go] agree *)

Section Revisions.
Implicit Types (σ : St) (key val : string).
Local Opaque Get AddWatcher RemoveWatcher CheckAndSet Clear NewValue.

Lemma earlier_GetValue_loop fuel key σ :
  run (earlier.GetValue (S fuel) key) σ =
    run (x ← earlier.doGetValue key;
         let '(val, version, err) := x in
         if bool_decide (err = ErrValueRemoved) then earlier.GetValue fuel key
         else Ret (Some (val, version2OpaqueVersion version, err))) σ.
Proof. done. Qed.

Lemma GetValue_loop fuel key σ :
  run (GetValue (S fuel) key) σ =
    run (x ← tryGetValue key;
         let '(val, version, err, done) := x in
         if negb done then GetValue fuel key
         else Ret (Some (val, version2OpaqueVersion version, err))) σ.
Proof. done. Qed.

Lemma earlier_CreateValue_loop fuel key val σ :
  run (earlier.CreateValue (S fuel) key val) σ =
    run (x ← earlier.doCreateValue key val;
         let '(version, err) := x in
         if bool_decide (err = ErrValueRemoved) then earlier.CreateValue fuel key val
         else Ret (Some (version2OpaqueVersion version, err))) σ.
Proof. done. Qed.

Lemma CreateValue_loop fuel key val σ :
  run (CreateValue (S fuel) key val) σ =
    run (x ← tryCreateValue key val;
         let '(version, err, ok) := x in
         if negb ok then CreateValue fuel key val
         else Ret (Some (version2OpaqueVersion version, err))) σ.
Proof. done. Qed.

Lemma earlier_UpdateValue_loop fuel key val ov σ :
  run (earlier.UpdateValue_loop (S fuel) key val ov) σ =
    run (x ← earlier.doUpdateValue key val ov;
         let '(newVersion, err) := x in
         if bool_decide (err = ErrValueRemoved) then earlier.UpdateValue_loop fuel key val ov
         else Ret (Some (version2OpaqueVersion newVersion, err))) σ.
Proof. done. Qed.

Lemma UpdateValue_loop_run fuel key val ov σ :
  run (UpdateValue_loop (S fuel) key val ov) σ =
    run (x ← tryUpdateValue key val ov;
         let '(newVersion, err, done) := x in
         if negb done then UpdateValue_loop fuel key val ov
         else Ret (Some (version2OpaqueVersion newVersion, err))) σ.
Proof. done. Qed.

Lemma earlier_CreateOrUpdateValue_loop fuel key val ov σ :
  run (earlier.CreateOrUpdateValue_loop (S fuel) key val ov) σ =
    run (x ← earlier.doCreateOrUpdateValue key val ov;
         let '(newVersion, err) := x in
         if bool_decide (err = ErrValueRemoved)
         then earlier.CreateOrUpdateValue_loop fuel key val ov
         else Ret (Some (version2OpaqueVersion newVersion, err))) σ.
Proof. done. Qed.

Lemma CreateOrUpdateValue_loop_run fuel key val ov σ :
  run (CreateOrUpdateValue_loop (S fuel) key val ov) σ =
    run (x ← tryCreateOrUpdateValue key val ov;
         let '(newVersion, err, done) := x in
         if negb done then CreateOrUpdateValue_loop fuel key val ov
         else Ret (Some (version2OpaqueVersion newVersion, err))) σ.
Proof. done. Qed.

Lemma earlier_DeleteValue_loop fuel key ov σ :
  run (earlier.DeleteValue_loop (S fuel) key ov) σ =
    run (x ← earlier.doDeleteValue key ov;
         let '(ok, err) := x in
         if bool_decide (err = ErrValueRemoved) then earlier.DeleteValue_loop fuel key ov
         else Ret (Some (ok, err))) σ.
Proof. done. Qed.

Lemma DeleteValue_loop_run fuel key ov σ :
  run (DeleteValue_loop (S fuel) key ov) σ =
    run (x ← tryDeleteValue key ov;
         let '(ok, err, done) := x in
         if negb done then DeleteValue_loop fuel key ov
         else Ret (Some (ok, err))) σ.
Proof. done. Qed.

Lemma GetValue_agree fuel key σ :
  run (earlier.GetValue fuel key) σ = run (GetValue fuel key) σ.
Proof.
  revert σ. induction fuel as [|fuel IH]; intros σ; [done|].
  rewrite earlier_GetValue_loop, GetValue_loop, !run_bind.
  unfold earlier.doGetValue, tryGetValue. simpl.
  destruct (negb (isClosed1 (env σ) =? 0)); simpl; [done|].
  destruct (values (env σ) !! key) as [p|]; simpl; [|done].
  destruct (Get p σ) as [[[[val ver] err] σ']|msg] eqn:HG; [|done].
  apply Get_result in HG as (-> & V & HV & [(Hr & -> & -> & ->)|(Hr & -> & -> & ->)]);
    simpl; [apply IH|done].
Qed.

Lemma CreateValue_agree fuel key val σ :
  run (earlier.CreateValue fuel key val) σ = run (CreateValue fuel key val) σ.
Proof.
  revert σ. induction fuel as [|fuel IH]; intros σ; [done|].
  rewrite earlier_CreateValue_loop, CreateValue_loop, !run_bind.
  unfold earlier.doCreateValue, tryCreateValue. simpl.
  destruct (negb (isClosed1 (env σ) =? 0)); simpl; [done|].
  destruct (NewValue val _ _) as [[value σ1]|msg]; [|done].
  unfold values_LoadOrStore. simpl.
  destruct (values (env σ1) !! key) as [p|]; simpl; [|done].
  destruct (CheckAndSet p _ tt σ1) as [[[[ok err] c'] σ2]|msg] eqn:HC; [|done].
  apply CheckAndSet_result in HC as (V & HV & [(Hr & -> & -> & -> & ->)|(Hr & ->)]);
    simpl; [apply IH|]. by destruct ok.
Qed.

Lemma UpdateValue_loop_agree fuel key val ov σ :
  run (earlier.UpdateValue_loop fuel key val ov) σ = run (UpdateValue_loop fuel key val ov) σ.
Proof.
  revert σ. induction fuel as [|fuel IH]; intros σ; [done|].
  rewrite earlier_UpdateValue_loop, UpdateValue_loop_run, !run_bind.
  unfold earlier.doUpdateValue, tryUpdateValue. simpl.
  destruct (negb (isClosed1 (env σ) =? 0)); simpl; [done|].
  destruct (values (env σ) !! key) as [p|]; simpl; [|done].
  destruct (CheckAndSet p (tryUpdateValue_callback val ov) 0 σ)
    as [[[[ok err] c'] σ2]|msg] eqn:HC; [|done].
  apply CheckAndSet_result in HC as (V & HV & [(Hr & -> & -> & -> & ->)|(Hr & ->)]);
    simpl; [apply IH|]. by destruct ok.
Qed.

Lemma CreateOrUpdateValue_loop_agree fuel key val ov σ :
  run (earlier.CreateOrUpdateValue_loop fuel key val ov) σ =
    run (CreateOrUpdateValue_loop fuel key val ov) σ.
Proof.
  revert σ. induction fuel as [|fuel IH]; intros σ; [done|].
  rewrite earlier_CreateOrUpdateValue_loop, CreateOrUpdateValue_loop_run, !run_bind.
  unfold earlier.doCreateOrUpdateValue, tryCreateOrUpdateValue. simpl.
  destruct (negb (isClosed1 (env σ) =? 0)); simpl; [done|].
  set (n := uint64_add (version (env σ)) 1).
  destruct (NewValue val _ _) as [[value σ1]|msg]; [|done].
  unfold values_LoadOrStore. simpl.
  destruct (values (env σ1) !! key) as [p|]; simpl; [|done].
  destruct (CheckAndSet p (tryCreateOrUpdateValue_callback val n ov) 0 σ1)
    as [[[[ok err] c'] σ2]|msg] eqn:HC; [|done].
  apply CheckAndSet_result in HC as (V & HV & [(Hr & -> & -> & -> & ->)|(Hr & ->)]);
    simpl; [apply IH|]. destruct ok; [|done]. simpl. by destruct (c' =? 0).
Qed.

Lemma DeleteValue_loop_agree fuel key ov σ :
  run (earlier.DeleteValue_loop fuel key ov) σ = run (DeleteValue_loop fuel key ov) σ.
Proof.
  revert σ. induction fuel as [|fuel IH]; intros σ; [done|].
  rewrite earlier_DeleteValue_loop, DeleteValue_loop_run, !run_bind.
  unfold earlier.doDeleteValue, tryDeleteValue. simpl.
  destruct (negb (isClosed1 (env σ) =? 0)); simpl; [done|].
  destruct (values (env σ) !! key) as [p|]; simpl; [|done].
  destruct (Clear p ov _ σ) as [[[ok err] σ2]|msg] eqn:HC; [|done].
  apply Clear_result in HC as (V & HV & [(Hr & -> & -> & ->)|(Hr & ->)]);
    simpl; [apply IH|done].
Qed.

End Revisions.

(** The calls of the earlier revision that do not wait do what those
    of the later revision do, on every storage and for every number of
    iterations of their loops: they return the same, leave the same
    storage, and panic alike. The later revision panics on an error of
    the cell other than [ErrValueRemoved], which the earlier one would
    return; the cell has no such error. *)
Theorem revisions_agree (fuel : nat) (σ : St) (key val : string) (old : OpaqueVersion) :
  run (earlier.GetValue fuel key) σ = run (GetValue fuel key) σ ∧
  run (earlier.CreateValue fuel key val) σ = run (CreateValue fuel key val) σ ∧
  run (earlier.UpdateValue fuel key val old) σ = run (UpdateValue fuel key val old) σ ∧
  run (earlier.CreateOrUpdateValue fuel key val old) σ =
    run (CreateOrUpdateValue fuel key val old) σ ∧
  run (earlier.DeleteValue fuel key old) σ = run (DeleteValue fuel key old) σ.
Proof.
  split; [apply GetValue_agree|]. split; [apply CreateValue_agree|].
  unfold earlier.UpdateValue, UpdateValue, earlier.CreateOrUpdateValue, CreateOrUpdateValue,
    earlier.DeleteValue, DeleteValue, convert.
  destruct old as [|ov|]; simpl; [| |done].
  - split; [apply UpdateValue_loop_agree|].
    split; [apply CreateOrUpdateValue_loop_agree|apply DeleteValue_loop_agree].
  - split; [apply UpdateValue_loop_agree|].
    split; [apply CreateOrUpdateValue_loop_agree|apply DeleteValue_loop_agree].
Qed.

(** Two outcomes of a call that may wait are the same when the calls
    have returned the same or panicked alike, or wait on the same
    watcher with the same storage and go on alike from each case of
    the [select]. *)
Definition same_outcome {A} (o1 o2 : outcome A) : Prop :=
  match o1, o2 with
  | Done a σ, Done b σ' => a = b ∧ σ = σ'
  | Panicked msg, Panicked msg' => msg = msg'
  | Blocked watcher ctx k σ, Blocked watcher' ctx' k' σ' =>
      watcher = watcher' ∧ ctx = ctx' ∧ σ = σ' ∧
      ∀ c σ'', run (k c) σ'' = run (k' c) σ''
  | _, _ => False
  end.

Section RevisionsWait.
Implicit Types (σ : St) (key val : string).
Local Opaque Get AddWatcher RemoveWatcher CheckAndSet Clear NewValue.

Lemma earlier_WaitForValue_loop fuel ctx key ov σ :
  run (earlier.WaitForValue_loop (S fuel) ctx key ov) σ =
    run (x ← earlier.doWaitForValue ctx key ov;
         let '(val, newVersion, err) := x in
         if bool_decide (err = ErrValueRemoved)
         then earlier.WaitForValue_loop fuel ctx key ov
         else Ret (Some (val, version2OpaqueVersion newVersion, err))) σ.
Proof. done. Qed.

Lemma WaitForValue_loop_agree fuel ctx key ov σ :
  ctx_Err ctx ≠ ErrValueRemoved →
  same_outcome (run (earlier.WaitForValue_loop fuel ctx key ov) σ)
    (run (WaitForValue_loop fuel ctx key ov) σ).
Proof.
  intros Hctx. revert σ. induction fuel as [|fuel IH]; intros σ; [done|].
  rewrite earlier_WaitForValue_loop, WaitForValue_loop_run, !run_bind.
  unfold earlier.doWaitForValue, tryWaitForValue. simpl.
  destruct (negb (isClosed1 (env σ) =? 0)); simpl; [done|].
  assert (Htail : ∀ p σ0,
    same_outcome
      (match
         run
           (x ← atomic (AddWatcher p);
            let '(watcher, err) := x in
            if bool_decide (err ≠ nil) then Ret ("", 0, err)
            else
              x0 ← atomic (Get p);
              let '(val, version, err0) := x0 in
              if bool_decide (err0 ≠ nil) then Ret ("", 0, err0)
              else if negb (version =? 0) && ((ov =? 0) || negb (version =? ov))
                   then deferredRemoveWatcher key p watcher ;; Ret (val, version, nil)
                   else Select watcher ctx (earlier.afterSelect ctx key p watcher)) σ0
       with
       | Done a σ' =>
           run (let '(val, newVersion, err) := a in
                if bool_decide (err = ErrValueRemoved)
                then earlier.WaitForValue_loop fuel ctx key ov
                else Ret (Some (val, version2OpaqueVersion newVersion, err))) σ'
       | Panicked msg => Panicked msg
       | Blocked watcher ctx' k σ' =>
           Blocked watcher ctx'
             (λ c, x ← k c;
                   let '(val, newVersion, err) := x in
                   if bool_decide (err = ErrValueRemoved)
                   then earlier.WaitForValue_loop fuel ctx key ov
                   else Ret (Some (val, version2OpaqueVersion newVersion, err))) σ'
       end)
      (match
         run
           (x ← atomic (AddWatcher p);
            let '(watcher, err) := x in
            if bool_decide (err ≠ nil) then
              if bool_decide (err ≠ ErrValueRemoved) then throw "unreachable"
              else Ret ("", 0, nil, false)
            else
              x0 ← atomic (Get p);
              let '(val, version, err0) := x0 in
              if bool_decide (err0 ≠ nil) then
                if bool_decide (err0 ≠ ErrValueRemoved) then throw "unreachable"
                else Ret ("", 0, nil, false)
              else if negb (version =? 0) && ((ov =? 0) || negb (version =? ov))
                   then deferredRemoveWatcher key p watcher ;; Ret (val, version, nil, true)
                   else Select watcher ctx (afterSelect ctx key p watcher)) σ0
       with
       | Done a σ' => run (WaitForValue_next fuel ctx key ov a) σ'
       | Panicked msg => Panicked msg
       | Blocked watcher ctx' k σ' =>
           Blocked watcher ctx' (λ c, x ← k c; WaitForValue_next fuel ctx key ov x) σ'
       end)).
  { intros p σ0. simpl.
    destruct (AddWatcher p σ0) as [[[wrapped err] σ1]|msg] eqn:HA; [|done].
    apply AddWatcher_result in HA as (V & HV & [(Hr & -> & -> & ->)|(Hr & -> & ->)]);
      simpl; [apply IH|].
    destruct (Get p σ1) as [[[[val ver] err] σ2]|msg] eqn:HG; [|done].
    apply Get_result in HG
      as (-> & V' & HV' & [(Hr' & -> & -> & ->)|(Hr' & -> & -> & ->)]);
      simpl; [apply IH|].
    destruct (negb (Value_version V' =? 0)
              && ((ov =? 0) || negb (Value_version V' =? ov))); simpl.
    - destruct (RemoveWatcher p _ _ σ1) as [[e σ3]|msg]; [|done]. done.
    - split; [done|]. split; [done|]. split; [done|].
      intros c σ''. destruct c; simpl.
      + destruct (wcells σ'' !! length (wcells σ0)); done.
      + done.
      + destruct (RemoveWatcher p _ _ σ'') as [[e σ3]|msg]; [|done]. simpl.
        by rewrite bool_decide_eq_false_2. }
  destruct (values (env σ) !! key) as [p|] eqn:Hk; simpl.
  - apply Htail.
  - unfold values_LoadOrStore. simpl. rewrite Hk. simpl. apply Htail.
Qed.

End RevisionsWait.

(** [WaitForValue] of the earlier revision does what that of the later
    revision does, up to its [select] and from each case of it on, as
    long as the error of the context is not the [ErrValueRemoved] of
    the cell, which the loop of the earlier revision would take for
    the sign to try again. *)
Theorem revisions_agree_on_WaitForValue (fuel : nat) (σ : St) (ctx : Context)
    (key : string) (old : OpaqueVersion) :
  ctx_Err ctx ≠ ErrValueRemoved →
  same_outcome (run (earlier.WaitForValue fuel ctx key old) σ)
    (run (WaitForValue fuel ctx key old) σ).
Proof.
  intros Hctx. unfold earlier.WaitForValue, WaitForValue, convert.
  destruct old as [|ov|]; simpl; [| |done]; by apply WaitForValue_loop_agree.
Qed.

Lemma revisions_agree_on_WaitForValue_witness :
  same_outcome (run (earlier.WaitForValue 1 (Cancelable Canceled) "a" nilVersion) New)
    (run (WaitForValue 1 (Cancelable Canceled) "a" nilVersion) New).
Proof.
  apply (revisions_agree_on_WaitForValue 1 New (Cancelable Canceled) "a" nilVersion).
  discriminate.
Defined.

Section Present.
Implicit Types (σ : St) (V : Value) (p : nat) (key val : string).
Local Opaque Get AddWatcher RemoveWatcher CheckAndSet Clear NewValue.

(** [CreateOrUpdateValue] on a key that has a value, when the
    old-version lets the update through: the callback draws a second
    version, and that one is written. *)
Lemma tryCreateOrUpdateValue_present key val oldVersion σ p V :
  open σ → values (env σ) !! key = Some p → cells σ !! p = Some V →
  Value_isRemoved V = false → Value_version V ≠ 0 →
  oldVersion = 0 ∨ Value_version V = oldVersion →
  0 ≤ version (env σ) → version (env σ) + 2 < uint64_modulus →
  (∀ w, w ∈ watchers_of V → unfired (wcells σ) w) →
  run (tryCreateOrUpdateValue key val oldVersion) σ =
    Done (version (env σ) + 2, nil, true)
      (written p V val (version (env σ) + 2)
         (upd_version (version (env σ) + 2) (prepared val σ))).
Proof.
  intros Ho Hk HV Hr Hv Hm Hc0 Hc1 Hun. unfold tryCreateOrUpdateValue. simpl.
  rewrite Ho. simpl.
  destruct (uint64_add_1 (version (env σ))) as [[_ ?]|[H1 _]]; [lia|lia|].
  rewrite H1. rewrite NewValue_exec by lia.
  change (mkState _ _ _) with (prepared val σ).
  unfold values_LoadOrStore. simpl. rewrite Hk. simpl.
  assert (H2 : uint64_add (version (env σ) + 1) 1 = version (env σ) + 2).
  { destruct (uint64_add_1 (version (env σ) + 1)) as [[_ ?]|[-> _]]; lia. }
  rewrite (CheckAndSet_applied (prepared val σ)
             (upd_version (version (env σ) + 2) (prepared val σ)) p V _ 0
             val (version (env σ) + 2) (version (env σ) + 2));
    [|by apply prepared_lookup|done| |done|done|lia|done].
  - simpl. replace (version (env σ) + 2 =? 0) with false; [done|].
    symmetry. apply Z.eqb_neq. lia.
  - unfold tryCreateOrUpdateValue_callback. apply Z.eqb_neq in Hv. rewrite Hv.
    replace (negb (oldVersion =? 0) && negb (Value_version V =? oldVersion)) with false.
    2:{ destruct Hm as [->| ->]; [done|]. by rewrite Z.eqb_refl, andb_false_r. }
    unfold_bind. unfold nextVersion. simpl. by rewrite H2.
Qed.

(** The same call when the old-version is given and is not the
    current version: nothing is written, the version and the cell it
    has prepared are dropped. *)
Lemma tryCreateOrUpdateValue_mismatch key val oldVersion σ p V :
  open σ → values (env σ) !! key = Some p → cells σ !! p = Some V →
  Value_isRemoved V = false → Value_version V ≠ 0 →
  oldVersion ≠ 0 → Value_version V ≠ oldVersion →
  0 ≤ version (env σ) → version (env σ) + 1 < uint64_modulus →
  run (tryCreateOrUpdateValue key val oldVersion) σ = Done (0, nil, true) (prepared val σ).
Proof.
  intros Ho Hk HV Hr Hv Ho0 Hne Hc0 Hc1. unfold tryCreateOrUpdateValue. simpl.
  rewrite Ho. simpl.
  destruct (uint64_add_1 (version (env σ))) as [[_ ?]|[-> _]]; [lia|lia|].
  rewrite NewValue_exec by lia.
  change (mkState _ _ _) with (prepared val σ).
  unfold values_LoadOrStore. simpl. rewrite Hk. simpl.
  rewrite (CheckAndSet_refused (prepared val σ) (prepared val σ) p V _ 0 "" 0 0);
    [done|by apply prepared_lookup|done|].
  unfold tryCreateOrUpdateValue_callback.
  apply Z.eqb_neq in Hv, Ho0, Hne. by rewrite Hv, Ho0, Hne.
Qed.

End Present.

(** [CreateOrUpdateValue] on a key that has a value. When the
    old-version is nil or the current version, the value is written
    under the second of two versions the call draws (the first, drawn
    before the key is looked at, is lost), and that version is
    returned. When the old-version is given and differs, the nil
    version is returned and the value stays; the one version drawn is
    lost. *)
Theorem CreateOrUpdateValue_on_existing_value (fuel : nat) (σ : St) (key val : string)
    (old : OpaqueVersion) (ov : Version) (V : Value) :
  wf σ → open σ → opaqueVersion2Version old = Ok ov →
  cell_of σ key = Some V → Value_version V ≠ 0 →
  version (env σ) < uint64_modulus - 2 →
  (ov = 0 ∨ Value_version V = ov →
   ∃ σ', run (CreateOrUpdateValue (S fuel) key val old) σ =
           Done (Some (boxVersion (version (env σ) + 2), nil)) σ' ∧
         version (env σ') = version (env σ) + 2 ∧
         cell_of σ' key = Some (mkValue val (version (env σ) + 2) None false)) ∧
  (ov ≠ 0 → Value_version V ≠ ov →
   ∃ σ', run (CreateOrUpdateValue (S fuel) key val old) σ = Done (Some (nilVersion, nil)) σ' ∧
         version (env σ') = version (env σ) + 1 ∧
         cell_of σ' key = Some V).
Proof.
  intros Hwf Ho Hov HV Hv Hc.
  apply cell_of_Some in HV as (p & Hk & HV).
  destruct (wf_values σ Hwf key p Hk) as (V' & HV' & Hr).
  assert (V' = V) as -> by congruence.
  pose proof (wf_counter σ Hwf) as Hc0.
  rewrite (CreateOrUpdateValue_convert fuel key val old ov) by done.
  split.
  - intros Hm.
    exists (written p V val (version (env σ) + 2)
              (upd_version (version (env σ) + 2) (prepared val σ))).
    split; [|split].
    + rewrite (CreateOrUpdateValue_loop_done fuel key val ov σ (version (env σ) + 2) nil
                 (written p V val (version (env σ) + 2)
                    (upd_version (version (env σ) + 2) (prepared val σ)))).
      * rewrite version2OpaqueVersion_box_id; [done|lia].
      * apply (tryCreateOrUpdateValue_present key val ov σ p V); try done; try lia.
        by apply (attached_unfired σ p V).
    + done.
    + apply (cell_of_written _ key p V); [done|]. by apply prepared_lookup.
  - intros Ho0 Hne. exists (prepared val σ). split; [|split].
    + apply (CreateOrUpdateValue_loop_done fuel key val ov σ 0 nil).
      apply (tryCreateOrUpdateValue_mismatch key val ov σ p V); try done; lia.
    + done.
    + apply cell_of_Some. exists p. split; [done|]. by apply prepared_lookup.
Qed.

Lemma CreateOrUpdateValue_on_existing_value_witness :
  (∃ σ', run (CreateOrUpdateValue 1 "a" "2" (boxVersion 1)) (created "a" "1") =
           Done (Some (boxVersion (version (env (created "a" "1")) + 2), nil)) σ' ∧
         version (env σ') = version (env (created "a" "1")) + 2 ∧
         cell_of σ' "a" =
           Some (mkValue "2" (version (env (created "a" "1")) + 2) None false)) ∧
  (∃ σ', run (CreateOrUpdateValue 1 "a" "2" (boxVersion 7)) (created "a" "1") =
           Done (Some (nilVersion, nil)) σ' ∧
         version (env σ') = version (env (created "a" "1")) + 1 ∧
         cell_of σ' "a" = Some (mkValue "1" 1 None false)).
Proof.
  assert (Hc : version (env (created "a" "1")) < uint64_modulus - 2).
  { rewrite uint64_modulus_eq. simpl. lia. }
  destruct (CreateOrUpdateValue_on_existing_value 0 (created "a" "1") "a" "2"
              (boxVersion 1) 1 (mkValue "1" 1 None false) (wf_created "a" "1")
              eq_refl eq_refl eq_refl) as [H1 _]; [simpl; lia|exact Hc|].
  destruct (CreateOrUpdateValue_on_existing_value 0 (created "a" "1") "a" "2"
              (boxVersion 7) 7 (mkValue "1" 1 None false) (wf_created "a" "1")
              eq_refl eq_refl eq_refl) as [_ H2]; [simpl; lia|exact Hc|].
  split; [apply H1; right; reflexivity|apply H2; simpl; lia].
Defined.

(** ** Two calls that overlap, in every order of their steps *)

(** A schedule of two goroutines: at each tick, goroutine 1 ([true])
    or goroutine 0 ([false]) takes its next step. *)
Definition two (s : list bool) : list (nat * selectCase) :=
  (λ b : bool, (if b then 1%nat else 0%nat, caseEvent)) <$> s.

(** All schedules of [n] ticks. *)
Fixpoint schedules (n : nat) : list (list bool) :=
  match n with
  | O => [[]]
  | S n' => s ← schedules n'; [false :: s; true :: s]
  end.

Lemma schedules_all n s : length s = n → s ∈ schedules n.
Proof.
  revert s. induction n as [|n IH]; intros [|b s] Hs; simplify_eq/=.
  - by left.
  - apply list_elem_of_bind. exists s. split; [|by apply IH].
    destruct b; [right; left|left].
Qed.

(** The calls that have returned a version that is not nil. *)
Definition winners (cfg : config (option (OpaqueVersion * error)))
    : list (nat * Version) :=
  omap (λ '(i, r), match r with
                   | Some (boxVersion v, nil) => Some (i, v)
                   | _ => None
                   end) (completed cfg).

(** Goroutine 0 runs [CreateValue("a", "1")] and goroutine 1 runs
    [CreateValue("a", "2")] on a fresh storage. *)
Definition creators : config (option (OpaqueVersion * error)) :=
  start [CreateValue 1 "a" "1"; CreateValue 1 "a" "2"].

Definition holds (σ : St) (key val : string) (v : Version) : bool :=
  match cell_of σ key with
  | Some V =>
      bool_decide (Value_v V = val) && (Value_version V =? v)
      && (if Value_watchers V is None then true else false)
      && negb (Value_isRemoved V)
  | None => false
  end.

Definition one_winner (cfg : config (option (OpaqueVersion * error))) : bool :=
  (if crashed cfg is None then true else false)
  && match winners cfg with
     | [] => negb (length (completed cfg) =? 2)%nat
     | [(i, v)] =>
         negb (length (completed cfg) =? 2)%nat
         || holds (shared cfg) "a" (if i is O then "1" else "2") v
     | _ => false
     end.

Lemma holds_cell σ key val v :
  holds σ key val v = true → cell_of σ key = Some (mkValue val v None false).
Proof.
  unfold holds. destruct (cell_of σ key) as [[vv ver [ws|] []]|]; simpl;
    rewrite ?andb_false_r, ?andb_true_r; try done.
  rewrite andb_true_iff. intros [H1 H2].
  apply bool_decide_eq_true in H1 as ->. by apply Z.eqb_eq in H2 as ->.
Qed.

Lemma creators_checked :
  forallb (λ s, one_winner (interleave (two s) creators)) (schedules 10) = true.
Proof. vm_compute. reflexivity. Qed.

Lemma checked_schedule {A} (check : config A → bool) (cfg : config A) n s :
  forallb (λ s, check (interleave (two s) cfg)) (schedules n) = true →
  length s = n → check (interleave (two s) cfg) = true.
Proof.
  intros H Hs. rewrite forallb_forall in H. apply (H s).
  by apply list_elem_of_In, schedules_all.
Qed.

(** Two [CreateValue] calls on the same key that overlap, on a fresh
    storage: in whatever order their steps are taken (within ten steps
    the two calls have nine to take), nothing panics, at most one of
    them returns a version, and once both have returned exactly one
    has, and the key holds the value of that call under that version. *)
Theorem overlapping_CreateValue_one_winner (s : list bool) :
  length s = 10%nat →
  let cfg := interleave (two s) creators in
  crashed cfg = None ∧
  (length (winners cfg) ≤ 1)%nat ∧
  (length (completed cfg) = 2%nat →
   ∃ i v, winners cfg = [(i, v)] ∧
          cell_of (shared cfg) "a" =
            Some (mkValue (if i is O then "1" else "2") v None false)).
Proof.
  intros Hs cfg.
  pose proof (checked_schedule one_winner creators 10 s creators_checked Hs) as H.
  fold cfg in H. unfold one_winner in H.
  apply andb_true_iff in H as [Hc H].
  split; [by destruct (crashed cfg)|].
  destruct (winners cfg) as [|[i v] [|? ?]]; [| |done].
  - split; [simpl; lia|]. intros Hn. rewrite Hn in H. done.
  - split; [simpl; lia|]. intros Hn. rewrite Hn in H. simpl in H.
    exists i, v. split; [done|]. by apply holds_cell.
Qed.

Lemma overlapping_CreateValue_one_winner_witness :
  let cfg := interleave
               (two [false; false; false; true; true; true; true; true; false; false])
               creators in
  length (completed cfg) = 2%nat ∧
  crashed cfg = None ∧
  (length (winners cfg) ≤ 1)%nat ∧
  (length (completed cfg) = 2%nat →
   ∃ i v, winners cfg = [(i, v)] ∧
          cell_of (shared cfg) "a" =
            Some (mkValue (if i is O then "1" else "2") v None false)).
Proof.
  split; [vm_compute; reflexivity|].
  apply (overlapping_CreateValue_one_winner
           [false; false; false; true; true; true; true; true; false; false]).
  reflexivity.
Defined.

(** Goroutine 0 runs [GetValue("a")] with [fuel] iterations of its
    loop, goroutine 1 runs [DeleteValue("a", nil)], on a storage where
    "a" has the value "1" under version 1. *)
Definition reader_and_deleter (fuel : nat) : config reply :=
  mkConfig (created "a" "1")
    [r ← GetValue fuel "a";
     Ret (match r with
          | Some (val, version, err) => returnedValue val version err
          | None => spinning
          end);
     r ← DeleteValue 1 "a" nilVersion;
     Ret (match r with
          | Some (ok, err) => returnedOk ok err
          | None => spinning
          end)]
    [] None.

#[local] Instance OpaqueVersion_eq_dec : EqDecision OpaqueVersion.
Proof. solve_decision. Defined.

#[local] Instance reply_eq_dec : EqDecision reply.
Proof. solve_decision. Defined.

Definition read_or_gone (cfg : config reply) : bool :=
  (if crashed cfg is None then true else false)
  && forallb (λ '(i, r),
       match i with
       | O => bool_decide (r = returnedValue "1" (boxVersion 1) nil)
              || bool_decide (r = returnedValue "" nilVersion nil)
       | S _ => bool_decide (r = returnedOk true nil)
       end) (completed cfg).

Lemma reader_and_deleter_checked :
  forallb (λ s, read_or_gone (interleave (two s) (reader_and_deleter 2))) (schedules 8) = true.
Proof. vm_compute. reflexivity. Qed.

(** [GetValue] that overlaps with a [DeleteValue] of its key: in
    whatever order their steps are taken, nothing panics, the
    [DeleteValue] returns true, and the [GetValue] returns the value
    with its version or no value, within two iterations of its loop.
    One iteration is not enough: when the cell is removed between the
    [Load] and the [Get] of the first attempt, that attempt ends with
    [ErrValueRemoved] and the loop goes round. *)
Theorem GetValue_retries_past_a_removed_cell :
  (∀ s : list bool, length s = 8%nat →
     let cfg := interleave (two s) (reader_and_deleter 2) in
     crashed cfg = None ∧
     ∀ i r, (i, r) ∈ completed cfg →
            match i with
            | O => r = returnedValue "1" (boxVersion 1) nil ∨
                   r = returnedValue "" nilVersion nil
            | S _ => r = returnedOk true nil
            end) ∧
  (∃ s : list bool,
     (0%nat, spinning) ∈ completed (interleave (two s) (reader_and_deleter 1))).
Proof.
  split.
  - intros s Hs cfg.
    pose proof (checked_schedule read_or_gone (reader_and_deleter 2) 8 s
                  reader_and_deleter_checked Hs) as H.
    fold cfg in H. unfold read_or_gone in H.
    apply andb_true_iff in H as [Hc H].
    split; [by destruct (crashed cfg)|].
    intros i r Hin. rewrite forallb_forall in H.
    apply list_elem_of_In, H in Hin.
    destruct i as [|i].
    + apply orb_true_iff in Hin as [Hin|Hin]; apply bool_decide_eq_true in Hin; auto.
    + by apply bool_decide_eq_true in Hin.
  - exists [false; false; true; true; true; false]. vm_compute.
    apply list_elem_of_In. simpl. tauto.
Qed.

(** ** The versions handed out when calls overlap *)


(** The counter is in range when the next draw does not wrap. *)
Definition in_range (σ : St) : Prop := 0 ≤ version (env σ) < uint64_modulus - 1.

(** [D] with the versions drawn by a step that took the counter from
    [c] to [c']. *)
Definition drawn (D : Version → Prop) (c c' : Version) : Version → Prop :=
  λ v, D v ∨ c < v ≤ c'.

(** [owns Q D p]: a goroutine that has drawn the versions [D] from the
    counter and goes on as [p] draws at most one version with each
    step, and what it returns satisfies [Q] of the versions it has
    drawn by then. The versions a step draws are those between the
    counter before and after it. *)
Fixpoint owns {A} (Q : (Version → Prop) → A → Prop) (D : Version → Prop)
    (p : prog A) : Prop :=
  match p with
  | Ret a => Q D a
  | Atomic m k =>
      ∀ σ x σ', in_range σ → m σ = Ok (x, σ') →
        version (env σ) ≤ version (env σ') ≤ version (env σ) + 1 ∧
        owns Q (drawn D (version (env σ)) (version (env σ'))) (k x)
  | Select _ _ k => ∀ c, owns Q D (k c)
  end.

(** What a goroutine may return: a version only if it has drawn it. *)
Definition own_reply (D : Version → Prop) (r : reply) : Prop :=
  match handed_out r with
  | Some v => D v
  | None => True
  end.

Definition own_version (D : Version → Prop) (r : option (OpaqueVersion * error)) : Prop :=
  match r with
  | Some (boxVersion v, _) => D v
  | _ => True
  end.

Definition own_attempt (D : Version → Prop) (r : Version * error * bool) : Prop :=
  r.1.1 = 0 ∨ D r.1.1.

Definition anything {A} (D : Version → Prop) (a : A) : Prop := True.

Definition monotone {A} (Q : (Version → Prop) → A → Prop) : Prop :=
  ∀ (D D' : Version → Prop) a, (∀ v, D v → D' v) → Q D a → Q D' a.

Section Env.
Context {E : Type}.
Implicit Types (σ : state E) (p : nat).

Lemma NewValue_env σ vv version p σ' :
  NewValue vv version σ = Ok (p, σ') → env σ' = env σ.
Proof.
  unfold NewValue, alloc, set, deref, assign. intros H.
  cbv [mbind M_bind mret M_ret ret panic] in H. simpl in H.
  repeat case_match; by simplify_eq/=.
Qed.

Lemma AddWatcher_env σ p x σ' : AddWatcher p σ = Ok (x, σ') → env σ' = env σ.
Proof.
  unfold AddWatcher, deref, Init, assign. intros H.
  cbv [mbind M_bind mret M_ret ret panic] in H. simpl in H.
  repeat case_match; by simplify_eq/=.
Qed.

Lemma FireEvents_env ws args σ x σ' :
  FireEvents ws args σ = Ok (x, σ') → env σ' = env σ.
Proof.
  revert σ. induction ws as [|w ws IH]; intros σ H; simpl in H.
  { cbv [ret mret M_ret] in H. by simplify_eq/=. }
  cbv [mbind M_bind] in H. unfold FireEvent in H.
  destruct (wcells σ !! w) as [c|]; [|done].
  destruct (event_closed c); [done|]. by apply IH in H.
Qed.

(** [CheckAndSet] changes [env] only through its callback. *)
Lemma CheckAndSet_env {L} σ p
    (cb : Version → L → M E (string * Version * bool * L)) c ok err c' σ' :
  CheckAndSet p cb c σ = Ok ((ok, err, c'), σ') →
  (ok = false ∧ c' = c ∧ σ' = σ) ∨
  ∃ current vv ver σ1, cb current c σ = Ok ((vv, ver, ok, c'), σ1) ∧ env σ' = env σ1.
Proof.
  unfold CheckAndSet, deref. intros H.
  cbv [mbind M_bind mret M_ret ret panic] in H.
  destruct (cells σ !! p) as [V|]; [|done].
  destruct (Value_isRemoved V); [left; by simplify_eq/=|].
  destruct (cb (Value_version V) c σ) as [[[[[vv ver] okk] c1] σ1]|] eqn:Hcb; [|done].
  right. exists (Value_version V), vv, ver, σ1.
  destruct okk; simpl in H; [|by simplify_eq/=].
  unfold set, assign, deref in H. cbv [mbind M_bind mret M_ret ret panic] in H.
  destruct (ver =? 0); [done|].
  destruct (cells σ1 !! p) as [V1|]; [|done]. simpl in H.
  destruct (<[p:=with_v_version V1 vv ver]> (cells σ1) !! p) as [V2|]; [|done].
  simpl in H.
  destruct (FireEvents _ _ _) as [[[] σ2]|] eqn:HF; [|done].
  apply FireEvents_env in HF. by simplify_eq/=.
Qed.

End Env.

Section VersionKept.
Implicit Types (σ : St) (p : nat) (key : string).

Lemma RemoveWatcher_version σ p wrapped key e σ' :
  RemoveWatcher p wrapped (values_Delete key) σ = Ok (e, σ') →
  version (env σ') = version (env σ).
Proof.
  unfold RemoveWatcher, remove, deref, assign, values_Delete. intros H.
  cbv [mbind M_bind mret M_ret ret panic] in H. simpl in H.
  repeat case_match; by simplify_eq/=.
Qed.

Lemma Clear_version σ p v key r σ' :
  Clear p v (values_Delete key) σ = Ok (r, σ') →
  version (env σ') = version (env σ).
Proof.
  unfold Clear, remove, deref, assign, values_Delete. intros H.
  cbv [mbind M_bind mret M_ret ret panic] in H. simpl in H.
  repeat case_match; by simplify_eq/=.
Qed.


End VersionKept.

(** A step that leaves the counter as it is. *)
Definition quiet {X} (m : Act X) : Prop :=
  ∀ σ x σ', m σ = Ok (x, σ') → version (env σ') = version (env σ).

Create HintDb quiet.

Section Owning.
Implicit Types (σ : St) (p : nat) (key val : string) (D : Version → Prop).

Lemma quiet_isClosed : quiet isClosed.
Proof. by intros σ x σ' [= <- <-]. Qed.

Lemma quiet_values_Load key : quiet (values_Load key).
Proof. by intros σ x σ' [= <- <-]. Qed.

Lemma quiet_values_LoadOrStore key value : quiet (values_LoadOrStore key value).
Proof.
  intros σ x σ' H. unfold values_LoadOrStore in H.
  destruct (values (env σ) !! key); by simplify_eq/=.
Qed.

Lemma quiet_alloc V : quiet (alloc V).
Proof. by intros σ x σ' [= <- <-]. Qed.

Lemma quiet_SwapInt32_isClosed1 new : quiet (SwapInt32_isClosed1 new).
Proof. by intros σ x σ' [= <- <-]. Qed.

Lemma quiet_close_closure : quiet close_closure.
Proof.
  intros σ x σ' H. unfold close_closure in H.
  destruct (closure (env σ)); by simplify_eq/=.
Qed.

Lemma quiet_EventArgs_of w : quiet (EventArgs_of w).
Proof.
  intros σ x σ' H. unfold EventArgs_of in H.
  destruct w as [i|]; [|done]. destruct (wcells σ !! i); by simplify_eq/=.
Qed.

Lemma quiet_panic {X} msg : quiet (panic msg : Act X).
Proof. by intros σ x σ' [=]. Qed.

Lemma quiet_Get p : quiet (Get p).
Proof. intros σ [[val ver] err] σ' H. by apply Get_result in H as [-> _]. Qed.

Lemma quiet_AddWatcher p : quiet (AddWatcher p).
Proof. intros σ x σ' H. by rewrite (AddWatcher_env σ p x σ' H). Qed.

Lemma quiet_NewValue vv version : quiet (NewValue vv version).
Proof. intros σ x σ' H. by rewrite (NewValue_env σ vv version x σ' H). Qed.

Lemma quiet_RemoveWatcher p wrapped key : quiet (RemoveWatcher p wrapped (values_Delete key)).
Proof. intros σ x σ' H. by eapply RemoveWatcher_version. Qed.

Lemma quiet_Clear p v key : quiet (Clear p v (values_Delete key)).
Proof. intros σ x σ' H. by eapply Clear_version. Qed.

Lemma quiet_CheckAndSet_create p val version :
  quiet (CheckAndSet p (tryCreateValue_callback val version) tt).
Proof.
  intros σ [[ok err] c'] σ' H.
  apply CheckAndSet_env in H as [(_ & _ & ->)|(cur & vv & ver & σ1 & Hcb & ->)]; [done|].
  unfold tryCreateValue_callback in Hcb. cbv [ret mret M_ret] in Hcb.
  destruct (negb (cur =? 0)); by simplify_eq/=.
Qed.

Lemma monotone_anything {A} : monotone (@anything A).
Proof. done. Qed.

Lemma monotone_own_attempt : monotone own_attempt.
Proof. intros D D' a HD. unfold own_attempt. intros [?|?]; [by left|right; auto]. Qed.

Lemma monotone_own_version : monotone own_version.
Proof. intros D D' [[[|v|] e]|] HD H; simpl in *; auto. Qed.

Lemma monotone_own_reply : monotone own_reply.
Proof.
  intros D D' r HD. unfold own_reply. destruct (handed_out r); auto.
Qed.

Lemma owns_mono {A} (Q : (Version → Prop) → A → Prop) (p : prog A) D D' :
  monotone Q → (∀ v, D v → D' v) → owns Q D p → owns Q D' p.
Proof.
  intros HQ. revert D D'.
  induction p as [a|X m k IH|w ctx k IH]; intros D D' HD H; simpl in *.
  - by eapply HQ.
  - intros σ x σ' Hr Hm. destruct (H σ x σ' Hr Hm) as [Hv Hk]. split; [done|].
    eapply IH; [|exact Hk]. intros v [?|?]; [left; auto|by right].
  - intros c. eapply IH; eauto.
Qed.






End Owning.

#[global] Hint Resolve quiet_isClosed quiet_values_Load quiet_values_LoadOrStore quiet_alloc
  quiet_SwapInt32_isClosed1 quiet_close_closure quiet_EventArgs_of quiet_panic
  quiet_Get quiet_AddWatcher quiet_NewValue quiet_RemoveWatcher quiet_Clear
  quiet_CheckAndSet_create : quiet.

Section ProgramsOwn.
Implicit Types (σ : St) (p : nat) (key val : string) (D : Version → Prop).
Local Opaque Get AddWatcher RemoveWatcher CheckAndSet Clear NewValue.

#[local] Hint Resolve monotone_anything monotone_own_attempt monotone_own_version
  monotone_own_reply : quiet.

Local Arguments owns : simpl never.




















End ProgramsOwn.

(** *** The invariant of goroutines that run calls *)

Section Interleavings.
Implicit Types (cfg : config reply) (D : nat → Version → Prop) (i : nat).

(** Goroutine [i] has drawn the versions [D i]: no version has been
    drawn by two goroutines, every version drawn is above 0 and not
    above the counter, and a goroutine that has returned has returned
    once, a version only if it had drawn it. *)
Record inv cfg D : Prop := mkInv {
  inv_counter : 0 ≤ version (env (shared cfg));
  inv_owns : ∀ i p, goroutines cfg !! i = Some p → owns own_reply (D i) p;
  inv_range : ∀ i v, D i v → 0 < v ≤ version (env (shared cfg));
  inv_disjoint : ∀ i j v, D i v → D j v → i = j;
  inv_once : NoDup (completed cfg).*1;
  inv_done : ∀ i r, (i, r) ∈ completed cfg → goroutines cfg !! i = Some (Ret r)
}.


Lemma inv_ext cfg D D' :
  inv cfg D → (∀ i v, D' i v ↔ D i v) → inv cfg D'.
Proof.
  intros [Hc Ho Hr Hd Hn Hf] He. split; try done.
  - intros i p Hi. apply (owns_mono own_reply p (D i)); [apply monotone_own_reply| |auto].
    intros v. apply He.
  - intros i v Hv. apply (Hr i). by apply He.
  - intros i j v H1 H2. apply (Hd i j v); by apply He.
Qed.





End Interleavings.


